(** * da4py: boolean formulas, their CNF compilation, and the weighted
      clause assembly of the conformance artefacts

    Shallow embedding of [src/main/formulas.py] and of the parts of
    [da4py/main/conformanceArtefacts.py] that build the weighted clause set
    and add the wait transition to the Petri net.

    Python integers are [Z].  For the compiler a formula object is
    modelled as a value of the inductive type [Operator]: every node is
    reached through exactly one parent (a tree), and the compiler builds new
    lists and rebinds attributes, so the rewriting of the children of an [Or]
    node is modelled by the rewritten child being passed on to the recursive
    call.  The module-level counter [NB_VARS] is the state of the monad [M].

    [simplify] and [Or.distributeImplication] update literal lists in place:
    they are modelled in [Objects], where a node refers to its literal lists
    as list objects.  [Classes] has the compiler on instances of the three
    classes, the base class [Operator] among them, with [None] and the
    exceptions of Python. *)

From Stdlib Require Import String ZArith List Lia Bool Permutation.
Import ListNotations.
Open Scope Z_scope.
Set Warnings "-register-all".

(* ===================================================================== *)
(** ** src/main/formulas.py *)
(* ===================================================================== *)

Module Formulas.

(** [Operator]: [And(positiveVariables, negativeVariables, qbf_formulas)]
    and [Or(positiveVariables, negativeVariables, qbf_formulas)]. *)
Inductive Operator : Type :=
| And (positiveVariables negativeVariables : list Z) (qbf_formulas : list Operator)
| Or (positiveVariables negativeVariables : list Z) (qbf_formulas : list Operator).

(** The [type] attribute set by the two constructors. *)
Definition type (self : Operator) : string :=
  match self with
  | And _ _ _ => "AND"%string
  | Or _ _ _ => "OR"%string
  end.

Definition positiveVariables (self : Operator) : list Z :=
  match self with And p _ _ | Or p _ _ => p end.

Definition negativeVariables (self : Operator) : list Z :=
  match self with And _ n _ | Or _ n _ => n end.

Definition qbf_formulas (self : Operator) : list Operator :=
  match self with And _ _ q | Or _ _ q => q end.

(** A clause is a list of signed integers, a CNF a list of clauses. *)
Definition clause := list Z.

(** Python's [len], as an integer. *)
Definition len {A : Type} (l : list A) : Z := Z.of_nat (length l).

(** Python's [range(lo, hi)]. *)
Definition range (lo hi : Z) : list Z :=
  map (fun i => lo + Z.of_nat i) (seq 0 (Z.to_nat (hi - lo))).

(** [[f(i, l[i]) for i in range(0, len(l))]], counting from [i]. *)
Fixpoint mapi_from {A B : Type} (f : nat -> A -> B) (i : nat) (l : list A) : list B :=
  match l with
  | [] => []
  | x :: r => f i x :: mapi_from f (S i) r
  end.

Definition mapi {A B : Type} (f : nat -> A -> B) (l : list A) : list B :=
  mapi_from f 0 l.

(** *** The global counter [NB_VARS] as a state monad

    A computation reads and writes [NB_VARS]; [None] only ever means that
    the recursion budget of the model ran out (the Python code has no
    failing path on these values). *)
Definition M (A : Type) : Type := Z -> option (A * Z).

Definition ret {A : Type} (a : A) : M A := fun nb => Some (a, nb).

Definition bind {A B : Type} (m : M A) (k : A -> M B) : M B :=
  fun nb => match m nb with
            | Some (a, nb') => k a nb'
            | None => None
            end.

Definition get_NB_VARS : M Z := fun nb => Some (nb, nb).
Definition set_NB_VARS (v : Z) : M unit := fun _ => Some (tt, v).
Definition out_of_fuel {A : Type} : M A := fun _ => None.

Notation "x <- m ;; k" := (bind m (fun x => k))
  (at level 61, m at next level, right associativity).
Notation "m ;;; k" := (bind m (fun _ => k))
  (at level 61, right associativity).

(** [left = []; for formula in l: left += rec(formula)] *)
Fixpoint concat_cnf (rec : Operator -> M (list clause)) (l : list Operator)
  : M (list clause) :=
  match l with
  | [] => ret []
  | formula :: rest =>
      cnf <- rec formula ;;
      left <- concat_cnf rec rest ;;
      ret (cnf ++ left)
  end.

(** What the distribution of an implication makes of a formula, as a
    value: the conjunction of [not var or x] over the literals and children
    [x] of an [And], the disjunction with [not var] added for an [Or].  The
    methods themselves, which work on list objects, are
    [Objects.distributeImplication]. *)
Definition distributed (self : Operator) (var : Z) : Operator :=
  match self with
  | And pos neg qbfs =>
      let temp :=
        map (fun positiveVariable => Or [positiveVariable] [var] []) pos ++
        map (fun negativeVariable => Or [] [negativeVariable; var] []) neg ++
        map (fun formula => Or [] [var] [formula]) qbfs in
      And [] [] temp
  | Or pos neg qbfs => Or pos (neg ++ [var]) qbfs
  end.

(** Rebinding the three attributes of a node leaves its class alone. *)
Definition rebind (self : Operator) (pos neg : list Z) (qbfs : list Operator)
  : Operator :=
  match self with
  | And _ _ _ => And pos neg qbfs
  | Or _ _ _ => Or pos neg qbfs
  end.

(** The body of the loop of [Or.aux_operatorToCnf] (lines 202-215), which
    repeats the distribution in line: the child [qbf] after the loop body
    has run with [var = NB_VARS + i]. *)
Definition distribute_child (qbf : Operator) (var : Z) : Operator :=
  if String.eqb (type qbf) "OR" then
    rebind qbf (positiveVariables qbf) (negativeVariables qbf ++ [var])
           (qbf_formulas qbf)
  else
    let newListOfFormulas :=
      map (fun positiveVariable => Or [positiveVariable] [var] [])
          (positiveVariables qbf) ++
      map (fun negativeVariable => Or [] [negativeVariable; var] [])
          (negativeVariables qbf) ++
      map (fun formula => Or [] [var] [formula]) (qbf_formulas qbf) in
    rebind qbf [] [] newListOfFormulas.

(** The test of line 190-191: exactly one child, which is an [Or] without
    literals; the result is that child's own list of children. *)
Definition single_bare_or (qbfs : list Operator) : option (list Operator) :=
  match qbfs with
  | [q] =>
      if String.eqb (type q) "OR"
         && (len (positiveVariables q) =? 0)
         && (len (negativeVariables q) =? 0)
      then Some (qbf_formulas q)
      else None
  | _ => None
  end.

(** [And.aux_operatorToCnf] and [Or.aux_operatorToCnf]. *)
Fixpoint aux_operatorToCnf (fuel : nat) (self : Operator) {struct fuel}
  : M (list clause) :=
  match fuel with
  | O => out_of_fuel
  | S fuel =>
      match self with
      | And pos neg qbfs =>
          let dnfPositiveVariables := map (fun v => [v]) pos in
          let dnfNegativeVariables := map (fun v => [v * -1]) neg in
          left <- concat_cnf (aux_operatorToCnf fuel) qbfs ;;
          ret (dnfPositiveVariables ++ dnfNegativeVariables ++ left)
      | Or pos neg qbfs =>
          match single_bare_or qbfs with
          | Some inner => aux_operatorToCnf fuel (Or pos neg inner)
          | None =>
              NB_VARS <- get_NB_VARS ;;
              let newVariables := range NB_VARS (NB_VARS + len qbfs) in
              let dnf := pos ++ newVariables ++ map (fun v => v * -1) neg in
              let qbfs' :=
                mapi (fun i q => distribute_child q (NB_VARS + Z.of_nat i)) qbfs in
              set_NB_VARS (NB_VARS + len qbfs) ;;;
              if len qbfs =? 0 then ret [dnf]
              else
                clauses <- aux_operatorToCnf fuel (And [] [] qbfs') ;;
                ret (clauses ++ [dnf])
          end
      end
  end.

(** Recursion budget that always suffices: [budget] bounds the depth of
    the calls of [aux_operatorToCnf], [budget_child] the depth reached on a
    node once an implication has been distributed into it. *)
Fixpoint budget_child (self : Operator) : nat :=
  match self with
  | And pos neg qbfs =>
      2 + 2 * (length pos + length neg)
      + list_sum (map (fun q => 2 + budget_child q) qbfs)
  | Or _ _ qbfs => 3 + list_sum (map budget_child qbfs)
  end%nat.

Fixpoint budget (self : Operator) : nat :=
  match self with
  | And _ _ qbfs => 1 + list_sum (map budget qbfs)
  | Or _ _ qbfs => 2 + list_sum (map budget_child qbfs)
  end%nat.

(** [Operator.operatorToCnf(nbVars)]: seeds [NB_VARS] and compiles.  The
    result carries the clauses and the value of [NB_VARS] afterwards. *)
Definition operatorToCnf (self : Operator) (nbVars : Z) : M (list clause) :=
  set_NB_VARS nbVars ;;;
  aux_operatorToCnf (S (budget self)) self.

(** *** Flattening and collapsing, on formula values

    The rewriting that [simplify] is described by, as a function on formula
    values: [flatten_collapse].  The method itself, which extends list
    objects in place, is [Objects.simplify]; the two are compared in
    [ObjectsFacts]. *)

(** Flattening: children carrying the operator of the parent are merged
    into the parent, the others are kept.  The accumulator holds the
    literals of the parent and the children kept so far. *)
Fixpoint merge_same_type (ty : string) (qbfs : list Operator)
  (acc : list Z * list Z * list Operator) : list Z * list Z * list Operator :=
  match qbfs with
  | [] => acc
  | qbf :: rest =>
      let '(pos, neg, newQbflist) := acc in
      if String.eqb (type qbf) ty then
        merge_same_type ty rest
          (pos ++ positiveVariables qbf, neg ++ negativeVariables qbf,
           newQbflist ++ qbf_formulas qbf)
      else merge_same_type ty rest (pos, neg, newQbflist ++ [qbf])
  end.

(** The remaining children are rewritten one after the other. *)
Fixpoint flatten_collapse_each (rec : Operator -> option Operator) (l : list Operator)
  : option (list Operator) :=
  match l with
  | [] => Some []
  | qbf :: rest =>
      match rec qbf with
      | Some formula =>
          match flatten_collapse_each rec rest with
          | Some simplifiedQbflist => Some (formula :: simplifiedQbflist)
          | None => None
          end
      | None => None
      end
  end.

(** A node without children is left alone; a node with exactly one child
    and no literals is collapsed into that child, rewritten; any other node
    is flattened and its remaining children rewritten.  [None] only when
    the recursion budget ran out. *)
Fixpoint flatten_collapse (fuel : nat) (self : Operator) {struct fuel} : option Operator :=
  match fuel with
  | O => None
  | S fuel =>
      if len (qbf_formulas self) =? 0 then Some self
      else if (len (qbf_formulas self) =? 1)
              && (len (positiveVariables self) =? 0)
              && (len (negativeVariables self) =? 0)
      then flatten_collapse fuel (hd self (qbf_formulas self))
      else
        let '(pos, neg, newQbflist) :=
          merge_same_type (type self) (qbf_formulas self)
            (positiveVariables self, negativeVariables self, []) in
        match flatten_collapse_each (flatten_collapse fuel) newQbflist with
        | Some simplifiedQbflist =>
            if String.eqb (type self) "AND"
            then Some (And pos neg simplifiedQbflist)
            else Some (Or pos neg simplifiedQbflist)
        | None => None
        end
  end.

(** Nesting depth of a formula: a recursion budget for [flatten_collapse]. *)
Fixpoint depth (self : Operator) : nat :=
  match self with
  | And _ _ qbfs | Or _ _ qbfs => S (fold_right Nat.max 0%nat (map depth qbfs))
  end.

(** *** Reading formulas and clauses under an assignment *)

Definition assignment := Z -> bool.

(** An [And] node holds when all its positive variables are true, all its
    negative variables false and all its children hold; an [Or] node when
    one of them is so. *)
Fixpoint holds (A : assignment) (f : Operator) : bool :=
  match f with
  | And pos neg qbfs =>
      forallb A pos && forallb (fun v => negb (A v)) neg
      && forallb (holds A) qbfs
  | Or pos neg qbfs =>
      existsb A pos || existsb (fun v => negb (A v)) neg
      || existsb (holds A) qbfs
  end.

(** A signed integer [l] reads as the variable [l] when positive and as the
    negation of the variable [-l] otherwise. *)
Definition lit_holds (A : assignment) (l : Z) : bool :=
  if 0 <? l then A l else negb (A (- l)).

Definition clause_holds (A : assignment) (c : clause) : bool :=
  existsb (lit_holds A) c.

Definition cnf_holds (A : assignment) (cnf : list clause) : bool :=
  forallb (clause_holds A) cnf.

(** Every variable number written in a literal list of the tree. *)
Fixpoint variables (f : Operator) : list Z :=
  match f with
  | And pos neg qbfs | Or pos neg qbfs => pos ++ neg ++ flat_map variables qbfs
  end.

(** The magnitudes occurring in a clause list. *)
Definition magnitudes (cnf : list clause) : list Z :=
  map Z.abs (concat cnf).

(** [B] extends [A] over the auxiliary variables [lo .. hi-1]: the two
    agree on every other variable. *)
Definition extends_over (lo hi : Z) (A B : assignment) : Prop :=
  forall v, v < lo \/ hi <= v -> B v = A v.

(** [self], compiled from the counter value [nb], gives the clauses [cl]
    and leaves the counter at [nb']. *)
Definition compiles_to (self : Operator) (nb : Z) (cl : list clause) (nb' : Z)
  : Prop :=
  exists fuel, aux_operatorToCnf fuel self nb = Some (cl, nb').

(** Where a literal of the output of a compilation of [f] between the
    counter values [nb] and [nb'] comes from: a variable of [f], or an
    auxiliary variable numbered in [nb .. nb'-1]; either way with a sign. *)
Definition literal_of (f : Operator) (nb nb' : Z) (l : Z) : Prop :=
  (exists v, In v (variables f) /\ (l = v \/ l = - v)) \/
  (exists a, nb <= a < nb' /\ (l = a \/ l = - a)).

(** Two sibling formulas compiled one after the other in one session:
    the first through [operatorToCnf], which seeds the counter, the second
    from the counter value the first one left, as [And.aux_operatorToCnf]
    does for the children of a node. *)
Definition compile_siblings (FA FB : Operator) (nbVars : Z)
  : M (list clause * list clause) :=
  ca <- operatorToCnf FA nbVars ;;
  cb <- aux_operatorToCnf (S (budget FB)) FB ;;
  ret (ca, cb).

Definition satisfiable_formula (f : Operator) : Prop :=
  exists A, holds A f = true.

Definition satisfiable_cnf (cnf : list clause) : Prop :=
  exists A, cnf_holds A cnf = true.

(** *** Notions used in the proofs *)

(** Induction over a formula tree, with the hypothesis available for
    every child. *)
Section OperatorInduction.
Variable P : Operator -> Prop.
Hypothesis HAnd : forall pos neg qbfs, Forall P qbfs -> P (And pos neg qbfs).
Hypothesis HOr : forall pos neg qbfs, Forall P qbfs -> P (Or pos neg qbfs).

Fixpoint Operator_tree_ind (f : Operator) : P f :=
  let fix children (l : list Operator) : Forall P l :=
    match l with
    | [] => Forall_nil P
    | q :: r => Forall_cons q (Operator_tree_ind q) (children r)
    end in
  match f with
  | And pos neg qbfs => HAnd pos neg qbfs (children qbfs)
  | Or pos neg qbfs => HOr pos neg qbfs (children qbfs)
  end.
End OperatorInduction.

(** [chain P] runs a list of children one after the other, each from the
    counter value its predecessor left. *)
Inductive chain (P : Operator -> Z -> list clause -> Z -> Prop)
  : list Operator -> Z -> list clause -> Z -> Prop :=
| chain_nil : forall nb, chain P [] nb [] nb
| chain_cons : forall q qs nb c1 nb1 cr nb2,
    P q nb c1 nb1 -> chain P qs nb1 cr nb2 ->
    chain P (q :: qs) nb (c1 ++ cr) nb2.

(** The counter never goes down, and every literal of the output is a
    signed variable of the formula or a signed auxiliary variable numbered
    between the initial and the final counter value. *)
Definition output_literals (f : Operator) (nb : Z) (cl : list clause) (nb' : Z)
  : Prop :=
  nb <= nb' /\
  forall c l, In c cl -> In l c -> literal_of f nb nb' l.

(** Every assignment satisfying the output satisfies the formula. *)
Definition sound (f : Operator) (nb : Z) (cl : list clause) (nb' : Z) : Prop :=
  1 <= nb -> (forall v, In v (variables f) -> 1 <= v) ->
  forall B, cnf_holds B cl = true -> holds B f = true.

(** The assignment that gives the [j]-th auxiliary variable, numbered
    [nb + i + j], the truth value of the [j]-th child under [A]. *)
Fixpoint with_children_values (A : assignment) (nb : Z) (i : nat)
  (qbfs : list Operator) : assignment :=
  match qbfs with
  | [] => A
  | q :: r =>
      fun v => if v =? nb + Z.of_nat i then holds A q
               else with_children_values A nb (S i) r v
  end.

(** Every assignment satisfying the formula extends, over the auxiliary
    variables allocated, to one satisfying the output. *)
Definition complete (f : Operator) (nb : Z) (cl : list clause) (nb' : Z) : Prop :=
  1 <= nb -> (forall v, In v (variables f) -> 1 <= v < nb) ->
  forall A, holds A f = true ->
  exists B, extends_over nb nb' A B /\ cnf_holds B cl = true.

(** Every auxiliary variable allocated, that is every number from the
    initial counter value up to the final one, is written in the output. *)
Definition allocated_occur (f : Operator) (nb : Z) (cl : list clause) (nb' : Z)
  : Prop :=
  forall a, nb <= a < nb' -> exists c, In c cl /\ In a c.

(** The node of type [ty] with the given literals and children. *)
Definition node (ty : string) (pos neg : list Z) (qbfs : list Operator) : Operator :=
  if String.eqb ty "AND" then And pos neg qbfs else Or pos neg qbfs.

(** *** [Operator.negation] *)

Fixpoint negation (self : Operator) : Operator :=
  match self with
  | And pos neg qbfs =>
      let newQbflist := map negation qbfs in
      Or neg pos newQbflist
  | Or pos neg qbfs =>
      let newQbflist := map negation qbfs in
      And neg pos newQbflist
  end.

(** *** Sizes *)

(** The number of [And] and [Or] nodes of a formula. *)
Fixpoint nodes (f : Operator) : nat :=
  match f with
  | And _ _ qbfs | Or _ _ qbfs => S (list_sum (map nodes qbfs))
  end.

(** Bounds on the number of clauses that a node gives: [clause_bound] as
    it stands, [clause_bound_child] once an implication has been
    distributed into it. *)
Fixpoint clause_bound_child (f : Operator) : nat :=
  match f with
  | And pos neg qbfs =>
      length pos + length neg
      + list_sum (map (fun q => 1 + clause_bound_child q) qbfs)
  | Or _ _ qbfs => 1 + list_sum (map clause_bound_child qbfs)
  end%nat.

Fixpoint clause_bound (f : Operator) : nat :=
  match f with
  | And pos neg qbfs =>
      length pos + length neg + list_sum (map clause_bound qbfs)
  | Or _ _ qbfs => 1 + list_sum (map clause_bound_child qbfs)
  end%nat.

(** Bound on the number of auxiliary variables that a node allocates. *)
Fixpoint aux_bound (f : Operator) : nat :=
  match f with
  | And _ _ qbfs => list_sum (map aux_bound qbfs)
  | Or _ _ qbfs => list_sum (map nodes qbfs)
  end.

(** How many times the number [x] is written in the list [l]. *)
Definition occ (l : list Z) (x : Z) : nat := count_occ Z.eq_dec l x.

(** The numbers written in a positive, respectively negative, literal list
    somewhere in the tree. *)
Fixpoint positives (f : Operator) : list Z :=
  match f with
  | And pos _ qbfs | Or pos _ qbfs => pos ++ flat_map positives qbfs
  end.

Fixpoint negatives (f : Operator) : list Z :=
  match f with
  | And _ neg qbfs | Or _ neg qbfs => neg ++ flat_map negatives qbfs
  end.

(** A literal of the output keeps the side it had in the formula:
    positive-list entries come out as they are, negative-list entries
    multiplied by [-1], and so do the auxiliary variables of the run. *)
Definition keeps_side (f : Operator) (nb : Z) (cl : list clause) (nb' : Z)
  : Prop :=
  forall c l, In c cl -> In l c ->
    (In l (positives f) \/ nb <= l < nb') \/
    (exists v, (In v (negatives f) \/ nb <= v < nb') /\ l = v * -1).

(** Every entry of a positive literal list is written as it is in some
    clause, and every entry of a negative literal list multiplied by [-1]. *)
Definition copied (f : Operator) (cl : list clause) : Prop :=
  (forall v, In v (positives f) -> exists c, In c cl /\ In v c) /\
  (forall v, In v (negatives f) -> exists c, In c cl /\ In (v * -1) c).

(** Formulas already in clause form: conjunctions, nested at will, of
    disjunctions of literals. *)
Fixpoint clause_form (f : Operator) : bool :=
  match f with
  | And _ _ qbfs => forallb clause_form qbfs
  | Or _ _ qbfs => match qbfs with [] => true | _ :: _ => false end
  end.

End Formulas.

Import Formulas.

(* ===================================================================== *)
(** ** da4py/main/conformanceArtefacts.py *)
(* ===================================================================== *)

Module ConformanceArtefacts.

Definition WAIT_TRANSITION : string := "w".
Definition BOOLEAN_VAR_EDIT_DISTANCE : string := "djiid".
Definition WEIGHT_ON_CLAUSES_TO_REDUCE : Z := -10.
Definition HAMMING_DISTANCE : string := "hamming".
Definition EDIT_DISTANCE : string := "edit".
Definition MULTI_ALIGNMENT : string := "multi".
Definition ANTI_ALIGNMENT : string := "anti".
Definition EXACT_ALIGNMENT : string := "exact".

(** *** The weighted clause set

    pysat's [WCNF]: hard clauses, and soft clauses with their weights.
    [append(clause, weight)] files a clause given with a non-zero weight as
    soft; [extend] adds hard clauses. *)
Record WCNF : Type := mkWCNF {
  hard : list clause;
  soft : list clause;
  wght : list Z
}.

Definition WCNF_new : WCNF := mkWCNF [] [] [].

Definition extend (w : WCNF) (cnf : list clause) : WCNF :=
  mkWCNF (hard w ++ cnf) (soft w) (wght w).

Definition append (w : WCNF) (c : clause) (weight : Z) : WCNF :=
  if weight =? 0 then mkWCNF (hard w ++ [c]) (soft w) (wght w)
  else mkWCNF (hard w) (soft w ++ [c]) (wght w ++ [weight]).

(** The soft clauses of a [WCNF], each with its weight. *)
Definition soft_entries (w : WCNF) : list (clause * Z) :=
  combine (soft w) (wght w).

(** The variable numbering service [src.main.variablesGenerator], whose
    code is not part of the sources at hand: its counter [iterator] and its
    lookup [getVarNumber(name, indexes)] are taken as they come. *)
Record VariablesGenerator : Type := mkVariablesGenerator {
  iterator : Z;
  getVarNumber : string -> list Z -> Z
}.

(** *** Petri nets (pm4py's [PetriNet])

    Arcs name their two ends; places and transitions carry their own sets
    of incoming and outgoing arcs.  The sets of pm4py hold objects compared
    by identity, so adding a newly built object always adds an element:
    they are lists here, in iteration order. *)
Inductive node : Type :=
| PlaceNode (name : string)
| TransitionNode (name : string).

Record Arc : Type := mkArc { source : node; target : node }.

Record Place : Type := mkPlace {
  p_name : string;
  p_in_arcs : list Arc;
  p_out_arcs : list Arc
}.

Record Transition : Type := mkTransition {
  t_name : string;
  t_label : string;
  t_in_arcs : list Arc;
  t_out_arcs : list Arc
}.

Record PetriNet : Type := mkPetriNet {
  places : list Place;
  transitions : list Transition;
  arcs : list Arc
}.

(** Nets live in a store and are passed by reference. *)
Definition ref := nat.
Definition store := ref -> PetriNet.

Definition store_set (h : store) (r : ref) (n : PetriNet) : store :=
  fun r' => if Nat.eqb r' r then n else h r'.

(** The attributes of a [ConformanceArtefacts] object.  [__init__] sets
    the first four; [net] is [None] as long as no method has assigned
    [self.__net].  [variables] and [traces] are assigned by
    [__artefactsInitialisation] before [__createWncf] reads them. *)
Record ConformanceArtefacts : Type := mkConformanceArtefacts {
  size_of_run : Z;
  max_d : Z;
  distance_type : string;
  solver : string;
  net : option ref;
  variables : VariablesGenerator;
  traces : list (list string)
}.

Definition init (size_of_run : Z) (max_d : Z) (distance : string) (solver : string)
  (variables : VariablesGenerator) (traces : list (list string))
  : ConformanceArtefacts :=
  mkConformanceArtefacts size_of_run max_d distance solver None variables traces.

Definition set_net (self : ConformanceArtefacts) (r : ref) : ConformanceArtefacts :=
  mkConformanceArtefacts (size_of_run self) (max_d self) (distance_type self)
    (solver self) (Some r) (variables self) (traces self).

(** [for i in range(lo, hi): body] over a state [S]. *)
Definition for_range {S : Type} (lo hi : Z) (body : Z -> S -> S) (s : S) : S :=
  fold_left (fun s i => body i s) (range lo hi) s.

(** The local [weightsOnVariables] of [__createWncf]:
    [-1 if artefactForMinimization != ANTI_ALIGNMENT else 1]. *)
Definition weightsOnVariables (artefactForMinimization : string) : Z :=
  if negb (String.eqb artefactForMinimization ANTI_ALIGNMENT) then -1 else 1.

(** The index pairs that the two nested loops of [__createWncf] go
    through, in order: [j] in [range(0, n)], then [d] in [range(1, m + 1)]. *)
Definition index_pairs (n m : Z) : list (Z * Z) :=
  flat_map (fun j => map (fun d => (j, d)) (range 1 (m + 1))) (range 0 n).

(** [__createWncf]. *)
Definition createWncf (self : ConformanceArtefacts)
  (initialisationFormulas distanceFormula : list Operator)
  (artefactForMinimization : string) : M WCNF :=
  let formulas := initialisationFormulas ++ distanceFormula in
  let full_formula := And [] [] formulas in
  cnf <- operatorToCnf full_formula (iterator (variables self)) ;;
  let wcnf := extend WCNF_new cnf in
  let weightsOnVariables := weightsOnVariables artefactForMinimization in
  if String.eqb (distance_type self) EDIT_DISTANCE then
    ret (for_range 0 (len (traces self)) (fun j =>
           for_range 1 (max_d self + 1) (fun d wcnf =>
             append wcnf
               [weightsOnVariables *
                getVarNumber (variables self) BOOLEAN_VAR_EDIT_DISTANCE
                  [j; size_of_run self; size_of_run self; d]]
               WEIGHT_ON_CLAUSES_TO_REDUCE)) wcnf)
  else if String.eqb (distance_type self) HAMMING_DISTANCE then
    ret (for_range 0 (len (traces self)) (fun j =>
           for_range 1 (size_of_run self + 1) (fun i wcnf =>
             append wcnf
               [weightsOnVariables *
                getVarNumber (variables self) BOOLEAN_VAR_EDIT_DISTANCE [j; i]]
               WEIGHT_ON_CLAUSES_TO_REDUCE)) wcnf)
  else ret wcnf.

(** *** The wait transition *)

(** What a method call comes to: a value, or the [AttributeError] raised
    by reading an attribute that was never assigned. *)
Inductive outcome (A : Type) : Type :=
| Returned (a : A)
| AttributeError (attribute : string).
Arguments Returned {A} a.
Arguments AttributeError {A} attribute.

(** One turn of the loop of [__add_wait_net]; the accumulator holds the
    places seen so far, [net.arcs] and the wait transition. *)
Definition wait_loop_body (acc : list Place * list Arc * Transition) (place : Place)
  : list Place * list Arc * Transition :=
  let '(seen, net_arcs, wait_transition) := acc in
  if len (p_out_arcs place) =? 0 then
    let arcIn := mkArc (PlaceNode (p_name place))
                       (TransitionNode (t_name wait_transition)) in
    let arcOut := mkArc (TransitionNode (t_name wait_transition))
                        (PlaceNode (p_name place)) in
    (seen ++ [mkPlace (p_name place) (p_in_arcs place ++ [arcOut])
                      (p_out_arcs place ++ [arcIn])],
     net_arcs ++ [arcIn; arcOut],
     mkTransition (t_name wait_transition) (t_label wait_transition)
       (t_in_arcs wait_transition ++ [arcIn])
       (t_out_arcs wait_transition ++ [arcOut]))
  else (seen ++ [place], net_arcs, wait_transition).

(** The effect of [__add_wait_net] on the net it works on. *)
Definition add_wait_to (n : PetriNet) : Transition * PetriNet :=
  let wait_transition := mkTransition WAIT_TRANSITION WAIT_TRANSITION [] [] in
  let '(places', arcs', wait_transition') :=
    fold_left wait_loop_body (places n) ([], arcs n, wait_transition) in
  (wait_transition',
   mkPetriNet places' (transitions n ++ [wait_transition']) arcs').

(** [__add_wait_net]: works on the net that [self.__net] refers to. *)
Definition add_wait_net (self : ConformanceArtefacts) (h : store)
  : outcome (Transition * store) :=
  match net self with
  | None => AttributeError "_ConformanceArtefacts__net"
  | Some r =>
      let '(wait_transition, n') := add_wait_to (h r) in
      Returned (wait_transition, store_set h r n')
  end.

(** The three public methods, followed up to the return of
    [__add_wait_net] inside [__artefactsInitialisation]: the statements
    that decide which net is written to.  [net] is the reference the
    caller passes.  What follows in each method (translation to formulas,
    solving) is code of other modules. *)
Definition multiAlignment (self : ConformanceArtefacts) (h : store) (net : ref)
  : outcome (ConformanceArtefacts * Transition * store) :=
  let self := set_net self net in
  match add_wait_net self h with
  | Returned (wait_transition, h') => Returned (self, wait_transition, h')
  | AttributeError a => AttributeError a
  end.

Definition antiAlignment (self : ConformanceArtefacts) (h : store) (net : ref)
  : outcome (ConformanceArtefacts * Transition * store) :=
  let self := set_net self net in
  match add_wait_net self h with
  | Returned (wait_transition, h') => Returned (self, wait_transition, h')
  | AttributeError a => AttributeError a
  end.

Definition exactAlignment (self : ConformanceArtefacts) (h : store) (net : ref)
  : outcome (ConformanceArtefacts * Transition * store) :=
  match add_wait_net self h with
  | Returned (wait_transition, h') => Returned (self, wait_transition, h')
  | AttributeError a => AttributeError a
  end.

(** *** Two small nets and a store holding them *)

Definition arc_source_t : Arc := mkArc (PlaceNode "source") (TransitionNode "t").
Definition arc_t_sink : Arc := mkArc (TransitionNode "t") (PlaceNode "sink").

(** source -> t -> sink: the place [sink] has no outgoing arc. *)
Definition net_a : PetriNet :=
  mkPetriNet
    [mkPlace "source" [] [arc_source_t]; mkPlace "sink" [arc_t_sink] []]
    [mkTransition "t" "a" [arc_source_t] [arc_t_sink]]
    [arc_source_t; arc_t_sink].

(** A single place [p], without arcs. *)
Definition net_b : PetriNet := mkPetriNet [mkPlace "p" [] []] [] [].

Definition two_nets : store :=
  fun r => if Nat.eqb r 0 then net_a else net_b.

(** *** Notions used to describe the weighted clauses and the wait loops *)

(** The index pairs that [__createWncf] weighs, by distance. *)
Definition distance_pairs (self : ConformanceArtefacts) : list (Z * Z) :=
  if String.eqb (distance_type self) EDIT_DISTANCE
  then index_pairs (len (traces self)) (max_d self)
  else if String.eqb (distance_type self) HAMMING_DISTANCE
       then index_pairs (len (traces self)) (size_of_run self)
       else [].

(** The literal that [__createWncf] weighs for an index pair. *)
Definition distance_literal (self : ConformanceArtefacts) (artefact : string)
  (jd : Z * Z) : Z :=
  weightsOnVariables artefact *
  getVarNumber (variables self) BOOLEAN_VAR_EDIT_DISTANCE
    (if String.eqb (distance_type self) EDIT_DISTANCE
     then [fst jd; size_of_run self; size_of_run self; snd jd]
     else [fst jd; snd jd]).

(** A place that no arc leaves. *)
Definition dead_end (place : Place) : bool := len (p_out_arcs place) =? 0.

(** The two arcs of the loop between a place and the wait transition. *)
Definition loop_in (place : Place) : Arc :=
  mkArc (PlaceNode (p_name place)) (TransitionNode WAIT_TRANSITION).

Definition loop_out (place : Place) : Arc :=
  mkArc (TransitionNode WAIT_TRANSITION) (PlaceNode (p_name place)).

(** A place after [__add_wait_net]: a dead end has received its loop. *)
Definition with_wait_loop (place : Place) : Place :=
  if dead_end place
  then mkPlace (p_name place) (p_in_arcs place ++ [loop_out place])
               (p_out_arcs place ++ [loop_in place])
  else place.

End ConformanceArtefacts.

(* ===================================================================== *)
(** ** src/main/formulas.py: literal lists as objects *)
(* ===================================================================== *)

(** [simplify] and [Or.distributeImplication] change literal lists in place
    ([+=] on a list, [append]).  Here a node refers to its two literal lists
    through references, and [lists] gives every list object its content, so
    that an update of a list shows in every node that refers to it. *)
Module Objects.

Definition ref := nat.
Definition lists := ref -> list Z.

(** The list object [r] now holds [l]. *)
Definition write (s : lists) (r : ref) (l : list Z) : lists :=
  fun r' => if Nat.eqb r' r then l else s r'.

(** A formula object: its class, the two list objects its literal
    attributes refer to, and its children. *)
Inductive Node : Type :=
| AndNode (positiveVariables negativeVariables : ref) (qbf_formulas : list Node)
| OrNode (positiveVariables negativeVariables : ref) (qbf_formulas : list Node).

Definition type (self : Node) : string :=
  match self with
  | AndNode _ _ _ => "AND"%string
  | OrNode _ _ _ => "OR"%string
  end.

Definition positiveVariables (self : Node) : ref :=
  match self with AndNode p _ _ | OrNode p _ _ => p end.

Definition negativeVariables (self : Node) : ref :=
  match self with AndNode _ n _ | OrNode _ n _ => n end.

Definition qbf_formulas (self : Node) : list Node :=
  match self with AndNode _ _ q | OrNode _ _ q => q end.

(** The formula that a node stands for when the list objects hold [s]. *)
Fixpoint value (s : lists) (self : Node) : Operator :=
  match self with
  | AndNode pos neg qbfs => And (s pos) (s neg) (map (value s) qbfs)
  | OrNode pos neg qbfs => Or (s pos) (s neg) (map (value s) qbfs)
  end.

(** The list objects that the nodes of a tree refer to, node by node. *)
Fixpoint list_refs (self : Node) : list ref :=
  match self with
  | AndNode pos neg qbfs | OrNode pos neg qbfs =>
      pos :: neg :: flat_map list_refs qbfs
  end.

Fixpoint depth (self : Node) : nat :=
  match self with
  | AndNode _ _ qbfs | OrNode _ _ qbfs =>
      S (fold_right Nat.max 0%nat (map depth qbfs))
  end.

(** *** [Operator.simplify] *)

(** The first loop of [simplify] (lines 75-81).  For a child of the type
    of [self], the list object [self.negativeVariables] is extended in
    place by the content of the child's, then [self.positiveVariables]
    likewise, and the child's children join [newQbflist]; any other child
    joins [newQbflist] itself. *)
Fixpoint merge_loop (ty : string) (pos neg : ref) (qbfs : list Node)
  (s : lists) (newQbflist : list Node) : lists * list Node :=
  match qbfs with
  | [] => (s, newQbflist)
  | qbf :: rest =>
      if String.eqb (type qbf) ty then
        let s := write s neg (s neg ++ s (negativeVariables qbf)) in
        let s := write s pos (s pos ++ s (positiveVariables qbf)) in
        merge_loop ty pos neg rest s (newQbflist ++ qbf_formulas qbf)
      else merge_loop ty pos neg rest s (newQbflist ++ [qbf])
  end.

(** The second loop (lines 82-85):
    [simplifiedQbflist.append(qbf.simplify())], each call working on the
    list objects as the one before left them. *)
Fixpoint simplify_each (rec : Node -> lists -> option (Node * lists))
  (l : list Node) (s : lists) : option (list Node * lists) :=
  match l with
  | [] => Some ([], s)
  | qbf :: rest =>
      match rec qbf s with
      | Some (formula, s) =>
          match simplify_each rec rest s with
          | Some (simplifiedQbflist, s) => Some (formula :: simplifiedQbflist, s)
          | None => None
          end
      | None => None
      end
  end.

(** [simplify]: the node returned and the list objects afterwards; [None]
    only when the recursion budget ran out.  The node built in the last
    lines refers to the list objects of [self].  The last two tests of the
    source are [type == "AND"] and [type == "OR"]; a node built by [And] or
    [Or] passes one of them. *)
Fixpoint simplify (fuel : nat) (self : Node) (s : lists) {struct fuel}
  : option (Node * lists) :=
  match fuel with
  | O => None
  | S fuel =>
      if len (qbf_formulas self) =? 0 then Some (self, s)
      else if (len (qbf_formulas self) =? 1)
              && (len (s (positiveVariables self)) =? 0)
              && (len (s (negativeVariables self)) =? 0)
      then simplify fuel (hd self (qbf_formulas self)) s
      else
        let '(s, newQbflist) :=
          merge_loop (type self) (positiveVariables self) (negativeVariables self)
                     (qbf_formulas self) s [] in
        match simplify_each (simplify fuel) newQbflist s with
        | Some (simplifiedQbflist, s) =>
            if String.eqb (type self) "AND"
            then Some (AndNode (positiveVariables self) (negativeVariables self)
                               simplifiedQbflist, s)
            else Some (OrNode (positiveVariables self) (negativeVariables self)
                              simplifiedQbflist, s)
        | None => None
        end
  end.

(** *** [distributeImplication] *)

(** The state of the list objects: their contents and the first reference
    not yet in use. *)
Definition heap : Type := lists * ref.

(** [Or(pos, neg, qbfs)] with [pos] and [neg] written as list displays:
    two new list objects. *)
Definition new_Or (pos neg : list Z) (qbfs : list Node) (h : heap)
  : Node * heap :=
  let '(s, free) := h in
  (OrNode free (S free) qbfs,
   (write (write s free pos) (S free) neg, S (S free))).

(** [[e(x) for x in l]], where [e] builds a node. *)
Fixpoint comprehension {X : Type} (e : X -> heap -> Node * heap) (l : list X)
  (h : heap) : list Node * heap :=
  match l with
  | [] => ([], h)
  | x :: rest =>
      let '(n, h) := e x h in
      let '(ns, h) := comprehension e rest h in
      (n :: ns, h)
  end.

(** [And.distributeImplication] (lines 151-157) rebinds the three
    attributes of [self] to new lists; [Or.distributeImplication] (lines
    186-187) appends [var] to the list object [self.negativeVariables].
    The result is [self] after the call. *)
Definition distributeImplication (self : Node) (var : Z) (h : heap)
  : Node * heap :=
  match self with
  | AndNode pos neg qbfs =>
      let '(t1, h) :=
        comprehension (fun positiveVariable => new_Or [positiveVariable] [var] [])
                      (fst h pos) h in
      let '(t2, h) :=
        comprehension (fun negativeVariable => new_Or [] [negativeVariable; var] [])
                      (fst h neg) h in
      let '(t3, h) :=
        comprehension (fun formula => new_Or [] [var] [formula]) qbfs h in
      let temp := t1 ++ t2 ++ t3 in
      let '(s, free) := h in
      (AndNode free (S free) temp,
       (write (write s free []) (S free) [], S (S free)))
  | OrNode pos neg qbfs =>
      let '(s, free) := h in
      (self, (write s neg (s neg ++ [var]), free))
  end.

(** Induction over a tree of nodes, with the hypothesis available for
    every child. *)
Section NodeInduction.
Variable P : Node -> Prop.
Hypothesis HAnd : forall pos neg qbfs, Forall P qbfs -> P (AndNode pos neg qbfs).
Hypothesis HOr : forall pos neg qbfs, Forall P qbfs -> P (OrNode pos neg qbfs).

Fixpoint Node_tree_ind (f : Node) : P f :=
  let fix children (l : list Node) : Forall P l :=
    match l with
    | [] => Forall_nil P
    | q :: r => Forall_cons q (Node_tree_ind q) (children r)
    end in
  match f with
  | AndNode pos neg qbfs => HAnd pos neg qbfs (children qbfs)
  | OrNode pos neg qbfs => HOr pos neg qbfs (children qbfs)
  end.
End NodeInduction.

(** One list object [p], empty, as both literal lists of
    [And(p, p, [And([1],[],[]), And([],[2],[])])]. *)
Definition shared_lists : lists :=
  fun r => match r with
           | 1%nat => [1]
           | 4%nat => [2]
           | _ => []
           end.

Definition shared_node : Node :=
  AndNode 0%nat 0%nat [AndNode 1%nat 2%nat []; AndNode 3%nat 4%nat []].

(** [Or([1], [2], [Or([3], [], [And([4],[5],[])]), And([], [], [Or([6],[],[])])])],
    every literal list an object of its own. *)
Definition unshared_lists : lists :=
  fun r => match r with
           | 0%nat => [1]
           | 1%nat => [2]
           | 2%nat => [3]
           | 4%nat => [4]
           | 5%nat => [5]
           | 8%nat => [6]
           | _ => []
           end.

Definition unshared_node : Node :=
  OrNode 0%nat 1%nat
    [OrNode 2%nat 3%nat [AndNode 4%nat 5%nat []];
     AndNode 6%nat 7%nat [OrNode 8%nat 9%nat []]].

End Objects.

(* ===================================================================== *)
(** ** src/main/formulas.py: the three classes, [None] and exceptions *)
(* ===================================================================== *)

(** The compiler once more, on instances of the three classes and with
    what Python does when a call does not return a clause list.  The class
    [Operator] can be instantiated, with any string as its tag, and its
    [aux_operatorToCnf] (lines 114-120) has the body [pass]: it returns
    [None]. *)
Module Classes.

(** [Operator(type, positiveVariables, negativeVariables, qbf_formulas)],
    [And(...)] and [Or(...)]. *)
Inductive instance : Type :=
| OperatorInstance (type : string) (positiveVariables negativeVariables : list Z)
    (qbf_formulas : list instance)
| AndInstance (positiveVariables negativeVariables : list Z)
    (qbf_formulas : list instance)
| OrInstance (positiveVariables negativeVariables : list Z)
    (qbf_formulas : list instance).

Definition type (self : instance) : string :=
  match self with
  | OperatorInstance type _ _ _ => type
  | AndInstance _ _ _ => "AND"%string
  | OrInstance _ _ _ => "OR"%string
  end.

Definition positiveVariables (self : instance) : list Z :=
  match self with
  | OperatorInstance _ p _ _ | AndInstance p _ _ | OrInstance p _ _ => p
  end.

Definition negativeVariables (self : instance) : list Z :=
  match self with
  | OperatorInstance _ _ n _ | AndInstance _ n _ | OrInstance _ n _ => n
  end.

Definition qbf_formulas (self : instance) : list instance :=
  match self with
  | OperatorInstance _ _ _ q | AndInstance _ _ q | OrInstance _ _ q => q
  end.

(** The exceptions that the compiler can run into. *)
Inductive exception : Type := TypeError | AttributeError.

(** What a call gives: a value and [NB_VARS] afterwards, or an exception;
    [OutOfBudget] only when the recursion budget of the model ran out. *)
Inductive result (A : Type) : Type :=
| Returns (a : A) (NB_VARS : Z)
| Raises (e : exception)
| OutOfBudget.

Arguments Returns {A} a NB_VARS.
Arguments Raises {A} e.
Arguments OutOfBudget {A}.

(** What [aux_operatorToCnf] returns: a list of clauses, or [None]. *)
Inductive returned : Type :=
| Clauses (cnf : list clause)
| PyNone.

(** Rebinding the three attributes of an instance leaves its class and
    its tag alone. *)
Definition rebind (self : instance) (pos neg : list Z) (qbfs : list instance)
  : instance :=
  match self with
  | OperatorInstance type _ _ _ => OperatorInstance type pos neg qbfs
  | AndInstance _ _ _ => AndInstance pos neg qbfs
  | OrInstance _ _ _ => OrInstance pos neg qbfs
  end.

(** The body of the loop of [Or.aux_operatorToCnf] (lines 202-215): it
    reads the tag of the child, not its class. *)
Definition distribute_child (qbf : instance) (var : Z) : instance :=
  if String.eqb (type qbf) "OR" then
    rebind qbf (positiveVariables qbf) (negativeVariables qbf ++ [var])
           (qbf_formulas qbf)
  else
    let newListOfFormulas :=
      map (fun positiveVariable => OrInstance [positiveVariable] [var] [])
          (positiveVariables qbf) ++
      map (fun negativeVariable => OrInstance [] [negativeVariable; var] [])
          (negativeVariables qbf) ++
      map (fun formula => OrInstance [] [var] [formula]) (qbf_formulas qbf) in
    rebind qbf [] [] newListOfFormulas.

(** [left = []; for formula in l: cnf = formula.aux_operatorToCnf();
    left += cnf] (lines 166-169): [left += None] raises [TypeError]. *)
Fixpoint concat_cnf (rec : instance -> Z -> result returned) (l : list instance)
  (nb : Z) : result (list clause) :=
  match l with
  | [] => Returns [] nb
  | formula :: rest =>
      match rec formula nb with
      | Returns (Clauses cnf) nb =>
          match concat_cnf rec rest nb with
          | Returns left' nb => Returns (cnf ++ left') nb
          | Raises e => Raises e
          | OutOfBudget => OutOfBudget
          end
      | Returns PyNone _ => Raises TypeError
      | Raises e => Raises e
      | OutOfBudget => OutOfBudget
      end
  end.

(** The test of lines 190-191.  [getpositiveVariables] and
    [getnegativeVariables] are methods of the class [Or] only: on a child
    tagged ["OR"] of another class the test raises [AttributeError]. *)
Inductive tested : Type :=
| TestTrue (inner : list instance)
| TestFalse
| TestRaises (e : exception).

Definition single_bare_or (qbfs : list instance) : tested :=
  match qbfs with
  | [q] =>
      if String.eqb (type q) "OR" then
        match q with
        | OrInstance pos neg inner =>
            if (len pos =? 0) && (len neg =? 0) then TestTrue inner else TestFalse
        | _ => TestRaises AttributeError
        end
      else TestFalse
  | _ => TestFalse
  end.

(** [aux_operatorToCnf] of the three classes.  In line 221,
    [clauses.append(dnf)] on [None] would raise [AttributeError]. *)
Fixpoint aux_operatorToCnf (fuel : nat) (self : instance) (nb : Z) {struct fuel}
  : result returned :=
  match fuel with
  | O => OutOfBudget
  | S fuel =>
      match self with
      | OperatorInstance _ _ _ _ => Returns PyNone nb
      | AndInstance pos neg qbfs =>
          let dnfPositiveVariables := map (fun v => [v]) pos in
          let dnfNegativeVariables := map (fun v => [v * -1]) neg in
          match concat_cnf (aux_operatorToCnf fuel) qbfs nb with
          | Returns left' nb =>
              Returns (Clauses (dnfPositiveVariables ++ dnfNegativeVariables ++ left')) nb
          | Raises e => Raises e
          | OutOfBudget => OutOfBudget
          end
      | OrInstance pos neg qbfs =>
          match single_bare_or qbfs with
          | TestRaises e => Raises e
          | TestTrue inner => aux_operatorToCnf fuel (OrInstance pos neg inner) nb
          | TestFalse =>
              let newVariables := range nb (nb + len qbfs) in
              let dnf := pos ++ newVariables ++ map (fun v => v * -1) neg in
              let qbfs' :=
                mapi (fun i q => distribute_child q (nb + Z.of_nat i)) qbfs in
              if len qbfs =? 0 then Returns (Clauses [dnf]) (nb + len qbfs)
              else
                match aux_operatorToCnf fuel (AndInstance [] [] qbfs')
                                        (nb + len qbfs) with
                | Returns (Clauses clauses) nb => Returns (Clauses (clauses ++ [dnf])) nb
                | Returns PyNone _ => Raises AttributeError
                | Raises e => Raises e
                | OutOfBudget => OutOfBudget
                end
          end
      end
  end.

(** The formula that an instance is treated as when an implication is
    distributed into it; it gives the recursion budget. *)
Fixpoint erase (self : instance) : Operator :=
  match self with
  | OperatorInstance type pos neg qbfs =>
      if String.eqb type "OR" then Or pos neg (map erase qbfs)
      else And pos neg (map erase qbfs)
  | AndInstance pos neg qbfs => And pos neg (map erase qbfs)
  | OrInstance pos neg qbfs => Or pos neg (map erase qbfs)
  end.

(** [Operator.operatorToCnf(nbVars)] (lines 104-112), inherited by the
    three classes. *)
Definition operatorToCnf (self : instance) (nbVars : Z) (NB_VARS : Z)
  : result returned :=
  aux_operatorToCnf (S (budget (erase self))) self nbVars.

(** The instances of [And] and [Or] that a formula is built from. *)
Fixpoint instance_of (f : Operator) : instance :=
  match f with
  | And pos neg qbfs => AndInstance pos neg (map instance_of qbfs)
  | Or pos neg qbfs => OrInstance pos neg (map instance_of qbfs)
  end.

(** An instance of the class [Operator] itself is the root, or a child of
    an [And] or [Or] instance, or a child of such a child, and so on. *)
Fixpoint has_base_instance (self : instance) : bool :=
  match self with
  | OperatorInstance _ _ _ _ => true
  | AndInstance _ _ qbfs | OrInstance _ _ qbfs => existsb has_base_instance qbfs
  end.

(** What the compiler does with an instance: [None] for an instance of
    [Operator] itself, an exception when such an instance lies below, a
    clause list otherwise. *)
Definition outcome (self : instance) (nb : Z) (r : result returned) : Prop :=
  match self with
  | OperatorInstance _ _ _ _ => r = Returns PyNone nb
  | _ =>
      if has_base_instance self then exists e, r = Raises e
      else exists cl nb', r = Returns (Clauses cl) nb'
  end.

(** The result of the compiler of [Formulas], as a result here. *)
Definition lift (r : option (list clause * Z)) : result returned :=
  match r with
  | Some (cl, nb) => Returns (Clauses cl) nb
  | None => OutOfBudget
  end.

Section InstanceInduction.
Variable P : instance -> Prop.
Hypothesis HOperator : forall type pos neg qbfs,
  Forall P qbfs -> P (OperatorInstance type pos neg qbfs).
Hypothesis HAnd : forall pos neg qbfs, Forall P qbfs -> P (AndInstance pos neg qbfs).
Hypothesis HOr : forall pos neg qbfs, Forall P qbfs -> P (OrInstance pos neg qbfs).

Fixpoint instance_tree_ind (f : instance) : P f :=
  let fix children (l : list instance) : Forall P l :=
    match l with
    | [] => Forall_nil P
    | q :: r => Forall_cons q (instance_tree_ind q) (children r)
    end in
  match f with
  | OperatorInstance type pos neg qbfs => HOperator type pos neg qbfs (children qbfs)
  | AndInstance pos neg qbfs => HAnd pos neg qbfs (children qbfs)
  | OrInstance pos neg qbfs => HOr pos neg qbfs (children qbfs)
  end.
End InstanceInduction.

End Classes.

(* ===================================================================== *)
(** ** Facts about formulas and their compilation *)
(* ===================================================================== *)

Module FormulasFacts.


(** *** Unfolding equations *)

Lemma aux_And_eq fuel pos neg qbfs :
  aux_operatorToCnf (S fuel) (And pos neg qbfs) =
  (left <- concat_cnf (aux_operatorToCnf fuel) qbfs ;;
   ret (map (fun v => [v]) pos ++ map (fun v => [v * -1]) neg ++ left)).
Proof. reflexivity. Qed.

Lemma aux_Or_eq fuel pos neg qbfs :
  aux_operatorToCnf (S fuel) (Or pos neg qbfs) =
  match single_bare_or qbfs with
  | Some inner => aux_operatorToCnf fuel (Or pos neg inner)
  | None =>
      NB_VARS <- get_NB_VARS ;;
      set_NB_VARS (NB_VARS + len qbfs) ;;;
      if len qbfs =? 0
      then ret [pos ++ range NB_VARS (NB_VARS + len qbfs) ++ map (fun v => v * -1) neg]
      else
        clauses <- aux_operatorToCnf fuel
          (And [] [] (mapi (fun i q => distribute_child q (NB_VARS + Z.of_nat i)) qbfs)) ;;
        ret (clauses ++
             [pos ++ range NB_VARS (NB_VARS + len qbfs) ++ map (fun v => v * -1) neg])
  end.
Proof. reflexivity. Qed.

Lemma single_bare_or_inv qbfs inner :
  single_bare_or qbfs = Some inner -> qbfs = [Or [] [] inner].
Proof.
  destruct qbfs as [|q [|q' r]]; simpl; try discriminate.
  destruct q as [p n qs|p n qs]; simpl; try discriminate.
  destruct p; simpl; try discriminate.
  destruct n; simpl; try discriminate.
  intros H; inversion H; reflexivity.
Qed.

Lemma len_zero_nil {A : Type} (l : list A) : len l = 0 -> l = [].
Proof. destruct l; [reflexivity|]. unfold len; simpl; lia. Qed.

Lemma len_one {A : Type} (l : list A) : len l = 1 -> exists x, l = [x].
Proof.
  destruct l as [|x [|y r]]; unfold len; simpl length; intros H; try lia. eauto.
Qed.

Lemma len_cons {A : Type} (x : A) (l : list A) : len (x :: l) = 1 + len l.
Proof. unfold len. simpl length. lia. Qed.

Lemma len_nonneg {A : Type} (l : list A) : 0 <= len l.
Proof. unfold len; lia. Qed.

(** The loop body of the compiler rewrites a child into [distributed]. *)
Lemma distribute_child_distributed q var :
  distribute_child q var = distributed q var.
Proof. destruct q; reflexivity. Qed.


Lemma concat_cnf_chain (P : Operator -> Z -> list clause -> Z -> Prop) rec :
  (forall q nb cl nb', rec q nb = Some (cl, nb') -> P q nb cl nb') ->
  forall qs nb cl nb',
    concat_cnf rec qs nb = Some (cl, nb') -> chain P qs nb cl nb'.
Proof.
  intros Hrec qs; induction qs as [|q qs IH]; intros nb cl nb' H.
  - simpl in H. unfold ret in H. inversion H; subst. constructor.
  - simpl in H. unfold bind in H.
    destruct (rec q nb) as [[c1 nb1]|] eqn:E1; [|discriminate].
    destruct (concat_cnf rec qs nb1) as [[cr nb2]|] eqn:E2; [|discriminate].
    unfold ret in H. inversion H; subst.
    econstructor; eauto.
Qed.

(** Induction following the calls of [aux_operatorToCnf]: the property
    may be assumed, together with the fact that they are results of the
    compiler, of the results of the calls made. *)
Section CompilerInduction.
Variable P : Operator -> Z -> list clause -> Z -> Prop.

Hypothesis P_and : forall pos neg qbfs nb left nb',
  chain (fun q nb cl nb' => compiles_to q nb cl nb' /\ P q nb cl nb')
        qbfs nb left nb' ->
  P (And pos neg qbfs) nb
    (map (fun v => [v]) pos ++ map (fun v => [v * -1]) neg ++ left) nb'.

Hypothesis P_unwrap : forall pos neg inner nb cl nb',
  compiles_to (Or pos neg inner) nb cl nb' /\ P (Or pos neg inner) nb cl nb' ->
  P (Or pos neg [Or [] [] inner]) nb cl nb'.

Hypothesis P_or_leaf : forall pos neg nb,
  P (Or pos neg []) nb [pos ++ [] ++ map (fun v => v * -1) neg] nb.

Hypothesis P_or : forall pos neg qbfs nb cl nb',
  single_bare_or qbfs = None -> qbfs <> [] ->
  compiles_to
    (And [] [] (mapi (fun i q => distribute_child q (nb + Z.of_nat i)) qbfs))
    (nb + len qbfs) cl nb' /\
  P (And [] [] (mapi (fun i q => distribute_child q (nb + Z.of_nat i)) qbfs))
    (nb + len qbfs) cl nb' ->
  P (Or pos neg qbfs) nb
    (cl ++ [pos ++ range nb (nb + len qbfs) ++ map (fun v => v * -1) neg]) nb'.

Lemma aux_operatorToCnf_ind : forall fuel self nb cl nb',
  aux_operatorToCnf fuel self nb = Some (cl, nb') -> P self nb cl nb'.
Proof.
  induction fuel as [|fuel IH]; intros self nb cl nb' H; [discriminate|].
  assert (IHQ : forall q nb cl nb',
             aux_operatorToCnf fuel q nb = Some (cl, nb') ->
             compiles_to q nb cl nb' /\ P q nb cl nb').
  { intros q nb0 cl0 nb0' E. split; [exists fuel; exact E|eauto]. }
  destruct self as [pos neg qbfs|pos neg qbfs].
  - rewrite aux_And_eq in H. unfold bind in H.
    destruct (concat_cnf (aux_operatorToCnf fuel) qbfs nb) as [[left nb1]|] eqn:E;
      [|discriminate].
    unfold ret in H. inversion H; subst.
    apply P_and. eapply concat_cnf_chain; eauto.
  - rewrite aux_Or_eq in H.
    destruct (single_bare_or qbfs) as [inner|] eqn:E.
    + apply single_bare_or_inv in E. subst qbfs. apply P_unwrap. eauto.
    + unfold bind, get_NB_VARS, set_NB_VARS in H.
      destruct (len qbfs =? 0) eqn:K.
      * apply Z.eqb_eq in K. apply len_zero_nil in K. subst qbfs.
        unfold ret in H. inversion H; subst.
        replace (nb + len (@nil Operator)) with nb by (unfold len; simpl; lia).
        replace (range nb nb) with (@nil Z)
          by (unfold range; rewrite Z.sub_diag; reflexivity).
        apply P_or_leaf.
      * destruct (aux_operatorToCnf fuel _ (nb + len qbfs)) as [[cl0 nb0]|] eqn:E0;
          [|discriminate].
        unfold ret in H. inversion H; subst.
        apply P_or; eauto.
        intros ->. discriminate.
Qed.

Lemma compiles_to_ind self nb cl nb' :
  compiles_to self nb cl nb' -> P self nb cl nb'.
Proof. intros [fuel H]. eapply aux_operatorToCnf_ind; eauto. Qed.
End CompilerInduction.

(** *** The recursion budget suffices *)

Lemma list_sum_const {A : Type} (l : list A) (f : A -> nat) (k : nat) :
  (forall x, f x = k) -> list_sum (map f l) = (k * length l)%nat.
Proof.
  intros Hf. induction l as [|x l IH]; simpl; [lia|]. rewrite Hf, IH. lia.
Qed.

Lemma list_sum_In {A : Type} (f : A -> nat) (l : list A) (x : A) :
  In x l -> (f x <= list_sum (map f l))%nat.
Proof.
  induction l as [|y l IH]; simpl; [tauto|].
  intros [->|H]; [lia|]. specialize (IH H). lia.
Qed.

Lemma budget_distribute_child q var :
  (budget (distribute_child q var) < budget_child q)%nat.
Proof.
  rewrite distribute_child_distributed.
  destruct q as [pos neg qbfs|pos neg qbfs]; [|simpl; lia].
  cbn [distributed budget budget_child].
  rewrite !map_app, !list_sum_app, !map_map.
  rewrite (list_sum_const pos _ 2%nat) by reflexivity.
  rewrite (list_sum_const neg _ 2%nat) by reflexivity.
  assert (E : list_sum (map (fun x => budget (Or [] [var] [x])) qbfs)
              = list_sum (map (fun q => (2 + budget_child q)%nat) qbfs)).
  { f_equal. apply map_ext. intros a. simpl. lia. }
  rewrite E. lia.
Qed.

Lemma budget_mapi_distribute (g : nat -> Z) qbfs : forall i,
  (list_sum (map budget (mapi_from (fun i q => distribute_child q (g i)) i qbfs))
   <= list_sum (map budget_child qbfs))%nat.
Proof.
  induction qbfs as [|q qs IH]; intros i; simpl; [lia|].
  specialize (IH (S i)).
  pose proof (budget_distribute_child q (g i)). lia.
Qed.

Lemma concat_cnf_total rec qbfs :
  (forall q, In q qbfs -> forall nb, exists cl nb', rec q nb = Some (cl, nb')) ->
  forall nb, exists cl nb', concat_cnf rec qbfs nb = Some (cl, nb').
Proof.
  induction qbfs as [|q qs IH]; intros Hrec nb; simpl.
  - unfold ret. eauto.
  - unfold bind.
    destruct (Hrec q (or_introl eq_refl) nb) as (c1 & nb1 & E1). rewrite E1.
    destruct (IH (fun q' H => Hrec q' (or_intror H)) nb1) as (cr & nb2 & E2).
    rewrite E2. unfold ret. eauto.
Qed.

(** With more budget than [budget self], the compiler returns. *)
Lemma aux_operatorToCnf_total : forall fuel self nb,
  (budget self < fuel)%nat ->
  exists cl nb', aux_operatorToCnf fuel self nb = Some (cl, nb').
Proof.
  induction fuel as [|fuel IH]; intros self nb Hb; [lia|].
  destruct self as [pos neg qbfs|pos neg qbfs].
  - rewrite aux_And_eq. unfold bind.
    destruct (concat_cnf_total (aux_operatorToCnf fuel) qbfs) with (nb := nb)
      as (left & nb1 & E).
    { intros q Hq nb0. apply IH.
      pose proof (list_sum_In budget qbfs q Hq). simpl in Hb. lia. }
    rewrite E. unfold ret. eauto.
  - rewrite aux_Or_eq.
    destruct (single_bare_or qbfs) as [inner|] eqn:E.
    + apply single_bare_or_inv in E. subst qbfs.
      apply IH. simpl in Hb. simpl. lia.
    + unfold bind, get_NB_VARS, set_NB_VARS.
      destruct (len qbfs =? 0); [unfold ret; eauto|].
      destruct (IH (And [] [] (mapi (fun i q => distribute_child q (nb + Z.of_nat i)) qbfs))
                   (nb + len qbfs)) as (cl & nb' & E').
      { pose proof (budget_mapi_distribute (fun i => nb + Z.of_nat i) qbfs 0%nat).
        unfold mapi. simpl in Hb. simpl. lia. }
      rewrite E'. unfold ret. eauto.
Qed.

Lemma concat_cnf_mono (rec rec' : Operator -> M (list clause)) qbfs :
  (forall q nb r, rec q nb = Some r -> rec' q nb = Some r) ->
  forall nb r, concat_cnf rec qbfs nb = Some r -> concat_cnf rec' qbfs nb = Some r.
Proof.
  intros Hrec. induction qbfs as [|q qs IH]; intros nb r H; simpl in *; [exact H|].
  unfold bind in *.
  destruct (rec q nb) as [[c1 nb1]|] eqn:E1; [|discriminate].
  rewrite (Hrec _ _ _ E1).
  destruct (concat_cnf rec qs nb1) as [[cr nb2]|] eqn:E2; [|discriminate].
  rewrite (IH _ _ E2). exact H.
Qed.

(** A result, once obtained, is the result for every larger budget. *)
Lemma aux_operatorToCnf_mono : forall fuel fuel' self nb r,
  (fuel <= fuel')%nat ->
  aux_operatorToCnf fuel self nb = Some r ->
  aux_operatorToCnf fuel' self nb = Some r.
Proof.
  induction fuel as [|fuel IH]; intros fuel' self nb r Hle H; [discriminate|].
  destruct fuel' as [|fuel']; [lia|].
  assert (Hle' : (fuel <= fuel')%nat) by lia.
  destruct self as [pos neg qbfs|pos neg qbfs].
  - rewrite aux_And_eq in *. unfold bind in *.
    destruct (concat_cnf (aux_operatorToCnf fuel) qbfs nb) as [[left nb1]|] eqn:E;
      [|discriminate].
    rewrite (concat_cnf_mono (aux_operatorToCnf fuel) (aux_operatorToCnf fuel') qbfs
               (fun q nb0 r0 => IH fuel' q nb0 r0 Hle') _ _ E).
    exact H.
  - rewrite aux_Or_eq in *.
    destruct (single_bare_or qbfs); [eapply IH; eauto|].
    unfold bind, get_NB_VARS, set_NB_VARS in *.
    destruct (len qbfs =? 0); [exact H|].
    destruct (aux_operatorToCnf fuel _ (nb + len qbfs)) as [[cl0 nb0]|] eqn:E0;
      [|discriminate].
    rewrite (IH fuel' _ _ _ Hle' E0). exact H.
Qed.

Lemma operatorToCnf_eq self nbVars nb0 :
  operatorToCnf self nbVars nb0 = aux_operatorToCnf (S (budget self)) self nbVars.
Proof. reflexivity. Qed.

(** Any sufficient budget gives the result of [operatorToCnf]. *)
Lemma aux_operatorToCnf_enough fuel self nbVars nb0 :
  (budget self < fuel)%nat ->
  aux_operatorToCnf fuel self nbVars = operatorToCnf self nbVars nb0.
Proof.
  intros Hb. rewrite operatorToCnf_eq.
  destruct (aux_operatorToCnf_total (S (budget self)) self nbVars) as (cl & nb' & E);
    [lia|].
  rewrite E. eapply aux_operatorToCnf_mono; [|exact E]. lia.
Qed.

Lemma operatorToCnf_total self nbVars nb0 :
  exists cl nb', operatorToCnf self nbVars nb0 = Some (cl, nb').
Proof. rewrite operatorToCnf_eq. apply aux_operatorToCnf_total. lia. Qed.

(** *** Where the literals of the output come from *)

Lemma range_seq nb (k : nat) :
  range nb (nb + Z.of_nat k) = map (fun i => nb + Z.of_nat i) (seq 0 k).
Proof.
  unfold range. replace (nb + Z.of_nat k - nb) with (Z.of_nat k) by lia.
  rewrite Nat2Z.id. reflexivity.
Qed.

Lemma In_range lo hi x : In x (range lo hi) <-> lo <= x < hi.
Proof.
  unfold range. rewrite in_map_iff. split.
  - intros (i & <- & Hi). apply in_seq in Hi. lia.
  - intros H. exists (Z.to_nat (x - lo)). split; [lia|]. apply in_seq. lia.
Qed.

Lemma variables_distribute_child q a v :
  In v (variables (distribute_child q a)) -> In v (variables q) \/ v = a.
Proof.
  rewrite distribute_child_distributed.
  destruct q as [pos neg qbfs|pos neg qbfs]; cbn [distributed variables].
  - rewrite !app_nil_l, !flat_map_app, !in_app_iff, !in_flat_map.
    intros [(x & Hx & Hv)|[(x & Hx & Hv)|(x & Hx & Hv)]];
      apply in_map_iff in Hx; destruct Hx as (y & <- & Hy); simpl in Hv.
    + intuition (subst; auto).
    + intuition (subst; auto).
    + rewrite app_nil_r in Hv. destruct Hv as [Hv|Hv]; [auto|].
      left. right. right. exists y. auto.
  - rewrite !in_app_iff. simpl. intuition auto.
Qed.

Lemma variables_mapi_distribute nb qbfs : forall i v,
  In v (flat_map variables
          (mapi_from (fun i q => distribute_child q (nb + Z.of_nat i)) i qbfs)) ->
  In v (flat_map variables qbfs) \/
  nb + Z.of_nat i <= v < nb + Z.of_nat i + len qbfs.
Proof.
  induction qbfs as [|q qs IH]; intros i v; simpl; [tauto|].
  rewrite !in_app_iff, len_cons. intros [H|H].
  - apply variables_distribute_child in H. pose proof (len_nonneg qs).
    destruct H; [auto|right; lia].
  - apply IH in H. destruct H; [auto|right; lia].
Qed.

Lemma literal_of_weaken (f g : Operator) nb1 nb1' nb2 nb2' l :
  (forall v, In v (variables f) -> In v (variables g)) ->
  nb2 <= nb1 -> nb1' <= nb2' ->
  literal_of f nb1 nb1' l -> literal_of g nb2 nb2' l.
Proof.
  intros Hv H1 H2 [(v & Hin & E)|(a & Ha & E)]; [left|right]; eauto.
  exists a. split; [lia|assumption].
Qed.


Lemma chain_output_literals qbfs nb cl nb' :
  chain (fun q nb cl nb' => compiles_to q nb cl nb' /\ output_literals q nb cl nb')
        qbfs nb cl nb' ->
  nb <= nb' /\
  forall c l, In c cl -> In l c ->
    (exists v, In v (flat_map variables qbfs) /\ (l = v \/ l = - v)) \/
    (exists a, nb <= a < nb' /\ (l = a \/ l = - a)).
Proof.
  induction 1 as [nb|q qs nb c1 nb1 cr nb2 [_ [Hle Hq]] _ [Hle' IH]].
  - split; [lia|]. intros c l [].
  - split; [lia|]. intros c l Hc Hl. apply in_app_iff in Hc. destruct Hc as [Hc|Hc].
    + destruct (Hq c l Hc Hl) as [(v & Hv & E)|(a & Ha & E)].
      * left. exists v. split; [|exact E]. simpl. apply in_app_iff. auto.
      * right. exists a. split; [lia|exact E].
    + destruct (IH c l Hc Hl) as [(v & Hv & E)|(a & Ha & E)].
      * left. exists v. split; [|exact E]. simpl. apply in_app_iff. auto.
      * right. exists a. split; [lia|exact E].
Qed.

Lemma dnf_literals pos neg (extra : list Z) l :
  In l (pos ++ extra ++ map (fun v => v * -1) neg) ->
  (exists v, In v (pos ++ neg) /\ (l = v \/ l = - v)) \/ In l extra.
Proof.
  rewrite !in_app_iff, in_map_iff. intros [H|[H|(v & <- & H)]].
  - left. exists l. rewrite in_app_iff. auto.
  - auto.
  - left. exists v. rewrite in_app_iff. split; [auto|right; lia].
Qed.

Lemma compiles_to_output_literals self nb cl nb' :
  compiles_to self nb cl nb' -> output_literals self nb cl nb'.
Proof.
  apply compiles_to_ind; clear self nb cl nb'.
  - intros pos neg qbfs nb left nb' Hch.
    apply chain_output_literals in Hch. destruct Hch as [Hle Hch].
    split; [exact Hle|]. intros c l Hc Hl.
    rewrite !in_app_iff, !in_map_iff in Hc.
    destruct Hc as [(v & <- & Hv)|[(v & <- & Hv)|Hc]].
    + destruct Hl as [<-|[]]. left. exists v. simpl. rewrite in_app_iff. auto.
    + destruct Hl as [<-|[]]. left. exists v. simpl. rewrite !in_app_iff.
      split; [auto|right; lia].
    + destruct (Hch c l Hc Hl) as [(v & Hv & E)|R]; [left|right; exact R].
      exists v. simpl. rewrite !in_app_iff. auto.
  - intros pos neg inner nb cl nb' [_ [Hle H]]. split; [exact Hle|].
    intros c l Hc Hl. eapply literal_of_weaken; [| | |eapply H; eauto]; try lia.
    intros v. simpl. rewrite !app_nil_r. auto.
  - intros pos neg nb. split; [lia|]. intros c l [<-|[]] Hl.
    apply dnf_literals in Hl. destruct Hl as [(v & Hv & E)|[]].
    left. exists v. simpl. rewrite app_nil_r. auto.
  - intros pos neg qbfs nb cl nb' _ _ [_ [Hle H]].
    pose proof (len_nonneg qbfs) as Hk.
    split; [lia|]. intros c l Hc Hl. apply in_app_iff in Hc. destruct Hc as [Hc|[<-|[]]].
    + destruct (H c l Hc Hl) as [(v & Hv & E)|(a & Ha & E)].
      * simpl in Hv. apply variables_mapi_distribute in Hv. destruct Hv as [Hv|Hv].
        -- left. exists v. simpl. rewrite !in_app_iff. auto.
        -- right. exists v. split; [lia|exact E].
      * right. exists a. split; [lia|exact E].
    + apply dnf_literals in Hl. destruct Hl as [(v & Hv & E)|Hl].
      * left. exists v. simpl. rewrite in_app_iff in Hv. rewrite !in_app_iff.
        split; [tauto|exact E].
      * apply In_range in Hl. right. exists l. split; [lia|auto].
Qed.

(** *** Reading the output: from the clauses to the formula *)

Lemma lit_holds_pos B v : 1 <= v -> lit_holds B v = B v.
Proof.
  intros H. unfold lit_holds. destruct (0 <? v) eqn:E; [reflexivity|].
  apply Z.ltb_ge in E. lia.
Qed.

Lemma lit_holds_neg B v : 1 <= v -> lit_holds B (v * -1) = negb (B v).
Proof.
  intros H. unfold lit_holds. destruct (0 <? v * -1) eqn:E.
  - apply Z.ltb_lt in E. lia.
  - f_equal. f_equal. lia.
Qed.

Lemma existsb_lits_pos B pos :
  (forall v, In v pos -> 1 <= v) -> existsb (lit_holds B) pos = existsb B pos.
Proof.
  induction pos as [|v r IH]; intros H; simpl; [reflexivity|].
  rewrite lit_holds_pos by (apply H; simpl; auto).
  rewrite IH by (intros; apply H; simpl; auto). reflexivity.
Qed.

Lemma existsb_lits_neg B neg :
  (forall v, In v neg -> 1 <= v) ->
  existsb (lit_holds B) (map (fun v => v * -1) neg)
  = existsb (fun v => negb (B v)) neg.
Proof.
  induction neg as [|v r IH]; intros H; simpl; [reflexivity|].
  rewrite lit_holds_neg by (apply H; simpl; auto).
  rewrite IH by (intros; apply H; simpl; auto). reflexivity.
Qed.

Lemma units_pos_hold B pos :
  (forall v, In v pos -> 1 <= v) ->
  cnf_holds B (map (fun v => [v]) pos) = forallb B pos.
Proof.
  unfold cnf_holds.
  induction pos as [|v r IH]; intros H; simpl; [reflexivity|].
  rewrite lit_holds_pos by (apply H; simpl; auto).
  rewrite IH by (intros; apply H; simpl; auto).
  rewrite orb_false_r. reflexivity.
Qed.

Lemma units_neg_hold B neg :
  (forall v, In v neg -> 1 <= v) ->
  cnf_holds B (map (fun v => [v * -1]) neg) = forallb (fun v => negb (B v)) neg.
Proof.
  unfold cnf_holds.
  induction neg as [|v r IH]; intros H; simpl; [reflexivity|].
  rewrite lit_holds_neg by (apply H; simpl; auto).
  rewrite IH by (intros; apply H; simpl; auto).
  rewrite orb_false_r. reflexivity.
Qed.

Lemma cnf_holds_app B c1 c2 :
  cnf_holds B (c1 ++ c2) = cnf_holds B c1 && cnf_holds B c2.
Proof. apply forallb_app. Qed.

Lemma cnf_holds_single B c : cnf_holds B [c] = clause_holds B c.
Proof. unfold cnf_holds. simpl. apply andb_true_r. Qed.

Lemma dnf_holds B pos neg extra :
  (forall v, In v pos -> 1 <= v) -> (forall v, In v neg -> 1 <= v) ->
  clause_holds B (pos ++ extra ++ map (fun v => v * -1) neg)
  = existsb B pos || existsb (lit_holds B) extra
    || existsb (fun v => negb (B v)) neg.
Proof.
  intros Hp Hn. unfold clause_holds.
  rewrite !existsb_app, existsb_lits_pos, existsb_lits_neg by assumption.
  rewrite orb_assoc. reflexivity.
Qed.

Lemma forallb_map_guard {A : Type} (B : assignment) (a : Z) (f : A -> Operator)
  (g : A -> bool) (l : list A) :
  (forall x, holds B (f x) = negb (B a) || g x) ->
  forallb (holds B) (map f l) = negb (B a) || forallb g l.
Proof.
  intros Hf. induction l as [|x r IH]; simpl.
  - rewrite orb_true_r. reflexivity.
  - rewrite Hf, IH. destruct (B a), (g x), (forallb g r); reflexivity.
Qed.

(** The rewritten child reads as "[a] implies the child". *)
Lemma holds_distribute_child B q a :
  holds B (distribute_child q a) = negb (B a) || holds B q.
Proof.
  rewrite distribute_child_distributed.
  destruct q as [pos neg qbfs|pos neg qbfs]; cbn [distributed holds].
  - rewrite !forallb_app.
    rewrite (forallb_map_guard B a _ B pos),
            (forallb_map_guard B a _ (fun v => negb (B v)) neg),
            (forallb_map_guard B a _ (holds B) qbfs).
    + simpl. destruct (B a), (forallb B pos), (forallb (fun v => negb (B v)) neg),
        (forallb (holds B) qbfs); reflexivity.
    + intros x. simpl. destruct (B a), (holds B x); reflexivity.
    + intros x. simpl. destruct (B a), (B x); reflexivity.
    + intros x. simpl. destruct (B a), (B x); reflexivity.
  - rewrite existsb_app. simpl.
    destruct (B a), (existsb B pos), (existsb (fun v => negb (B v)) neg),
      (existsb (holds B) qbfs); reflexivity.
Qed.

Lemma chosen_child_holds B nb qbfs : forall i a,
  forallb (holds B)
    (mapi_from (fun i q => distribute_child q (nb + Z.of_nat i)) i qbfs) = true ->
  nb + Z.of_nat i <= a < nb + Z.of_nat i + len qbfs ->
  B a = true ->
  existsb (holds B) qbfs = true.
Proof.
  induction qbfs as [|q qs IH]; intros i a Hall Ha HB.
  - unfold len in Ha. simpl in Ha. lia.
  - simpl in Hall. apply andb_true_iff in Hall. destruct Hall as [Hq Hall].
    rewrite len_cons in Ha. simpl. apply orb_true_iff.
    destruct (Z.eq_dec a (nb + Z.of_nat i)) as [->|Hne].
    + left. rewrite holds_distribute_child, HB in Hq. exact Hq.
    + right. apply (IH (S i) a Hall); [lia|exact HB].
Qed.


Lemma chain_sound qbfs nb cl nb' :
  chain (fun q nb cl nb' => compiles_to q nb cl nb' /\ sound q nb cl nb')
        qbfs nb cl nb' ->
  1 <= nb -> (forall v, In v (flat_map variables qbfs) -> 1 <= v) ->
  forall B, cnf_holds B cl = true -> forallb (holds B) qbfs = true.
Proof.
  induction 1 as [nb|q qs nb c1 nb1 cr nb2 [Hc Hq] _ IH]; intros Hnb Hv B HB.
  - reflexivity.
  - rewrite cnf_holds_app in HB. apply andb_true_iff in HB. destruct HB as [H1 H2].
    apply compiles_to_output_literals in Hc. destruct Hc as [Hle _].
    simpl. apply andb_true_iff. split.
    + apply Hq; auto. intros v Hin. apply Hv. simpl. apply in_app_iff. auto.
    + apply IH; auto; [lia|]. intros v Hin. apply Hv. simpl. apply in_app_iff. auto.
Qed.

Lemma compiles_to_sound self nb cl nb' :
  compiles_to self nb cl nb' -> sound self nb cl nb'.
Proof.
  apply compiles_to_ind; clear self nb cl nb'.
  - intros pos neg qbfs nb left nb' Hch Hnb Hv B HB.
    rewrite !cnf_holds_app in HB.
    apply andb_true_iff in HB. destruct HB as [Hp HB].
    apply andb_true_iff in HB. destruct HB as [Hn Hl].
    simpl in Hv. rewrite units_pos_hold in Hp
      by (intros; apply Hv; rewrite !in_app_iff; auto).
    rewrite units_neg_hold in Hn by (intros; apply Hv; rewrite !in_app_iff; auto).
    simpl. rewrite Hp, Hn. simpl.
    eapply chain_sound; eauto. intros; apply Hv; rewrite !in_app_iff; auto.
  - intros pos neg inner nb cl nb' [_ H] Hnb Hv B HB.
    assert (Hi : holds B (Or pos neg inner) = true).
    { apply H; auto. intros v Hin. apply Hv. simpl in *. rewrite !app_nil_r. exact Hin. }
    simpl in *. rewrite !orb_false_r. exact Hi.
  - intros pos neg nb Hnb Hv B HB. simpl in Hv.
    rewrite cnf_holds_single in HB.
    rewrite dnf_holds in HB by (intros; apply Hv; rewrite !in_app_iff; auto).
    simpl in HB. simpl. rewrite !orb_false_r in *. exact HB.
  - intros pos neg qbfs nb cl nb' _ _ [Hc H] Hnb Hv B HB.
    pose proof (len_nonneg qbfs) as Hk. simpl in Hv.
    rewrite cnf_holds_app in HB. apply andb_true_iff in HB. destruct HB as [Hcl Hd].
    assert (Hall : holds B (And [] []
              (mapi (fun i q => distribute_child q (nb + Z.of_nat i)) qbfs)) = true).
    { apply H; auto; [lia|]. intros v Hin. simpl in Hin.
      apply variables_mapi_distribute in Hin. destruct Hin as [Hin|Hin]; [|lia].
      apply Hv. rewrite !in_app_iff. auto. }
    simpl in Hall. rewrite cnf_holds_single in Hd.
    rewrite dnf_holds in Hd by (intros; apply Hv; rewrite !in_app_iff; auto).
    simpl.
    destruct (existsb B pos); [reflexivity|].
    destruct (existsb (fun v => negb (B v)) neg); [reflexivity|].
    simpl in *. rewrite orb_false_r in Hd.
    apply existsb_exists in Hd. destruct Hd as (a & Ha & HBa).
    apply In_range in Ha. rewrite lit_holds_pos in HBa by lia.
    apply (chosen_child_holds B nb qbfs 0%nat a Hall); [simpl; lia|exact HBa].
Qed.

(** *** Reading the output: from the formula to the clauses *)

Lemma forallb_agree {A : Type} (f g : A -> bool) (l : list A) :
  (forall x, In x l -> f x = g x) -> forallb f l = forallb g l.
Proof.
  induction l as [|x r IH]; intros H; simpl; [reflexivity|].
  rewrite H by (simpl; auto). rewrite IH by (intros; apply H; simpl; auto).
  reflexivity.
Qed.

Lemma existsb_agree {A : Type} (f g : A -> bool) (l : list A) :
  (forall x, In x l -> f x = g x) -> existsb f l = existsb g l.
Proof.
  induction l as [|x r IH]; intros H; simpl; [reflexivity|].
  rewrite H by (simpl; auto). rewrite IH by (intros; apply H; simpl; auto).
  reflexivity.
Qed.

(** The truth value of a formula depends on its own variables only. *)
Lemma holds_agree A B f :
  (forall v, In v (variables f) -> A v = B v) -> holds A f = holds B f.
Proof.
  induction f as [pos neg qbfs IH|pos neg qbfs IH] using Operator_tree_ind;
    intros H; simpl in H; simpl.
  - f_equal; [f_equal|].
    + apply forallb_agree. intros; apply H; rewrite !in_app_iff; auto.
    + apply forallb_agree. intros; f_equal; apply H; rewrite !in_app_iff; auto.
    + apply forallb_agree. intros q Hq. rewrite Forall_forall in IH.
      apply IH; [exact Hq|]. intros v Hv. apply H. rewrite !in_app_iff.
      right; right. apply in_flat_map. eauto.
  - f_equal; [f_equal|].
    + apply existsb_agree. intros; apply H; rewrite !in_app_iff; auto.
    + apply existsb_agree. intros; f_equal; apply H; rewrite !in_app_iff; auto.
    + apply existsb_agree. intros q Hq. rewrite Forall_forall in IH.
      apply IH; [exact Hq|]. intros v Hv. apply H. rewrite !in_app_iff.
      right; right. apply in_flat_map. eauto.
Qed.

Lemma lit_holds_agree A B l :
  A (Z.abs l) = B (Z.abs l) -> lit_holds A l = lit_holds B l.
Proof.
  unfold lit_holds. destruct (0 <? l) eqn:E.
  - apply Z.ltb_lt in E. rewrite Z.abs_eq by lia. auto.
  - apply Z.ltb_ge in E. rewrite Z.abs_neq by lia. intros ->. reflexivity.
Qed.

(** The truth value of a clause list depends on the magnitudes in it only. *)
Lemma cnf_holds_agree A B cl :
  (forall c l, In c cl -> In l c -> A (Z.abs l) = B (Z.abs l)) ->
  cnf_holds A cl = cnf_holds B cl.
Proof.
  intros H. apply forallb_agree. intros c Hc.
  apply existsb_agree. intros l Hl. apply lit_holds_agree. eauto.
Qed.

Lemma output_magnitudes_below f nb cl nb' :
  output_literals f nb cl nb' -> 0 <= nb ->
  (forall v, In v (variables f) -> 1 <= v < nb) ->
  forall c l, In c cl -> In l c -> 1 <= Z.abs l < nb' \/ (l = 0 /\ nb = 0).
Proof.
  intros [Hle H] Hnb Hv c l Hc Hl.
  destruct (H c l Hc Hl) as [(v & Hin & E)|(a & Ha & E)].
  - specialize (Hv v Hin). lia.
  - lia.
Qed.


Lemma with_children_values_outside A nb qbfs : forall i v,
  v < nb + Z.of_nat i \/ nb + Z.of_nat i + len qbfs <= v ->
  with_children_values A nb i qbfs v = A v.
Proof.
  induction qbfs as [|q r IH]; intros i v H; simpl; [reflexivity|].
  rewrite len_cons in H. pose proof (len_nonneg r).
  destruct (v =? nb + Z.of_nat i) eqn:E; [apply Z.eqb_eq in E; lia|].
  apply IH. lia.
Qed.

Lemma with_children_values_at A nb qbfs : forall i j q,
  nth_error qbfs j = Some q ->
  with_children_values A nb i qbfs (nb + Z.of_nat (i + j)) = holds A q.
Proof.
  induction qbfs as [|q0 r IH]; intros i j q H; [destruct j; discriminate|].
  simpl. destruct j as [|j]; simpl in H.
  - inversion H; subst. rewrite Nat.add_0_r, Z.eqb_refl. reflexivity.
  - destruct (nb + Z.of_nat (i + S j) =? nb + Z.of_nat i) eqn:E;
      [apply Z.eqb_eq in E; lia|].
    replace (i + S j)%nat with (S i + j)%nat by lia. apply IH. exact H.
Qed.

Lemma distributed_children_hold A B nb qbfs : forall i,
  (forall q, In q qbfs -> holds B q = holds A q) ->
  (forall j q, nth_error qbfs j = Some q ->
               B (nb + Z.of_nat (i + j)) = holds A q) ->
  forallb (holds B)
    (mapi_from (fun i q => distribute_child q (nb + Z.of_nat i)) i qbfs) = true.
Proof.
  induction qbfs as [|q r IH]; intros i Hq Hat; simpl; [reflexivity|].
  apply andb_true_iff. split.
  - rewrite holds_distribute_child, Hq by (simpl; auto).
    specialize (Hat 0%nat q eq_refl). rewrite Nat.add_0_r in Hat. rewrite Hat.
    destruct (holds A q); reflexivity.
  - apply IH; [intros; apply Hq; simpl; auto|].
    intros j q' Hj. replace (S i + j)%nat with (i + S j)%nat by lia.
    apply Hat. exact Hj.
Qed.


Lemma chain_complete qbfs nb cl nb' :
  chain (fun q nb cl nb' => compiles_to q nb cl nb' /\ complete q nb cl nb')
        qbfs nb cl nb' ->
  1 <= nb -> (forall v, In v (flat_map variables qbfs) -> 1 <= v < nb) ->
  forall A, forallb (holds A) qbfs = true ->
  nb <= nb' /\ exists B, extends_over nb nb' A B /\ cnf_holds B cl = true.
Proof.
  induction 1 as [nb|q qs nb c1 nb1 cr nb2 [Hc Hq] _ IH]; intros Hnb Hv A HA.
  - split; [lia|]. exists A. split; [intros v _; reflexivity|reflexivity].
  - simpl in HA. apply andb_true_iff in HA. destruct HA as [HAq HAqs].
    assert (Hvq : forall v, In v (variables q) -> 1 <= v < nb).
    { intros v Hin. apply Hv. simpl. apply in_app_iff. auto. }
    assert (Hvqs : forall v, In v (flat_map variables qs) -> 1 <= v < nb).
    { intros v Hin. apply Hv. simpl. apply in_app_iff. auto. }
    apply compiles_to_output_literals in Hc.
    pose proof (output_magnitudes_below _ _ _ _ Hc ltac:(lia) Hvq) as Hmag.
    destruct Hc as [Hle _].
    destruct (Hq Hnb Hvq A HAq) as (B1 & Hext1 & Hsat1).
    destruct (IH ltac:(lia) (fun v Hin => ltac:(specialize (Hvqs v Hin); lia)) B1)
      as (Hle2 & B2 & Hext2 & Hsat2).
    { rewrite <- HAqs. apply forallb_agree. intros q' Hq'. apply holds_agree.
      intros v Hin. apply Hext1. left.
      assert (1 <= v < nb); [|lia]. apply Hvqs. apply in_flat_map. eauto. }
    split; [lia|]. exists B2. split.
    + intros v Hvout. rewrite Hext2 by lia. apply Hext1. lia.
    + rewrite cnf_holds_app, Hsat2, andb_true_r. rewrite <- Hsat1.
      apply cnf_holds_agree. intros c l Hcin Hl.
      apply Hext2. left. destruct (Hmag c l Hcin Hl); lia.
Qed.

Lemma compiles_to_complete self nb cl nb' :
  compiles_to self nb cl nb' -> complete self nb cl nb'.
Proof.
  apply compiles_to_ind; clear self nb cl nb'.
  - intros pos neg qbfs nb left nb' Hch Hnb Hv A HA. simpl in HA, Hv.
    apply andb_true_iff in HA. destruct HA as [HA Hq].
    apply andb_true_iff in HA. destruct HA as [Hp Hn].
    destruct (chain_complete _ _ _ _ Hch Hnb) with (A := A)
      as (Hle & B & Hext & Hsat); auto.
    { intros; apply Hv; rewrite !in_app_iff; auto. }
    exists B. split; [exact Hext|].
    rewrite !cnf_holds_app, Hsat, andb_true_r.
    rewrite units_pos_hold, units_neg_hold
      by (intros v Hin; apply Hv; rewrite !in_app_iff; auto).
    apply andb_true_iff. split.
    + rewrite <- Hp. apply forallb_agree. intros v Hin. apply Hext. left.
      apply Hv. rewrite !in_app_iff; auto.
    + rewrite <- Hn. apply forallb_agree. intros v Hin. f_equal. apply Hext. left.
      apply Hv. rewrite !in_app_iff; auto.
  - intros pos neg inner nb cl nb' [_ H] Hnb Hv A HA.
    apply H; auto.
    + intros v Hin. apply Hv. simpl in *. rewrite !app_nil_r. exact Hin.
    + simpl in *. rewrite !orb_false_r in HA. exact HA.
  - intros pos neg nb Hnb Hv A HA. simpl in Hv.
    exists A. split; [intros v _; reflexivity|].
    rewrite cnf_holds_single.
    rewrite dnf_holds by (intros v Hin; apply Hv; rewrite !in_app_iff; auto).
    simpl in *. rewrite !orb_false_r in *. exact HA.
  - intros pos neg qbfs nb cl nb' _ _ [Hc H] Hnb Hv A HA.
    pose proof (len_nonneg qbfs) as Hk. simpl in Hv.
    apply compiles_to_output_literals in Hc. destruct Hc as [Hle _].
    set (A' := with_children_values A nb 0 qbfs).
    assert (Hout : forall v, v < nb \/ nb + len qbfs <= v -> A' v = A v).
    { intros v Hvout. apply with_children_values_outside. simpl. lia. }
    assert (Hvq : forall q v, In q qbfs -> In v (variables q) -> 1 <= v < nb).
    { intros q v Hq Hin. apply Hv. rewrite !in_app_iff. right; right.
      apply in_flat_map. eauto. }
    destruct (H ltac:(lia)) with (A := A') as (B & Hext & Hsat).
    { intros v Hin. simpl in Hin. apply variables_mapi_distribute in Hin.
      destruct Hin as [Hin|Hin]; [|simpl in Hin; lia].
      assert (1 <= v < nb); [|lia]. apply Hv. rewrite !in_app_iff. auto. }
    { simpl. apply distributed_children_hold with (A := A).
      - intros q Hq. apply holds_agree. intros v Hin. apply Hout.
        left. apply (Hvq q v Hq Hin).
      - intros j q Hj. apply with_children_values_at. exact Hj. }
    exists B. split.
    + intros v Hvout. rewrite Hext by lia. apply Hout. lia.
    + rewrite cnf_holds_app, Hsat, cnf_holds_single. simpl.
      rewrite dnf_holds by (intros v Hin; apply Hv; rewrite !in_app_iff; auto).
      simpl in HA.
      apply orb_true_iff in HA. destruct HA as [HA|HA];
        [apply orb_true_iff in HA; destruct HA as [HA|HA]|].
      * rewrite (existsb_agree B A pos), HA; [reflexivity|].
        intros v Hin. rewrite Hext, Hout; [reflexivity| |];
          left; assert (1 <= v < nb) by (apply Hv; rewrite !in_app_iff; auto); lia.
      * rewrite (existsb_agree (fun v => negb (B v)) (fun v => negb (A v)) neg), HA;
          [apply orb_true_r|].
        intros v Hin. f_equal. rewrite Hext, Hout; [reflexivity| |];
          left; assert (1 <= v < nb) by (apply Hv; rewrite !in_app_iff; auto); lia.
      * apply existsb_exists in HA. destruct HA as (q & Hq & Hholds).
        destruct (In_nth_error _ _ Hq) as [j Hj].
        assert (Hjlt : (j < length qbfs)%nat)
          by (apply nth_error_Some; rewrite Hj; discriminate).
        assert (Hex : existsb (lit_holds B) (range nb (nb + len qbfs)) = true).
        { apply existsb_exists. exists (nb + Z.of_nat j). split.
          - apply In_range. unfold len. lia.
          - rewrite lit_holds_pos by lia. rewrite Hext by (unfold len; lia).
            rewrite <- Hholds.
            exact (with_children_values_at A nb qbfs 0%nat j q Hj). }
        rewrite Hex. rewrite orb_true_r. reflexivity.
Qed.

(** *** [flatten_collapse] *)


Lemma node_type f :
  node (type f) (positiveVariables f) (negativeVariables f) (qbf_formulas f) = f.
Proof. destruct f; reflexivity. Qed.

Lemma holds_node_And A pos neg qbfs :
  holds A (node "AND" pos neg qbfs)
  = forallb A pos && forallb (fun v => negb (A v)) neg && forallb (holds A) qbfs.
Proof. reflexivity. Qed.

Lemma holds_node_Or A pos neg qbfs :
  holds A (node "OR" pos neg qbfs)
  = existsb A pos || existsb (fun v => negb (A v)) neg || existsb (holds A) qbfs.
Proof. reflexivity. Qed.

Lemma type_cases f : type f = "AND"%string \/ type f = "OR"%string.
Proof. destruct f; auto. Qed.

(** Merging the children of the parent's type into the parent keeps the
    truth value. *)
Lemma merge_same_type_holds A ty : ty = "AND"%string \/ ty = "OR"%string ->
  forall qbfs pos neg l pos' neg' l',
    merge_same_type ty qbfs (pos, neg, l) = (pos', neg', l') ->
    holds A (node ty pos' neg' l') = holds A (node ty pos neg (l ++ qbfs)).
Proof.
  intros Hty. induction qbfs as [|q r IH]; intros pos neg l pos' neg' l' H.
  - simpl in H. inversion H; subst. rewrite app_nil_r. reflexivity.
  - simpl in H. destruct (String.eqb (type q) ty) eqn:E.
    + apply IH in H. rewrite H. apply String.eqb_eq in E.
      destruct Hty as [-> | ->].
      * destruct q as [qp qn qq|qp qn qq]; [|discriminate].
        rewrite !holds_node_And, !forallb_app. simpl.
        destruct (forallb A pos), (forallb A qp),
          (forallb (fun v => negb (A v)) neg),
          (forallb (fun v => negb (A v)) qn),
          (forallb (holds A) l), (forallb (holds A) qq),
          (forallb (holds A) r); reflexivity.
      * destruct q as [qp qn qq|qp qn qq]; [discriminate|].
        rewrite !holds_node_Or, !existsb_app. simpl.
        destruct (existsb A pos), (existsb A qp),
          (existsb (fun v => negb (A v)) neg),
          (existsb (fun v => negb (A v)) qn),
          (existsb (holds A) l), (existsb (holds A) qq),
          (existsb (holds A) r); reflexivity.
    + apply IH in H. rewrite H. rewrite <- app_assoc. reflexivity.
Qed.

Lemma flatten_collapse_each_holds A rec :
  forall l l', flatten_collapse_each rec l = Some l' ->
    (forall q q', In q l -> rec q = Some q' -> holds A q' = holds A q) ->
    forallb (holds A) l' = forallb (holds A) l /\
    existsb (holds A) l' = existsb (holds A) l.
Proof.
  induction l as [|q r IH]; intros l' H Hrec; simpl in H.
  - inversion H; subst. auto.
  - destruct (rec q) as [q'|] eqn:Eq; [|discriminate].
    destruct (flatten_collapse_each rec r) as [r'|] eqn:Er; [|discriminate].
    inversion H; subst. simpl.
    rewrite (Hrec q q') by (simpl; auto).
    destruct (IH r' eq_refl) as [-> ->]; [|auto].
    intros q0 q0' Hin. apply Hrec. simpl; auto.
Qed.

Lemma flatten_collapse_holds A : forall fuel self formula,
  flatten_collapse fuel self = Some formula -> holds A formula = holds A self.
Proof.
  induction fuel as [|fuel IH]; intros self formula H; [discriminate|].
  simpl in H.
  destruct (len (qbf_formulas self) =? 0) eqn:E0; [inversion H; reflexivity|].
  destruct ((len (qbf_formulas self) =? 1)
            && (len (positiveVariables self) =? 0)
            && (len (negativeVariables self) =? 0)) eqn:E1.
  - apply IH in H. rewrite H.
    apply andb_true_iff in E1. destruct E1 as [E1 En].
    apply andb_true_iff in E1. destruct E1 as [E1 Ep].
    apply Z.eqb_eq in Ep, En. apply len_zero_nil in Ep, En.
    destruct self as [pos neg qbfs|pos neg qbfs]; simpl in *; subst;
      apply Z.eqb_eq in E1; apply len_one in E1; destruct E1 as [q ->]; simpl.
    + rewrite andb_true_r. reflexivity.
    + rewrite orb_false_r. reflexivity.
  - destruct (merge_same_type (type self) (qbf_formulas self)
                (positiveVariables self, negativeVariables self, []))
      as [[pos neg] newQbflist] eqn:Em.
    destruct (flatten_collapse_each (flatten_collapse fuel) newQbflist) as [simplifiedQbflist|] eqn:Es;
      [|discriminate].
    apply (merge_same_type_holds A _ (type_cases self)) in Em.
    simpl in Em. rewrite node_type in Em. rewrite <- Em.
    destruct (flatten_collapse_each_holds A _ _ _ Es) as [Hall Hex].
    { intros q q' _ Hq. eapply IH; eauto. }
    destruct (type_cases self) as [Ety|Ety]; rewrite Ety in *; simpl in H;
      inversion H; subst.
    + rewrite holds_node_And. simpl. rewrite Hall. reflexivity.
    + rewrite holds_node_Or. simpl. rewrite Hex. reflexivity.
Qed.

Lemma depth_child q qbfs :
  In q qbfs -> (depth q <= fold_right Nat.max 0 (map depth qbfs))%nat.
Proof.
  induction qbfs as [|x r IH]; simpl; [tauto|].
  intros [->|H]; [lia|]. specialize (IH H). lia.
Qed.

Lemma depth_qbf_formulas self q :
  In q (qbf_formulas self) -> (depth q < depth self)%nat.
Proof.
  intros H. apply depth_child in H. destruct self; simpl in *; lia.
Qed.

Lemma merge_same_type_members ty : forall qbfs pos neg l pos' neg' l' x,
  merge_same_type ty qbfs (pos, neg, l) = (pos', neg', l') -> In x l' ->
  In x l \/ exists q, In q qbfs /\ (x = q \/ In x (qbf_formulas q)).
Proof.
  induction qbfs as [|q r IH]; intros pos neg l pos' neg' l' x H Hx.
  - simpl in H. inversion H; subst. auto.
  - simpl in H. destruct (String.eqb (type q) ty).
    + destruct (IH _ _ _ _ _ _ x H Hx) as [Hin|(q0 & Hq0 & Hc)].
      * apply in_app_iff in Hin. destruct Hin as [Hin|Hin]; [auto|].
        right. exists q. simpl. auto.
      * right. exists q0. simpl. auto.
    + destruct (IH _ _ _ _ _ _ x H Hx) as [Hin|(q0 & Hq0 & Hc)].
      * apply in_app_iff in Hin. destruct Hin as [Hin|[<-|[]]]; [auto|].
        right. exists q. simpl. auto.
      * right. exists q0. simpl. auto.
Qed.

Lemma flatten_collapse_each_total rec l :
  (forall q, In q l -> exists q', rec q = Some q') ->
  exists l', flatten_collapse_each rec l = Some l'.
Proof.
  induction l as [|q r IH]; intros H; simpl; [eauto|].
  destruct (H q (or_introl eq_refl)) as [q' ->].
  destruct IH as [r' ->]; [intros; apply H; simpl; auto|]. eauto.
Qed.

(** With more budget than the nesting depth, [flatten_collapse] returns. *)
Lemma flatten_collapse_total : forall fuel self,
  (depth self < fuel)%nat -> exists formula, flatten_collapse fuel self = Some formula.
Proof.
  induction fuel as [|fuel IH]; intros self Hd; [lia|].
  simpl.
  destruct (len (qbf_formulas self) =? 0) eqn:E0; [eauto|].
  destruct ((len (qbf_formulas self) =? 1)
            && (len (positiveVariables self) =? 0)
            && (len (negativeVariables self) =? 0)) eqn:E1.
  - apply IH. destruct (qbf_formulas self) as [|q r] eqn:Eq; [discriminate|].
    simpl. assert (depth q < depth self)%nat; [|lia].
    apply depth_qbf_formulas. rewrite Eq. simpl; auto.
  - destruct (merge_same_type (type self) (qbf_formulas self)
                (positiveVariables self, negativeVariables self, []))
      as [[pos neg] newQbflist] eqn:Em.
    destruct (flatten_collapse_each_total (flatten_collapse fuel) newQbflist) as [l' ->].
    { intros x Hx. apply IH.
      destruct (merge_same_type_members _ _ _ _ _ _ _ _ x Em Hx)
        as [[]|(q & Hq & [->|Hc])].
      - apply depth_qbf_formulas in Hq. lia.
      - apply depth_qbf_formulas in Hq, Hc. lia. }
    destruct (String.eqb (type self) "AND"); eauto.
Qed.

(** *** Every allocated variable is used *)

Lemma chain_allocated_occur qbfs nb cl nb' :
  chain (fun q nb cl nb' => compiles_to q nb cl nb' /\ allocated_occur q nb cl nb')
        qbfs nb cl nb' ->
  forall a, nb <= a < nb' -> exists c, In c cl /\ In a c.
Proof.
  induction 1 as [nb|q qs nb c1 nb1 cr nb2 [Hc Hq] _ IH]; intros a Ha; [lia|].
  destruct (Z_lt_ge_dec a nb1) as [Hlt|Hge].
  - destruct (Hq a ltac:(lia)) as (c & Hin & Hac).
    exists c. split; [apply in_app_iff; auto|exact Hac].
  - destruct (IH a ltac:(lia)) as (c & Hin & Hac).
    exists c. split; [apply in_app_iff; auto|exact Hac].
Qed.

Lemma compiles_to_allocated_occur self nb cl nb' :
  compiles_to self nb cl nb' -> allocated_occur self nb cl nb'.
Proof.
  apply compiles_to_ind; clear self nb cl nb'.
  - intros pos neg qbfs nb left nb' Hch a Ha.
    destruct (chain_allocated_occur _ _ _ _ Hch a Ha) as (c & Hin & Hac).
    exists c. split; [rewrite !in_app_iff; auto|exact Hac].
  - intros pos neg inner nb cl nb' [_ H]. exact H.
  - intros pos neg nb a Ha. lia.
  - intros pos neg qbfs nb cl nb' _ _ [_ H] a Ha.
    destruct (Z_lt_ge_dec a (nb + len qbfs)) as [Hlt|Hge].
    + eexists. split; [apply in_app_iff; right; left; reflexivity|].
      rewrite !in_app_iff. right; left. apply In_range. lia.
    + destruct (H a ltac:(lia)) as (c & Hin & Hac).
      exists c. split; [apply in_app_iff; auto|exact Hac].
Qed.

(** *** The compiler as a whole *)

Lemma operatorToCnf_compiles_to self nbVars nb0 cl nb' :
  operatorToCnf self nbVars nb0 = Some (cl, nb') -> compiles_to self nbVars cl nb'.
Proof. rewrite operatorToCnf_eq. intros H. eexists; exact H. Qed.

Lemma In_magnitudes m cl :
  In m (magnitudes cl) <-> exists c l, In c cl /\ In l c /\ m = Z.abs l.
Proof.
  unfold magnitudes. rewrite in_map_iff. split.
  - intros (l & <- & Hl). apply in_concat in Hl. destruct Hl as (c & Hc & Hl). eauto.
  - intros (c & l & Hc & Hl & ->). exists l. split; [reflexivity|].
    apply in_concat. eauto.
Qed.

(** A magnitude of the output is a variable of the formula or lies between
    the initial and the final counter value. *)
Lemma output_magnitudes self nb cl nb' :
  compiles_to self nb cl nb' -> 0 <= nb ->
  (forall v, In v (variables self) -> 1 <= v) ->
  nb <= nb' /\
  forall m, In m (magnitudes cl) -> In m (variables self) \/ nb <= m < nb'.
Proof.
  intros Hc Hnb Hv. apply compiles_to_output_literals in Hc. destruct Hc as [Hle H].
  split; [exact Hle|]. intros m Hm. apply In_magnitudes in Hm.
  destruct Hm as (c & l & Hc & Hl & ->).
  destruct (H c l Hc Hl) as [(v & Hin & E)|(a & Ha & E)].
  - left. specialize (Hv v Hin).
    replace (Z.abs l) with v by lia. exact Hin.
  - right. lia.
Qed.

(** C1. For a formula [F] whose variables are numbered from 1 and below
    the seed [n] of the counter, [operatorToCnf] returns clauses such that
    an assignment satisfies [F] exactly when it can be changed on the
    auxiliary variables [n .. n'-1] alone into an assignment satisfying
    every clause; in particular the clause list is satisfiable exactly
    when [F] is. *)
Theorem C1_equisatisfiable (F : Operator) (n nb0 : Z) :
  1 <= n ->
  (forall v, In v (variables F) -> 1 <= v < n) ->
  exists cl n',
    operatorToCnf F n nb0 = Some (cl, n') /\
    (forall A, holds A F = true <->
               exists B, extends_over n n' A B /\ cnf_holds B cl = true) /\
    (satisfiable_formula F <-> satisfiable_cnf cl).
Proof.
  intros Hn Hv.
  destruct (operatorToCnf_total F n nb0) as (cl & n' & E).
  exists cl, n'. split; [exact E|].
  apply operatorToCnf_compiles_to in E.
  pose proof (compiles_to_sound _ _ _ _ E) as Hs.
  pose proof (compiles_to_complete _ _ _ _ E Hn Hv) as Hc.
  assert (Hv1 : forall v, In v (variables F) -> 1 <= v)
    by (intros v Hin; specialize (Hv v Hin); lia).
  split; [intros A; split|split].
  - apply Hc.
  - intros (B & Hext & HB).
    rewrite (holds_agree A B F); [apply Hs; auto|].
    intros v Hin. symmetry. apply Hext. left. apply Hv. exact Hin.
  - intros [A HA]. destruct (Hc A HA) as (B & _ & HB). exists B. exact HB.
  - intros [B HB]. exists B. apply Hs; auto.
Qed.

Lemma C1_equisatisfiable_witness :
  exists cl n',
    operatorToCnf (Or [] [] [And [1] [] []; And [2] [] []]) 10 0 = Some (cl, n') /\
    (forall A, holds A (Or [] [] [And [1] [] []; And [2] [] []]) = true <->
               exists B, extends_over 10 n' A B /\ cnf_holds B cl = true) /\
    (satisfiable_formula (Or [] [] [And [1] [] []; And [2] [] []])
     <-> satisfiable_cnf cl).
Proof.
  apply (C1_equisatisfiable (Or [] [] [And [1] [] []; And [2] [] []]) 10 0).
  - lia.
  - simpl. intros v [<-|[<-|[]]]; lia.
Defined.

(** C2, as amended.  For a formula whose variables are numbered from 1 and
    strictly below the seed [n], the counter ends at some [n' = n + k] with
    [k >= 0] the number of auxiliary variables allocated, every magnitude
    of the output below [n] is a variable of the formula, every magnitude
    that is not a variable of the formula lies in [n .. n+k-1], and each
    number of [n .. n+k-1] is a magnitude of the output. *)
Theorem C2_fresh_variables (F : Operator) (n nb0 : Z) :
  0 <= n ->
  (forall v, In v (variables F) -> 1 <= v < n) ->
  exists cl n' k,
    operatorToCnf F n nb0 = Some (cl, n') /\
    n' = n + k /\ 0 <= k /\
    (forall m, In m (magnitudes cl) ->
       (1 <= m < n -> In m (variables F)) /\
       (~ In m (variables F) -> n <= m < n + k)) /\
    (forall a, n <= a < n + k -> In a (magnitudes cl)).
Proof.
  intros Hn Hv.
  destruct (operatorToCnf_total F n nb0) as (cl & n' & E).
  exists cl, n', (n' - n). split; [exact E|].
  apply operatorToCnf_compiles_to in E.
  destruct (output_magnitudes _ _ _ _ E Hn) as [Hle H].
  { intros v Hin. specialize (Hv v Hin). lia. }
  split; [lia|]. split; [lia|]. split.
  - intros m Hm. destruct (H m Hm) as [Hin|Hr]; split; intros; try tauto; lia.
  - intros a Ha.
    destruct (compiles_to_allocated_occur _ _ _ _ E a ltac:(lia)) as (c & Hc & Hac).
    apply In_magnitudes. exists c, a. repeat split; auto. lia.
Qed.

Lemma C2_fresh_variables_witness :
  exists cl n' k,
    operatorToCnf (Or [1] [] [And [1] [] []]) 5 0 = Some (cl, n') /\
    n' = 5 + k /\ 0 <= k /\
    (forall m, In m (magnitudes cl) ->
       (1 <= m < 5 -> In m (variables (Or [1] [] [And [1] [] []]))) /\
       (~ In m (variables (Or [1] [] [And [1] [] []])) -> 5 <= m < 5 + k)) /\
    (forall a, 5 <= a < 5 + k -> In a (magnitudes cl)).
Proof.
  apply (C2_fresh_variables (Or [1] [] [And [1] [] []]) 5 0).
  - lia.
  - simpl. intros v [<-|[<-|[]]]; lia.
Defined.

(** C2 as it is worded fails: with the variables of the formula allowed
    up to [n] itself, the first auxiliary variable is [n], a magnitude in
    [1 .. n] of the output that no literal list of the formula holds. *)
Lemma C2_counterexample :
  (forall v, In v (variables (Or [1] [] [And [1] [] []])) -> 1 <= v <= 5) /\
  operatorToCnf (Or [1] [] [And [1] [] []]) 5 0 = Some ([[1; -5]; [1; 5]], 6) /\
  ~ (forall m, In m (magnitudes [[1; -5]; [1; 5]]) -> 1 <= m <= 5 ->
               In m (variables (Or [1] [] [And [1] [] []]))).
Proof.
  split; [|split].
  - simpl. intros v [<-|[<-|[]]]; lia.
  - vm_compute. reflexivity.
  - intros H. specialize (H 5). simpl in H.
    destruct H as [H|[H|[]]]; [tauto|lia|discriminate|discriminate].
Qed.

Lemma compile_siblings_eq FA FB n nb0 ca n1 cb n2 :
  operatorToCnf FA n nb0 = Some (ca, n1) ->
  operatorToCnf FB n1 nb0 = Some (cb, n2) ->
  compile_siblings FA FB n nb0 = Some ((ca, cb), n2).
Proof.
  intros EA EB. unfold compile_siblings, bind at 1. rewrite EA.
  unfold bind. rewrite operatorToCnf_eq in EB. rewrite EB. reflexivity.
Qed.

Lemma operatorToCnf_And_pair FA FB n nb0 ca n1 cb n2 :
  operatorToCnf FA n nb0 = Some (ca, n1) ->
  operatorToCnf FB n1 nb0 = Some (cb, n2) ->
  operatorToCnf (And [] [] [FA; FB]) n nb0 = Some (ca ++ cb, n2).
Proof.
  intros EA EB. rewrite operatorToCnf_eq, aux_And_eq.
  cbn [concat_cnf]. unfold bind.
  rewrite (aux_operatorToCnf_enough _ FA n nb0) by (simpl; lia). rewrite EA.
  rewrite (aux_operatorToCnf_enough _ FB n1 nb0) by (simpl; lia). rewrite EB.
  unfold ret. simpl. rewrite !app_nil_r. reflexivity.
Qed.

(** C3. No call of the compiler leaves the counter below the value it
    found, and of two sibling formulas compiled one after the other from
    the shared counter, the second receives no auxiliary magnitude that
    occurs in the output of the first: every magnitude of the second output
    that is not one of its own variables is absent from the first output.
    The two outputs are the two halves of what the parent [And] node
    compiles to. *)
Theorem C3_shared_counter (FA FB : Operator) (n nb0 : Z) :
  0 <= n ->
  (forall v, In v (variables FA) -> 1 <= v < n) ->
  (forall v, In v (variables FB) -> 1 <= v < n) ->
  exists ca n1 cb n2,
    operatorToCnf FA n nb0 = Some (ca, n1) /\
    compile_siblings FA FB n nb0 = Some ((ca, cb), n2) /\
    operatorToCnf (And [] [] [FA; FB]) n nb0 = Some (ca ++ cb, n2) /\
    n <= n1 <= n2 /\
    (forall m, In m (magnitudes cb) -> ~ In m (variables FB) ->
               ~ In m (magnitudes ca)) /\
    (forall F nb cl nb', compiles_to F nb cl nb' -> nb <= nb').
Proof.
  intros Hn HA HB.
  destruct (operatorToCnf_total FA n nb0) as (ca & n1 & EA).
  destruct (operatorToCnf_total FB n1 nb0) as (cb & n2 & EB).
  exists ca, n1, cb, n2.
  split; [exact EA|].
  split; [eapply compile_siblings_eq; eauto|].
  split; [eapply operatorToCnf_And_pair; eauto|].
  apply operatorToCnf_compiles_to in EA, EB.
  destruct (output_magnitudes _ _ _ _ EA Hn) as [HleA HmA].
  { intros v Hin. specialize (HA v Hin). lia. }
  destruct (output_magnitudes _ _ _ _ EB ltac:(lia)) as [HleB HmB].
  { intros v Hin. specialize (HB v Hin). lia. }
  split; [lia|]. split.
  - intros m Hb Hnot Ha.
    destruct (HmB m Hb) as [Hin|Hr]; [tauto|].
    destruct (HmA m Ha) as [Hin|Hr']; [specialize (HA m Hin)|]; lia.
  - intros F nb cl nb' H. apply compiles_to_output_literals in H. apply H.
Qed.

Lemma C3_shared_counter_witness :
  exists ca n1 cb n2,
    operatorToCnf (Or [] [] [And [1] [] []; And [2] [] []]) 10 0 = Some (ca, n1) /\
    compile_siblings (Or [] [] [And [1] [] []; And [2] [] []])
                     (Or [3] [] [And [1] [2] []]) 10 0 = Some ((ca, cb), n2) /\
    operatorToCnf (And [] [] [Or [] [] [And [1] [] []; And [2] [] []];
                              Or [3] [] [And [1] [2] []]]) 10 0
      = Some (ca ++ cb, n2) /\
    10 <= n1 <= n2 /\
    (forall m, In m (magnitudes cb) ->
               ~ In m (variables (Or [3] [] [And [1] [2] []])) ->
               ~ In m (magnitudes ca)) /\
    (forall F nb cl nb', compiles_to F nb cl nb' -> nb <= nb').
Proof.
  apply (C3_shared_counter (Or [] [] [And [1] [] []; And [2] [] []])
                           (Or [3] [] [And [1] [2] []]) 10 0).
  - lia.
  - simpl. intros v [<-|[<-|[]]]; lia.
  - simpl. intros v [<-|[<-|[<-|[]]]]; lia.
Defined.

(** A second call of [operatorToCnf] seeds the counter again: two calls
    with the same seed hand out the same auxiliary numbers.  Sharing the
    counter between siblings is the business of the caller, who compiles
    them under one parent node. *)
Lemma operatorToCnf_seeds_again :
  operatorToCnf (Or [] [] [And [1] [] []; And [2] [] []]) 10 0
  = Some ([[1; -10]; [2; -11]; [10; 11]], 12) /\
  operatorToCnf (Or [3] [] [And [1] [2] []]) 10 12
  = Some ([[1; -10]; [-2; -10]; [3; 10]], 11).
Proof. split; vm_compute; reflexivity. Qed.

(** C5. [Or([], [], [And([1],[],[]), And([2],[],[])])] compiled with the
    counter at 10 gives [[1,-10],[2,-11],[10,11]], that is
    (x1 or not a) and (x2 or not b) and (a or b) with a = 10 and b = 11,
    and leaves the counter at 12; an assignment satisfies x1 or x2 exactly
    when it agrees on x1 and x2 with one satisfying the clauses, and both
    are satisfiable. *)
Theorem C5_or_of_two_ands (nb0 : Z) :
  operatorToCnf (Or [] [] [And [1] [] []; And [2] [] []]) 10 nb0
  = Some ([[1; -10]; [2; -11]; [10; 11]], 12) /\
  (forall B, cnf_holds B [[1; -10]; [2; -11]; [10; 11]]
             = (B 1 || negb (B 10)) && (B 2 || negb (B 11)) && (B 10 || B 11)) /\
  (forall A, A 1 || A 2 = true <->
             exists B, B 1 = A 1 /\ B 2 = A 2 /\
                       cnf_holds B [[1; -10]; [2; -11]; [10; 11]] = true) /\
  (satisfiable_cnf [[1; -10]; [2; -11]; [10; 11]] <-> exists A, A 1 || A 2 = true).
Proof.
  assert (Hread : forall B, cnf_holds B [[1; -10]; [2; -11]; [10; 11]]
             = (B 1 || negb (B 10)) && (B 2 || negb (B 11)) && (B 10 || B 11)).
  { intros B. unfold cnf_holds, clause_holds, lit_holds. simpl.
    destruct (B 1), (B 2), (B 10), (B 11); reflexivity. }
  assert (Hproj : forall A, A 1 || A 2 = true <->
             exists B, B 1 = A 1 /\ B 2 = A 2 /\
                       cnf_holds B [[1; -10]; [2; -11]; [10; 11]] = true).
  { intros A. split.
    - intros HA.
      exists (fun v => if v =? 10 then A 1 else if v =? 11 then A 2 else A v).
      rewrite Hread. simpl. destruct (A 1), (A 2); auto.
    - intros (B & <- & <- & HB). rewrite Hread in HB.
      destruct (B 1), (B 2), (B 10), (B 11); auto. }
  split; [vm_compute; reflexivity|]. split; [exact Hread|]. split; [exact Hproj|].
  split.
  - intros [B HB]. exists B. apply Hproj. exists B. auto.
  - intros [A HA]. apply Hproj in HA. destruct HA as (B & _ & _ & HB). exists B. exact HB.
Qed.

(** C6. [Or([], [], [])] compiles to [[[]]], the single empty clause, which
    no assignment satisfies; the counter is left where it was and the
    compiler returns for every recursion budget but the empty one. *)
Theorem C6_empty_or (n nb0 : Z) :
  operatorToCnf (Or [] [] []) n nb0 = Some ([[]], n) /\
  (forall fuel nb, aux_operatorToCnf (S fuel) (Or [] [] []) nb = Some ([[]], nb)) /\
  (forall A, cnf_holds A [[]] = false) /\
  (forall A, holds A (Or [] [] []) = false).
Proof.
  assert (H : forall fuel nb,
             aux_operatorToCnf (S fuel) (Or [] [] []) nb = Some ([[]], nb)).
  { intros fuel nb. rewrite aux_Or_eq. simpl.
    unfold bind, get_NB_VARS, set_NB_VARS, ret.
    replace (nb + len (@nil Operator)) with nb by (unfold len; simpl; lia).
    replace (range nb nb) with (@nil Z)
      by (unfold range; rewrite Z.sub_diag; reflexivity).
    reflexivity. }
  split; [rewrite operatorToCnf_eq; apply H|].
  split; [exact H|]. split; reflexivity.
Qed.

(** The two rewritings of [flatten_collapse] at work: a literal-free node with one
    child gives way to that child, and a child of its parent's type is
    merged into the parent. *)
Lemma flatten_collapse_collapse fuel q :
  flatten_collapse (S fuel) (And [] [] [q]) = flatten_collapse fuel q /\
  flatten_collapse (S fuel) (Or [] [] [q]) = flatten_collapse fuel q.
Proof. split; reflexivity. Qed.

Lemma flatten_collapse_flatten_example :
  flatten_collapse 4 (And [1] [] [And [2] [3] [Or [4] [] []]; Or [] [] [And [5] [] []]])
  = Some (And [1; 2] [3] [Or [4] [] []; And [5] [] []]).
Proof. vm_compute. reflexivity. Qed.

(** C10. [Or(P, N, [Or([], [], G)])] and [Or(P, N, G)] compile to the same
    clause list and leave the same counter value, whatever [G] is: the
    call on the former is the call on the latter. *)
Theorem C10_single_child_unwrap (P N : list Z) (G : list Operator) (n nb0 : Z) :
  (exists cl n',
     operatorToCnf (Or P N [Or [] [] G]) n nb0 = Some (cl, n') /\
     operatorToCnf (Or P N G) n nb0 = Some (cl, n')) /\
  (forall fuel nb,
     aux_operatorToCnf (S fuel) (Or P N [Or [] [] G]) nb
     = aux_operatorToCnf fuel (Or P N G) nb).
Proof.
  split.
  - destruct (operatorToCnf_total (Or P N G) n nb0) as (cl & n' & E).
    exists cl, n'. split; [|exact E].
    rewrite <- E, operatorToCnf_eq, aux_Or_eq. simpl single_bare_or.
    apply aux_operatorToCnf_enough. simpl. lia.
  - intros fuel nb. rewrite aux_Or_eq. reflexivity.
Qed.

End FormulasFacts.

(* ===================================================================== *)
(** ** Facts about the weighted clauses and the wait transition *)
(* ===================================================================== *)

Module ArtefactsFacts.
Import ConformanceArtefacts FormulasFacts.

(** *** The loops of [__createWncf] *)

Lemma append_soft w c :
  append w c WEIGHT_ON_CLAUSES_TO_REDUCE
  = mkWCNF (hard w) (soft w ++ [c]) (wght w ++ [WEIGHT_ON_CLAUSES_TO_REDUCE]).
Proof. reflexivity. Qed.

Lemma inner_loop (lit : Z -> Z) (ds : list Z) : forall w,
  fold_left (fun s d => append s [lit d] WEIGHT_ON_CLAUSES_TO_REDUCE) ds w
  = mkWCNF (hard w)
           (soft w ++ map (fun d => [lit d]) ds)
           (wght w ++ map (fun _ => WEIGHT_ON_CLAUSES_TO_REDUCE) ds).
Proof.
  induction ds as [|d r IH]; intros w; simpl.
  - rewrite !app_nil_r. destruct w; reflexivity.
  - rewrite IH, append_soft. simpl. rewrite <- !app_assoc. reflexivity.
Qed.

Lemma outer_loop (lit : Z -> Z -> Z) (m : Z) (js : list Z) : forall w,
  fold_left
    (fun s j => for_range 1 (m + 1)
                  (fun d wcnf => append wcnf [lit j d] WEIGHT_ON_CLAUSES_TO_REDUCE) s)
    js w
  = mkWCNF (hard w)
      (soft w ++ flat_map (fun j => map (fun d => [lit j d]) (range 1 (m + 1))) js)
      (wght w ++ flat_map (fun j => map (fun _ => WEIGHT_ON_CLAUSES_TO_REDUCE)
                                        (range 1 (m + 1))) js).
Proof.
  induction js as [|j r IH]; intros w; simpl.
  - rewrite !app_nil_r. destruct w; reflexivity.
  - rewrite IH. unfold for_range. rewrite inner_loop. simpl.
    rewrite <- !app_assoc. reflexivity.
Qed.

Lemma combine_map_app {B C : Type} (g : B -> C) (W : Z) (r : list B)
  (X : list C) (Y : list Z) :
  combine (map g r ++ X) (map (fun _ => W) r ++ Y)
  = map (fun d => (g d, W)) r ++ combine X Y.
Proof. induction r as [|d r IH]; simpl; [reflexivity|]. f_equal. exact IH. Qed.

Lemma combine_flat_map {A B C : Type} (f : A -> B -> C) (W : Z)
  (l : list A) (r : list B) :
  combine (flat_map (fun j => map (fun d => f j d) r) l)
          (flat_map (fun j => map (fun _ => W) r) l)
  = map (fun jd => (f (fst jd) (snd jd), W))
        (flat_map (fun j => map (fun d => (j, d)) r) l).
Proof.
  induction l as [|j l IH]; simpl; [reflexivity|].
  rewrite map_app, map_map. simpl. rewrite <- IH. apply combine_map_app.
Qed.

(** The soft clauses left by the two nested loops. *)
Lemma loops_soft_entries (lit : Z -> Z -> Z) (n m : Z) (cnf : list clause) :
  soft_entries
    (for_range 0 n
       (fun j => for_range 1 (m + 1)
          (fun d wcnf => append wcnf [lit j d] WEIGHT_ON_CLAUSES_TO_REDUCE))
       (extend WCNF_new cnf))
  = map (fun jd => ([lit (fst jd) (snd jd)], WEIGHT_ON_CLAUSES_TO_REDUCE))
        (index_pairs n m).
Proof.
  unfold for_range at 1. rewrite outer_loop. unfold soft_entries, index_pairs. simpl.
  apply (combine_flat_map (fun j d => [lit j d])).
Qed.

Lemma NoDup_range lo hi : NoDup (range lo hi).
Proof.
  unfold range. apply NoDup_map_NoDup_ForallPairs; [|apply seq_NoDup].
  intros x y _ _ H. lia.
Qed.

Lemma In_index_pairs n m j d :
  In (j, d) (index_pairs n m) <-> 0 <= j < n /\ 1 <= d <= m.
Proof.
  unfold index_pairs. rewrite in_flat_map. split.
  - intros (j' & Hj & Hd). apply in_map_iff in Hd. destruct Hd as (d' & E & Hd).
    inversion E; subst. apply In_range in Hj, Hd. lia.
  - intros [Hj Hd]. exists j. split; [apply In_range; lia|].
    apply in_map_iff. exists d. split; [reflexivity|apply In_range; lia].
Qed.

Lemma NoDup_pairs (ds js : list Z) :
  NoDup ds -> NoDup js -> NoDup (flat_map (fun j => map (fun d => (j, d)) ds) js).
Proof.
  intros Hds. induction 1 as [|j r Hj Hr IH]; simpl; [constructor|].
  apply NoDup_app.
  - apply NoDup_map_NoDup_ForallPairs; [|exact Hds].
    intros x y _ _ E. inversion E. reflexivity.
  - exact IH.
  - intros [j' d] H1 H2. apply in_map_iff in H1. destruct H1 as (d' & E & _).
    inversion E; subst. apply in_flat_map in H2. destruct H2 as (j0 & Hj0 & H2).
    apply in_map_iff in H2. destruct H2 as (d0 & E0 & _). inversion E0; subst.
    contradiction.
Qed.

Lemma NoDup_index_pairs n m : NoDup (index_pairs n m).
Proof. apply NoDup_pairs; apply NoDup_range. Qed.

(** C8. Whatever the formulas and the artefact, [__createWncf] returns,
    and the soft clauses of the result are, in order, one unit clause for
    each index pair of the two nested loops (each pair occurring once:
    trace index [j] with [0 <= j < len(traces)], and [d] in [1 .. max_d]
    for the edit distance or [i] in [1 .. size_of_run] for the Hamming
    distance), of weight [WEIGHT_ON_CLAUSES_TO_REDUCE = -10], the literal
    being the distance variable multiplied by [weightsOnVariables], which
    is [1] for the anti-alignment and [-1] for the multi-alignment and the
    exact alignment. *)
Theorem C8_soft_clauses (size_of_run max_d : Z) (solver : string) (net : option ref)
  (variables : VariablesGenerator) (traces : list (list string))
  (initialisationFormulas distanceFormula : list Operator)
  (artefact : string) (nb0 : Z) :
  (exists w nb',
     createWncf
       (mkConformanceArtefacts size_of_run max_d EDIT_DISTANCE solver net
                               variables traces)
       initialisationFormulas distanceFormula artefact nb0 = Some (w, nb') /\
     soft_entries w
     = map (fun jd =>
              ([weightsOnVariables artefact *
                getVarNumber variables BOOLEAN_VAR_EDIT_DISTANCE
                  [fst jd; size_of_run; size_of_run; snd jd]],
               WEIGHT_ON_CLAUSES_TO_REDUCE))
           (index_pairs (len traces) max_d)) /\
  (exists w nb',
     createWncf
       (mkConformanceArtefacts size_of_run max_d HAMMING_DISTANCE solver net
                               variables traces)
       initialisationFormulas distanceFormula artefact nb0 = Some (w, nb') /\
     soft_entries w
     = map (fun ji =>
              ([weightsOnVariables artefact *
                getVarNumber variables BOOLEAN_VAR_EDIT_DISTANCE [fst ji; snd ji]],
               WEIGHT_ON_CLAUSES_TO_REDUCE))
           (index_pairs (len traces) size_of_run)) /\
  (forall n m,
     NoDup (index_pairs n m) /\
     forall j d, In (j, d) (index_pairs n m) <-> 0 <= j < n /\ 1 <= d <= m) /\
  WEIGHT_ON_CLAUSES_TO_REDUCE = -10 /\
  weightsOnVariables ANTI_ALIGNMENT = 1 /\
  weightsOnVariables MULTI_ALIGNMENT = -1 /\
  weightsOnVariables EXACT_ALIGNMENT = -1.
Proof.
  destruct (operatorToCnf_total
              (And [] [] (initialisationFormulas ++ distanceFormula))
              (iterator variables) nb0) as (cnf & nb' & E).
  split; [|split; [|split]].
  - unfold createWncf, bind. cbn [ConformanceArtefacts.variables distance_type].
    rewrite E.
    change (String.eqb EDIT_DISTANCE EDIT_DISTANCE) with true. cbv iota.
    unfold ret. eexists; eexists; split; [reflexivity|].
    cbn [ConformanceArtefacts.traces ConformanceArtefacts.max_d
         ConformanceArtefacts.size_of_run].
    apply (loops_soft_entries
             (fun j d => weightsOnVariables artefact *
                         getVarNumber variables BOOLEAN_VAR_EDIT_DISTANCE
                           [j; size_of_run; size_of_run; d])).
  - unfold createWncf, bind. cbn [ConformanceArtefacts.variables distance_type].
    rewrite E.
    change (String.eqb HAMMING_DISTANCE EDIT_DISTANCE) with false.
    change (String.eqb HAMMING_DISTANCE HAMMING_DISTANCE) with true. cbv iota.
    unfold ret. eexists; eexists; split; [reflexivity|].
    cbn [ConformanceArtefacts.traces ConformanceArtefacts.max_d
         ConformanceArtefacts.size_of_run].
    apply (loops_soft_entries
             (fun j i => weightsOnVariables artefact *
                         getVarNumber variables BOOLEAN_VAR_EDIT_DISTANCE [j; i])).
  - intros n m. split; [apply NoDup_index_pairs|]. intros j d. apply In_index_pairs.
  - repeat split; reflexivity.
Qed.

(** *** The wait transition *)

Lemma wait_loop_invariant : forall ps seen net_arcs w seen' arcs' w',
  fold_left wait_loop_body ps (seen, net_arcs, w) = (seen', arcs', w') ->
  t_name w' = t_name w /\ t_label w' = t_label w /\
  (forall a, In a net_arcs -> In a arcs') /\
  (forall p, In p ps -> p_out_arcs p = [] ->
     In (mkArc (PlaceNode (p_name p)) (TransitionNode (t_name w))) arcs' /\
     In (mkArc (TransitionNode (t_name w)) (PlaceNode (p_name p))) arcs' /\
     In (mkArc (PlaceNode (p_name p)) (TransitionNode (t_name w))) (t_in_arcs w') /\
     In (mkArc (TransitionNode (t_name w)) (PlaceNode (p_name p))) (t_out_arcs w')) /\
  (forall a, In a (t_in_arcs w) -> In a (t_in_arcs w')) /\
  (forall a, In a (t_out_arcs w) -> In a (t_out_arcs w')).
Proof.
  induction ps as [|p ps IH]; intros seen net_arcs w seen' arcs' w' H.
  - simpl in H. inversion H; subst.
    split; [reflexivity|]. split; [reflexivity|]. split; [auto|].
    split; [intros q []|]. split; auto.
  - cbn [fold_left] in H.
    destruct (wait_loop_body (seen, net_arcs, w) p) as [[s1 a1] w1] eqn:Eb.
    unfold wait_loop_body in Eb.
    destruct (len (p_out_arcs p) =? 0) eqn:E; inversion Eb; subst; clear Eb.
    + apply IH in H. simpl in H.
      destruct H as (Hn & Hl & Harcs & Hps & Hin & Hout).
      split; [exact Hn|]. split; [exact Hl|].
      split; [intros a Ha; apply Harcs, in_app_iff; auto|].
      split; [|split; intros a Ha; [apply Hin|apply Hout]; apply in_app_iff; auto].
      intros q [<-|Hq] Hq0; [|apply (Hps q Hq Hq0)].
      split; [apply Harcs, in_app_iff; right; simpl; auto|].
      split; [apply Harcs, in_app_iff; right; simpl; auto|].
      split; [apply Hin|apply Hout]; apply in_app_iff; right; simpl; auto.
    + apply IH in H. destruct H as (Hn & Hl & Harcs & Hps & Hin & Hout).
      split; [exact Hn|]. split; [exact Hl|]. split; [exact Harcs|].
      split; [|split; assumption].
      intros q [<-|Hq] Hq0; [|apply (Hps q Hq Hq0)].
      rewrite Hq0 in E. discriminate.
Qed.

(** What [__add_wait_net] does to the net it works on: one more
    transition, named and labelled [w], and for every place without
    outgoing arcs the two arcs of a loop through that transition. *)
Lemma add_wait_to_spec (n : PetriNet) :
  exists w n',
    add_wait_to n = (w, n') /\
    t_name w = WAIT_TRANSITION /\ t_label w = WAIT_TRANSITION /\
    transitions n' = transitions n ++ [w] /\
    (forall a, In a (arcs n) -> In a (arcs n')) /\
    (forall p, In p (places n) -> p_out_arcs p = [] ->
       In (mkArc (PlaceNode (p_name p)) (TransitionNode WAIT_TRANSITION)) (arcs n') /\
       In (mkArc (TransitionNode WAIT_TRANSITION) (PlaceNode (p_name p))) (arcs n')).
Proof.
  unfold add_wait_to.
  destruct (fold_left wait_loop_body (places n)
              ([], arcs n, mkTransition WAIT_TRANSITION WAIT_TRANSITION [] []))
    as [[places' arcs'] w'] eqn:E.
  apply wait_loop_invariant in E. simpl in E.
  destruct E as (Hn & Hl & Harcs & Hps & _ & _).
  exists w', (mkPetriNet places' (transitions n ++ [w']) arcs').
  split; [reflexivity|]. split; [exact Hn|]. split; [exact Hl|].
  split; [reflexivity|]. split; [exact Harcs|].
  intros q Hq Hq0. destruct (Hps q Hq Hq0) as (H1 & H2 & _). auto.
Qed.

(** [multiAlignment] and [antiAlignment] write to the net they are given. *)
Lemma multiAlignment_writes_to_its_net self h net :
  multiAlignment self h net
  = Returned (set_net self net, fst (add_wait_to (h net)),
              store_set h net (snd (add_wait_to (h net)))) /\
  antiAlignment self h net = multiAlignment self h net.
Proof.
  unfold multiAlignment, antiAlignment, add_wait_net. simpl.
  destruct (add_wait_to (h net)); auto.
Qed.

(** C9, where the code departs from it.  [exactAlignment] never assigns
    [self.__net]: on a new object it raises [AttributeError] whatever net
    it is given, and after [multiAlignment] has been run on the net [0] it
    leaves the net [1] it is given as it was and adds a second wait
    transition to the net [0]. *)
Theorem C9_exactAlignment_ignores_its_net :
  (forall size_of_run max_d distance solver variables traces h net,
     exactAlignment (init size_of_run max_d distance solver variables traces) h net
     = AttributeError "_ConformanceArtefacts__net") /\
  (forall size_of_run max_d distance solver variables traces,
     exists self1 w1 h1 w2 h2,
       multiAlignment (init size_of_run max_d distance solver variables traces)
                      two_nets 0%nat = Returned (self1, w1, h1) /\
       exactAlignment self1 h1 1%nat = Returned (self1, w2, h2) /\
       h2 1%nat = net_b /\
       map t_label (transitions (h1 0%nat)) = ["a"; "w"]%string /\
       map t_label (transitions (h2 0%nat)) = ["a"; "w"; "w"]%string).
Proof.
  split.
  - reflexivity.
  - intros. do 5 eexists. split; [reflexivity|]. split; [reflexivity|].
    split; [reflexivity|]. split; reflexivity.
Qed.

End ArtefactsFacts.

(* ===================================================================== *)
(** ** Further facts about formulas *)
(* ===================================================================== *)

Module FormulasExtra.
Import FormulasFacts.

(** *** [negation] *)

Lemma forallb_map_negb {A : Type} (f g : A -> bool) (h : A -> A) (l : list A) :
  (forall x, In x l -> f (h x) = negb (g x)) ->
  forallb f (map h l) = negb (existsb g l) /\
  existsb f (map h l) = negb (forallb g l).
Proof.
  induction l as [|x r IH]; intros H; simpl; [auto|].
  rewrite H by (simpl; auto).
  destruct IH as [-> ->]; [intros; apply H; simpl; auto|].
  split; [rewrite negb_orb|rewrite negb_andb]; reflexivity.
Qed.

Lemma forallb_negb_existsb {A : Type} (f : A -> bool) (l : list A) :
  forallb (fun x => negb (f x)) l = negb (existsb f l) /\
  existsb (fun x => negb (f x)) l = negb (forallb f l).
Proof.
  induction l as [|x r [IH1 IH2]]; simpl; [auto|].
  rewrite IH1, IH2. split; [rewrite negb_orb|rewrite negb_andb]; reflexivity.
Qed.

Lemma holds_negation (A : assignment) (F : Operator) :
  holds A (negation F) = negb (holds A F).
Proof.
  induction F as [pos neg qbfs IH|pos neg qbfs IH] using Operator_tree_ind;
    cbn [negation holds]; rewrite Forall_forall in IH;
    destruct (forallb_map_negb (holds A) (holds A) negation qbfs IH) as [E1 E2];
    destruct (forallb_negb_existsb A pos) as [P1 P2];
    destruct (forallb_negb_existsb A neg) as [N1 N2].
  - rewrite E2, P2. rewrite !negb_andb.
    assert (En : existsb A neg = negb (forallb (fun v => negb (A v)) neg)).
    { rewrite N1. rewrite negb_involutive. reflexivity. }
    rewrite En.
    destruct (forallb A pos), (forallb (fun v => negb (A v)) neg),
      (forallb (holds A) qbfs); reflexivity.
  - rewrite E1, P1. rewrite !negb_orb.
    assert (En : forallb A neg = negb (existsb (fun v => negb (A v)) neg)).
    { rewrite N2. rewrite negb_involutive. reflexivity. }
    rewrite En.
    destruct (existsb A pos), (existsb (fun v => negb (A v)) neg),
      (existsb (holds A) qbfs); reflexivity.
Qed.

(** X1. [negation] negates: under every assignment the negated formula is
    true exactly when the formula is false, so that it is satisfiable
    exactly when the formula can be made false. *)
Theorem X1_negation_holds (F : Operator) :
  (forall A, holds A (negation F) = negb (holds A F)) /\
  (satisfiable_formula (negation F) <-> exists A, holds A F = false).
Proof.
  split; [intros A; apply holds_negation|].
  split; intros [A HA]; exists A.
  - rewrite holds_negation in HA. destruct (holds A F); [discriminate|reflexivity].
  - rewrite holds_negation, HA. reflexivity.
Qed.

(** X2. Negating twice gives the formula back, node for node. *)
Theorem X2_negation_involutive (F : Operator) :
  negation (negation F) = F.
Proof.
  induction F as [pos neg qbfs IH|pos neg qbfs IH] using Operator_tree_ind;
    cbn [negation]; f_equal; rewrite map_map;
    rewrite <- (map_id qbfs) at 2; apply map_ext_in;
    rewrite Forall_forall in IH; exact IH.
Qed.

Lemma In_variables_negation v F :
  In v (variables (negation F)) <-> In v (variables F).
Proof.
  induction F as [pos neg qbfs IH|pos neg qbfs IH] using Operator_tree_ind;
    cbn [negation variables]; rewrite Forall_forall in IH;
    rewrite !in_app_iff, !in_flat_map; split.
  - intros [H|[H|(q & Hq & Hv)]]; auto.
    apply in_map_iff in Hq. destruct Hq as (q0 & <- & Hq0).
    right; right. exists q0. split; [exact Hq0|]. apply IH; assumption.
  - intros [H|[H|(q & Hq & Hv)]]; auto.
    right; right. exists (negation q). split; [apply in_map; exact Hq|].
    apply IH; assumption.
  - intros [H|[H|(q & Hq & Hv)]]; auto.
    apply in_map_iff in Hq. destruct Hq as (q0 & <- & Hq0).
    right; right. exists q0. split; [exact Hq0|]. apply IH; assumption.
  - intros [H|[H|(q & Hq & Hv)]]; auto.
    right; right. exists (negation q). split; [apply in_map; exact Hq|].
    apply IH; assumption.
Qed.

(** X3. Compiling the negation of a formula whose variables are numbered
    from 1 and below the seed [n] gives clauses that an assignment can be
    extended to satisfy, over the auxiliary variables only, exactly when
    it makes the formula false. *)
Theorem X3_negation_compiled (F : Operator) (n nb0 : Z) :
  1 <= n ->
  (forall v, In v (variables F) -> 1 <= v < n) ->
  exists cl n',
    operatorToCnf (negation F) n nb0 = Some (cl, n') /\
    forall A, holds A F = false <->
              exists B, extends_over n n' A B /\ cnf_holds B cl = true.
Proof.
  intros Hn Hv.
  assert (Hv' : forall v, In v (variables (negation F)) -> 1 <= v < n)
    by (intros v Hin; apply Hv, In_variables_negation; exact Hin).
  destruct (operatorToCnf_total (negation F) n nb0) as (cl & n' & E).
  exists cl, n'. split; [exact E|].
  apply operatorToCnf_compiles_to in E.
  pose proof (compiles_to_sound _ _ _ _ E) as Hs.
  pose proof (compiles_to_complete _ _ _ _ E Hn Hv') as Hc.
  intros A. split.
  - intros HA. apply Hc. rewrite holds_negation, HA. reflexivity.
  - intros (B & Hext & HB).
    assert (HBn : holds B (negation F) = true).
    { apply Hs; auto. intros v Hin. specialize (Hv' v Hin). lia. }
    rewrite (holds_agree A B F).
    + rewrite holds_negation in HBn. destruct (holds B F); [discriminate|reflexivity].
    + intros v Hin. symmetry. apply Hext. left. apply Hv. exact Hin.
Qed.

Lemma X3_negation_compiled_witness :
  exists cl n',
    operatorToCnf (negation (And [1] [2] [Or [3] [] [And [1] [] []]])) 10 0
    = Some (cl, n') /\
    forall A, holds A (And [1] [2] [Or [3] [] [And [1] [] []]]) = false <->
              exists B, extends_over 10 n' A B /\ cnf_holds B cl = true.
Proof.
  apply (X3_negation_compiled (And [1] [2] [Or [3] [] [And [1] [] []]]) 10 0).
  - lia.
  - simpl. intros v [<-|[<-|[<-|[<-|[]]]]]; lia.
Defined.

(** *** The compiler on particular inputs *)

Lemma chain_clause_form qbfs nb cl nb' :
  chain (fun q nb cl nb' =>
           compiles_to q nb cl nb' /\
           (clause_form q = true ->
            (forall v, In v (variables q) -> 1 <= v) ->
            nb' = nb /\ forall B, cnf_holds B cl = holds B q))
        qbfs nb cl nb' ->
  forallb clause_form qbfs = true ->
  (forall v, In v (flat_map variables qbfs) -> 1 <= v) ->
  nb' = nb /\ forall B, cnf_holds B cl = forallb (holds B) qbfs.
Proof.
  induction 1 as [nb|q qs nb c1 nb1 cr nb2 [_ Hq] _ IH]; intros Hf Hv.
  - split; reflexivity.
  - simpl in Hf. apply andb_true_iff in Hf. destruct Hf as [Hf1 Hf2].
    destruct Hq as [-> Hq1]; [exact Hf1| |].
    { intros v Hin. apply Hv. simpl. apply in_app_iff. auto. }
    destruct IH as [-> IH2]; [exact Hf2| |].
    { intros v Hin. apply Hv. simpl. apply in_app_iff. auto. }
    split; [reflexivity|]. intros B. rewrite cnf_holds_app, Hq1, IH2. reflexivity.
Qed.

(** X5. A formula already in clause form (conjunctions of disjunctions of
    literals, variables numbered from 1) is compiled without any auxiliary
    variable: the counter stays at the seed, and the clauses have the truth
    value of the formula under every assignment. *)
Theorem X5_clause_form_compiled (F : Operator) (n nb0 : Z) :
  clause_form F = true ->
  (forall v, In v (variables F) -> 1 <= v) ->
  exists cl,
    operatorToCnf F n nb0 = Some (cl, n) /\
    forall B, cnf_holds B cl = holds B F.
Proof.
  intros Hf Hv.
  destruct (operatorToCnf_total F n nb0) as (cl & n' & E).
  assert (H : n' = n /\ forall B, cnf_holds B cl = holds B F).
  { apply operatorToCnf_compiles_to in E. revert Hf Hv.
    apply (compiles_to_ind
             (fun q nb cl nb' =>
                clause_form q = true ->
                (forall v, In v (variables q) -> 1 <= v) ->
                nb' = nb /\ forall B, cnf_holds B cl = holds B q)) with (5 := E);
      clear.
    - intros pos neg qbfs nb left nb' Hch Hf Hv. simpl in Hf, Hv.
      destruct (chain_clause_form _ _ _ _ Hch Hf) as [-> Hl].
      { intros v Hin. apply Hv. rewrite !in_app_iff. auto. }
      split; [reflexivity|]. intros B.
      rewrite !cnf_holds_app, Hl.
      rewrite units_pos_hold, units_neg_hold
        by (intros v Hin; apply Hv; rewrite !in_app_iff; auto).
      simpl. rewrite andb_assoc. reflexivity.
    - intros pos neg inner nb cl nb' _ Hf. discriminate.
    - intros pos neg nb _ Hv. split; [reflexivity|]. intros B. simpl in Hv.
      rewrite cnf_holds_single.
      rewrite dnf_holds by (intros v Hin; apply Hv; rewrite !in_app_iff; auto).
      simpl. rewrite !orb_false_r. reflexivity.
    - intros pos neg qbfs nb cl nb' _ Hne _ Hf. simpl in Hf.
      destruct qbfs; [contradiction|discriminate]. }
  destruct H as [-> H]. exists cl. split; [exact E|exact H].
Qed.

Lemma X5_clause_form_compiled_witness :
  exists cl,
    operatorToCnf (And [1] [] [Or [2] [3] []; And [] [4] [Or [5] [] []]]) 9 0
    = Some (cl, 9) /\
    forall B, cnf_holds B cl
              = holds B (And [1] [] [Or [2] [3] []; And [] [4] [Or [5] [] []]]).
Proof.
  apply (X5_clause_form_compiled
           (And [1] [] [Or [2] [3] []; And [] [4] [Or [5] [] []]]) 9 0).
  - reflexivity.
  - simpl. intros v [<-|[<-|[<-|[<-|[<-|[]]]]]]; lia.
Defined.

(** X7. Whatever the seed [n >= 1], even one that is not above the
    variables of the formula, every assignment satisfying the clauses
    satisfies the formula: a clash between auxiliary and original numbers
    can lose models, it cannot add any. *)
Theorem X7_sound_for_any_seed (F : Operator) (n nb0 : Z) :
  1 <= n ->
  (forall v, In v (variables F) -> 1 <= v) ->
  exists cl n',
    operatorToCnf F n nb0 = Some (cl, n') /\
    (forall B, cnf_holds B cl = true -> holds B F = true) /\
    (satisfiable_cnf cl -> satisfiable_formula F).
Proof.
  intros Hn Hv.
  destruct (operatorToCnf_total F n nb0) as (cl & n' & E).
  exists cl, n'. split; [exact E|].
  apply operatorToCnf_compiles_to in E.
  pose proof (compiles_to_sound _ _ _ _ E Hn Hv) as Hs.
  split; [exact Hs|]. intros [B HB]. exists B. apply Hs. exact HB.
Qed.

Lemma X7_sound_for_any_seed_witness :
  exists cl n',
    operatorToCnf (Or [2] [] [And [1] [2] []]) 2 0 = Some (cl, n') /\
    (forall B, cnf_holds B cl = true -> holds B (Or [2] [] [And [1] [2] []]) = true) /\
    (satisfiable_cnf cl -> satisfiable_formula (Or [2] [] [And [1] [2] []])).
Proof.
  apply (X7_sound_for_any_seed (Or [2] [] [And [1] [2] []]) 2 0).
  - lia.
  - simpl. intros v [<-|[<-|[<-|[]]]]; lia.
Defined.

(** *** The size of the output *)

Lemma list_sum_le {A : Type} (f g : A -> nat) (l : list A) :
  Forall (fun x => (f x <= g x)%nat) l ->
  (list_sum (map f l) <= list_sum (map g l))%nat.
Proof. induction 1; simpl; lia. Qed.

Lemma list_sum_plus {A : Type} (f g : A -> nat) (l : list A) :
  list_sum (map (fun x => (f x + g x)%nat) l)
  = (list_sum (map f l) + list_sum (map g l))%nat.
Proof. induction l as [|x r IH]; simpl; [reflexivity|]. rewrite IH. lia. Qed.

Lemma length_variables_children qbfs :
  length (flat_map variables qbfs)
  = list_sum (map (fun q => length (variables q)) qbfs).
Proof.
  induction qbfs as [|q r IH]; simpl; [reflexivity|].
  rewrite length_app, IH. reflexivity.
Qed.

Lemma clause_bound_distribute_child q var :
  clause_bound (distribute_child q var) = clause_bound_child q.
Proof.
  rewrite distribute_child_distributed.
  destruct q as [pos neg qbfs|pos neg qbfs]; [|reflexivity].
  cbn [distributed clause_bound clause_bound_child length].
  rewrite !map_app, !list_sum_app, !map_map.
  rewrite (list_sum_const pos _ 1%nat) by reflexivity.
  rewrite (list_sum_const neg _ 1%nat) by reflexivity.
  assert (E : list_sum (map (fun x => clause_bound (Or [] [var] [x])) qbfs)
              = list_sum (map (fun q => (1 + clause_bound_child q)%nat) qbfs)).
  { f_equal. apply map_ext. intros a. simpl. lia. }
  rewrite E. lia.
Qed.

Lemma aux_bound_distribute_child q var :
  S (aux_bound (distribute_child q var)) = nodes q.
Proof.
  rewrite distribute_child_distributed.
  destruct q as [pos neg qbfs|pos neg qbfs]; [|reflexivity].
  cbn [distributed aux_bound nodes].
  rewrite !map_app, !list_sum_app, !map_map.
  rewrite (list_sum_const pos _ 0%nat) by reflexivity.
  rewrite (list_sum_const neg _ 0%nat) by reflexivity.
  f_equal. simpl. f_equal. apply map_ext. intros a. simpl. lia.
Qed.

Lemma bounds_mapi_distribute (g : nat -> Z) qbfs : forall i,
  list_sum (map clause_bound (mapi_from (fun i q => distribute_child q (g i)) i qbfs))
  = list_sum (map clause_bound_child qbfs) /\
  (list_sum (map aux_bound (mapi_from (fun i q => distribute_child q (g i)) i qbfs))
   + length qbfs = list_sum (map nodes qbfs))%nat.
Proof.
  induction qbfs as [|q qs IH]; intros i; simpl; [auto|].
  destruct (IH (S i)) as [IH1 IH2].
  rewrite clause_bound_distribute_child, IH1.
  pose proof (aux_bound_distribute_child q (g i)). split; lia.
Qed.

(** What the bounds bound. *)
Lemma compiles_to_bounded self nb cl nb' :
  compiles_to self nb cl nb' ->
  (length cl <= clause_bound self)%nat /\ nb' - nb <= Z.of_nat (aux_bound self).
Proof.
  apply (compiles_to_ind
           (fun self nb cl nb' =>
              (length cl <= clause_bound self)%nat /\
              nb' - nb <= Z.of_nat (aux_bound self))); clear self nb cl nb'.
  - intros pos neg qbfs nb left nb' Hch.
    assert (H : (length left <= list_sum (map clause_bound qbfs))%nat /\
                nb' - nb <= Z.of_nat (list_sum (map aux_bound qbfs))).
    { induction Hch as [nb|q qs nb c1 nb1 cr nb2 [_ [H1 H2]] _ [IH1 IH2]];
        simpl; [split; lia|].
      rewrite length_app. unfold clause in *. split; lia. }
    destruct H as [H1 H2]. cbn [clause_bound aux_bound].
    rewrite !length_app, !length_map. unfold clause in *. split; lia.
  - intros pos neg inner nb cl nb' [_ [H1 H2]].
    cbn [clause_bound clause_bound_child aux_bound nodes map list_sum fold_right]
      in *.
    unfold clause in *. split; lia.
  - intros pos neg nb. cbn [clause_bound aux_bound map list_sum length]. split; lia.
  - intros pos neg qbfs nb cl nb' _ _ [_ [H1 H2]].
    destruct (bounds_mapi_distribute (fun i => nb + Z.of_nat i) qbfs 0%nat) as [B1 B2].
    unfold mapi in *. cbn [clause_bound aux_bound length] in H1, H2.
    rewrite B1 in H1. cbn [clause_bound aux_bound].
    rewrite length_app. cbn [length]. unfold len, clause in *. split; lia.
Qed.

Lemma bounds_by_size F :
  (clause_bound F <= clause_bound_child F)%nat /\
  (S (clause_bound_child F) <= length (variables F) + 2 * nodes F)%nat /\
  (S (aux_bound F) <= nodes F)%nat.
Proof.
  induction F as [pos neg qbfs IH|pos neg qbfs IH] using Operator_tree_ind;
    cbn [clause_bound clause_bound_child aux_bound nodes variables];
    rewrite !length_app, length_variables_children.
  - assert (H1 : (list_sum (map clause_bound qbfs)
                  <= list_sum (map clause_bound_child qbfs))%nat).
    { apply list_sum_le. eapply Forall_impl; [|exact IH]. intros q H; apply H. }
    assert (H2 : (list_sum (map (fun q => (1 + clause_bound_child q)%nat) qbfs)
                  <= list_sum (map (fun q => (length (variables q)
                                              + (nodes q + nodes q))%nat)
                                   qbfs))%nat).
    { apply list_sum_le. eapply Forall_impl; [|exact IH].
      intros q H. cbv beta in *. lia. }
    assert (H3 : (list_sum (map aux_bound qbfs) <= list_sum (map nodes qbfs))%nat).
    { apply list_sum_le. eapply Forall_impl; [|exact IH].
      intros q H. cbv beta in *. lia. }
    assert (H4 : (list_sum (map clause_bound_child qbfs)
                  <= list_sum (map (fun q => (1 + clause_bound_child q)%nat) qbfs))%nat).
    { apply list_sum_le. apply Forall_forall. intros q _. cbv beta. lia. }
    rewrite (list_sum_plus (fun q => length (variables q))
                           (fun q => (nodes q + nodes q)%nat)) in H2.
    rewrite (list_sum_plus nodes nodes) in H2.
    lia.
  - assert (H2 : (list_sum (map clause_bound_child qbfs)
                  <= list_sum (map (fun q => (length (variables q)
                                              + (nodes q + nodes q))%nat)
                                   qbfs))%nat).
    { apply list_sum_le. eapply Forall_impl; [|exact IH].
      intros q H. cbv beta in *. lia. }
    rewrite (list_sum_plus (fun q => length (variables q))
                           (fun q => (nodes q + nodes q)%nat)) in H2.
    rewrite (list_sum_plus nodes nodes) in H2.
    lia.
Qed.

(** X6. The output is linear in the size of the formula: there are fewer
    clauses than literals plus twice the nodes of the formula, and fewer
    auxiliary variables than nodes. *)
Theorem X6_linear_size (F : Operator) (n nb0 : Z) :
  exists cl n',
    operatorToCnf F n nb0 = Some (cl, n') /\
    (length cl < length (variables F) + 2 * nodes F)%nat /\
    n <= n' < n + Z.of_nat (nodes F).
Proof.
  destruct (operatorToCnf_total F n nb0) as (cl & n' & E).
  exists cl, n'. split; [exact E|].
  apply operatorToCnf_compiles_to in E.
  destruct (compiles_to_bounded _ _ _ _ E) as [H1 H2].
  apply compiles_to_output_literals in E. destruct E as [Hle _].
  destruct (bounds_by_size F) as (B1 & B2 & B3).
  split; lia.
Qed.

(** *** [flatten_collapse] and the literals *)

Lemma occ_flat_map {A : Type} (f : A -> list Z) (l : list A) (x : Z) :
  occ (flat_map f l) x = list_sum (map (fun y => occ (f y) x) l).
Proof.
  unfold occ. induction l as [|y r IH]; simpl; [reflexivity|].
  rewrite count_occ_app, IH. reflexivity.
Qed.

Lemma variables_eq q :
  variables q
  = positiveVariables q ++ negativeVariables q ++ flat_map variables (qbf_formulas q).
Proof. destruct q; reflexivity. Qed.

Lemma nodes_eq q : nodes q = S (list_sum (map nodes (qbf_formulas q))).
Proof. destruct q; reflexivity. Qed.

Lemma merge_same_type_keeps ty : forall qbfs pos neg l pos' neg' l',
  merge_same_type ty qbfs (pos, neg, l) = (pos', neg', l') ->
  (forall x,
     (occ pos' x + occ neg' x + occ (flat_map variables l') x
      = occ pos x + occ neg x + occ (flat_map variables l) x
        + occ (flat_map variables qbfs) x)%nat) /\
  (list_sum (map nodes l')
   <= list_sum (map nodes l) + list_sum (map nodes qbfs))%nat.
Proof.
  unfold occ.
  induction qbfs as [|q r IH]; intros pos neg l pos' neg' l' H.
  - simpl in H. inversion H; subst. simpl. split; [intros x|]; lia.
  - simpl in H. destruct (String.eqb (type q) ty).
    + apply IH in H. destruct H as [H1 H2]. split.
      * intros x. specialize (H1 x).
        rewrite flat_map_app, !count_occ_app in H1.
        change (flat_map variables (q :: r))
          with (variables q ++ flat_map variables r).
        rewrite count_occ_app, (variables_eq q), !count_occ_app.
        lia.
      * rewrite map_app, list_sum_app in H2.
        change (list_sum (map nodes (q :: r)))
          with (nodes q + list_sum (map nodes r))%nat.
        rewrite (nodes_eq q). lia.
    + apply IH in H. destruct H as [H1 H2]. split.
      * intros x. specialize (H1 x).
        rewrite flat_map_app, !count_occ_app in H1.
        change (flat_map variables [q]) with (variables q ++ []) in H1.
        rewrite app_nil_r in H1.
        change (flat_map variables (q :: r))
          with (variables q ++ flat_map variables r).
        rewrite count_occ_app. lia.
      * rewrite map_app, list_sum_app in H2.
        change (list_sum (map nodes [q])) with (nodes q + 0)%nat in H2.
        change (list_sum (map nodes (q :: r)))
          with (nodes q + list_sum (map nodes r))%nat.
        lia.
Qed.

Lemma flatten_collapse_each_keeps rec : forall l l',
  flatten_collapse_each rec l = Some l' ->
  (forall q q', In q l -> rec q = Some q' ->
     (forall x, occ (variables q') x = occ (variables q) x) /\
     (nodes q' <= nodes q)%nat) ->
  (forall x, occ (flat_map variables l') x = occ (flat_map variables l) x) /\
  (list_sum (map nodes l') <= list_sum (map nodes l))%nat.
Proof.
  unfold occ.
  induction l as [|q r IH]; intros l' H Hrec; simpl in H.
  - inversion H; subst. split; [reflexivity|lia].
  - destruct (rec q) as [q'|] eqn:Eq; [|discriminate].
    destruct (flatten_collapse_each rec r) as [r'|] eqn:Er; [|discriminate].
    inversion H; subst.
    destruct (Hrec q q' (or_introl eq_refl) Eq) as [Hq1 Hq2].
    destruct (IH r' eq_refl) as [IH1 IH2].
    { intros q0 q0' Hin. apply Hrec. simpl; auto. }
    split; [|change (list_sum (map nodes (q' :: r')))
                with (nodes q' + list_sum (map nodes r'))%nat;
              change (list_sum (map nodes (q :: r)))
                with (nodes q + list_sum (map nodes r))%nat; lia].
    + intros x.
      change (flat_map variables (q' :: r'))
        with (variables q' ++ flat_map variables r').
      change (flat_map variables (q :: r))
        with (variables q ++ flat_map variables r).
      rewrite !count_occ_app, Hq1, IH1. reflexivity.
Qed.

Lemma flatten_collapse_keeps : forall fuel self formula,
  flatten_collapse fuel self = Some formula ->
  (forall x, occ (variables formula) x = occ (variables self) x) /\
  (nodes formula <= nodes self)%nat.
Proof.
  unfold occ.
  induction fuel as [|fuel IH]; intros self formula H; [discriminate|].
  simpl in H.
  destruct (len (qbf_formulas self) =? 0) eqn:E0;
    [inversion H; split; [reflexivity|lia]|].
  destruct ((len (qbf_formulas self) =? 1)
            && (len (positiveVariables self) =? 0)
            && (len (negativeVariables self) =? 0)) eqn:E1.
  - apply IH in H. destruct H as [H1 H2].
    apply andb_true_iff in E1. destruct E1 as [E1 En].
    apply andb_true_iff in E1. destruct E1 as [E1 Ep].
    apply Z.eqb_eq in Ep, En. apply len_zero_nil in Ep, En.
    apply Z.eqb_eq in E1. apply len_one in E1. destruct E1 as [q Eq].
    rewrite Eq in H1, H2. cbn [hd] in H1, H2.
    rewrite (variables_eq self), (nodes_eq self), Ep, En, Eq.
    cbn [flat_map map list_sum fold_right app]. rewrite app_nil_r.
    split; [exact H1|lia].
  - destruct (merge_same_type (type self) (qbf_formulas self)
                (positiveVariables self, negativeVariables self, []))
      as [[pos neg] newQbflist] eqn:Em.
    destruct (flatten_collapse_each (flatten_collapse fuel) newQbflist) as [simplifiedQbflist|] eqn:Es;
      [|discriminate].
    apply merge_same_type_keeps in Em. destruct Em as [M1 M2].
    destruct (flatten_collapse_each_keeps _ _ _ Es) as [S1 S2].
    { intros q q' _ Hq. unfold occ. apply IH. exact Hq. }
    unfold occ in *.
    assert (Hres : variables formula = pos ++ neg ++ flat_map variables simplifiedQbflist
                   /\ nodes formula = S (list_sum (map nodes simplifiedQbflist))).
    { destruct (String.eqb (type self) "AND"); inversion H; subst; split; reflexivity. }
    destruct Hres as [-> ->]. rewrite (variables_eq self), (nodes_eq self).
    split.
    + intros x. specialize (M1 x). specialize (S1 x).
      rewrite !count_occ_app. cbn [flat_map count_occ] in M1. lia.
    + cbn [map list_sum fold_right] in M2. lia.
Qed.

(** *** Polarity *)

Lemma sides_distribute_child q a v :
  (In v (positives (distribute_child q a)) -> In v (positives q)) /\
  (In v (negatives (distribute_child q a)) -> In v (negatives q) \/ v = a).
Proof.
  rewrite distribute_child_distributed.
  destruct q as [pos neg qbfs|pos neg qbfs];
    cbn [distributed positives negatives].
  - rewrite !app_nil_l, !flat_map_app, !in_app_iff, !in_flat_map. split.
    + intros [(x & Hx & Hv)|[(x & Hx & Hv)|(x & Hx & Hv)]];
        apply in_map_iff in Hx; destruct Hx as (y & <- & Hy); simpl in Hv.
      * destruct Hv as [<-|[]]. auto.
      * destruct Hv.
      * rewrite app_nil_r in Hv. right. exists y. auto.
    + intros [(x & Hx & Hv)|[(x & Hx & Hv)|(x & Hx & Hv)]];
        apply in_map_iff in Hx; destruct Hx as (y & <- & Hy); simpl in Hv.
      * destruct Hv as [<-|[]]. auto.
      * destruct Hv as [<-|[<-|[]]]; auto.
      * rewrite app_nil_r in Hv. destruct Hv as [<-|Hv]; [auto|].
        left. right. exists y. auto.
  - rewrite !in_app_iff. simpl. split; [tauto|]. intuition auto.
Qed.

Lemma sides_mapi_distribute nb qbfs : forall i v,
  (In v (flat_map positives
           (mapi_from (fun i q => distribute_child q (nb + Z.of_nat i)) i qbfs)) ->
   In v (flat_map positives qbfs)) /\
  (In v (flat_map negatives
           (mapi_from (fun i q => distribute_child q (nb + Z.of_nat i)) i qbfs)) ->
   In v (flat_map negatives qbfs) \/
   nb + Z.of_nat i <= v < nb + Z.of_nat i + len qbfs).
Proof.
  induction qbfs as [|q qs IH]; intros i v; simpl; [tauto|].
  rewrite !in_app_iff, len_cons. pose proof (len_nonneg qs).
  destruct (sides_distribute_child q (nb + Z.of_nat i) v) as [D1 D2].
  destruct (IH (S i) v) as [I1 I2].
  split.
  - intros [H1|H1]; auto.
  - intros [H1|H1].
    + destruct (D2 H1); [auto|right; lia].
    + destruct (I2 H1); [auto|right; lia].
Qed.

Lemma compiles_to_keeps_side self nb cl nb' :
  compiles_to self nb cl nb' -> keeps_side self nb cl nb'.
Proof.
  apply (compiles_to_ind keeps_side); clear self nb cl nb'.
  - intros pos neg qbfs nb left nb' Hch.
    assert (H : nb <= nb' /\
                forall c l, In c left -> In l c ->
                  (In l (flat_map positives qbfs) \/ nb <= l < nb') \/
                  (exists v, (In v (flat_map negatives qbfs) \/ nb <= v < nb') /\
                             l = v * -1)).
    { induction Hch as [nb|q qs nb c1 nb1 cr nb2 [Hc Hq] _ [Hle IH]].
      - split; [lia|]. intros c l [].
      - apply compiles_to_output_literals in Hc. destruct Hc as [Hle1 _].
        split; [lia|]. intros c l Hc Hl. apply in_app_iff in Hc.
        simpl. destruct Hc as [Hc|Hc].
        + destruct (Hq c l Hc Hl) as [[H|H]|(v & [H|H] & E)].
          * left; left. apply in_app_iff. auto.
          * left; right. lia.
          * right. exists v. split; [left; apply in_app_iff; auto|exact E].
          * right. exists v. split; [right; lia|exact E].
        + destruct (IH c l Hc Hl) as [[H|H]|(v & [H|H] & E)].
          * left; left. apply in_app_iff. auto.
          * left; right. lia.
          * right. exists v. split; [left; apply in_app_iff; auto|exact E].
          * right. exists v. split; [right; lia|exact E]. }
    destruct H as [_ H]. intros c l Hc Hl. cbn [positives negatives].
    rewrite !in_app_iff, !in_map_iff in Hc.
    destruct Hc as [(v & <- & Hv)|[(v & <- & Hv)|Hc]].
    + destruct Hl as [<-|[]]. left; left. apply in_app_iff. auto.
    + destruct Hl as [<-|[]]. right. exists v. split; [|reflexivity].
      left. apply in_app_iff. auto.
    + destruct (H c l Hc Hl) as [[Hp|Hp]|(v & [Hn|Hn] & E)].
      * left; left. apply in_app_iff. auto.
      * left; right. exact Hp.
      * right. exists v. split; [left; apply in_app_iff; auto|exact E].
      * right. exists v. split; [right; exact Hn|exact E].
  - intros pos neg inner nb cl nb' [_ H] c l Hc Hl.
    cbn [positives negatives flat_map] in *. rewrite !app_nil_l, !app_nil_r.
    exact (H c l Hc Hl).
  - intros pos neg nb c l [<-|[]] Hl. cbn [positives negatives flat_map].
    rewrite !app_nil_r. simpl in Hl. rewrite in_app_iff, in_map_iff in Hl.
    destruct Hl as [Hl|(v & <- & Hv)]; [auto|].
    right. exists v. auto.
  - intros pos neg qbfs nb cl nb' _ _ [Hc H] c l Hcl Hl.
    pose proof (len_nonneg qbfs) as Hk.
    apply compiles_to_output_literals in Hc. destruct Hc as [Hle _].
    cbn [positives negatives]. apply in_app_iff in Hcl.
    destruct Hcl as [Hcl|[<-|[]]].
    + destruct (H c l Hcl Hl) as [[Hp|Hp]|(v & [Hn|Hn] & E)].
      * cbn [positives app] in Hp.
        apply (sides_mapi_distribute nb qbfs 0%nat l) in Hp.
        left; left. apply in_app_iff. auto.
      * left; right. lia.
      * cbn [negatives app] in Hn.
        apply (sides_mapi_distribute nb qbfs 0%nat v) in Hn.
        right. exists v. split; [|exact E].
        destruct Hn as [Hn|Hn]; [left; apply in_app_iff; auto|right; simpl in Hn; lia].
      * right. exists v. split; [right; lia|exact E].
    + rewrite !in_app_iff, in_map_iff in Hl.
      destruct Hl as [Hl|[Hl|(v & <- & Hv)]].
      * left; left. apply in_app_iff. auto.
      * apply In_range in Hl. left; right. lia.
      * right. exists v. split; [left; apply in_app_iff; auto|reflexivity].
Qed.

Lemma sides_are_variables F v :
  (In v (positives F) -> In v (variables F)) /\
  (In v (negatives F) -> In v (variables F)).
Proof.
  induction F as [pos neg qbfs IH|pos neg qbfs IH] using Operator_tree_ind;
    cbn [positives negatives variables]; rewrite !in_app_iff, !in_flat_map;
    rewrite Forall_forall in IH; split.
  - intros [H|(q & Hq & H)]; [auto|]. right; right. exists q.
    split; [exact Hq|]. destruct (IH q Hq) as [I1 I2]. auto.
  - intros [H|(q & Hq & H)]; [auto|]. right; right. exists q.
    split; [exact Hq|]. destruct (IH q Hq) as [I1 I2]. auto.
  - intros [H|(q & Hq & H)]; [auto|]. right; right. exists q.
    split; [exact Hq|]. destruct (IH q Hq) as [I1 I2]. auto.
  - intros [H|(q & Hq & H)]; [auto|]. right; right. exists q.
    split; [exact Hq|]. destruct (IH q Hq) as [I1 I2]. auto.
Qed.

(** X17. The compiler keeps polarities: for a formula whose variables are
    numbered from 1 and below the seed [n], a variable that occurs
    unnegated in a clause is written in a positive literal list of the
    formula, and one that occurs negated in a clause is written in a
    negative literal list. *)
Theorem X17_polarity_kept (F : Operator) (n nb0 : Z) :
  0 <= n ->
  (forall v, In v (variables F) -> 1 <= v < n) ->
  exists cl n',
    operatorToCnf F n nb0 = Some (cl, n') /\
    forall c v, In c cl -> 1 <= v < n ->
      (In v c -> In v (positives F)) /\
      (In (- v) c -> In v (negatives F)).
Proof.
  intros Hn Hv.
  pose proof (sides_are_variables F) as Hpn.
  destruct (operatorToCnf_total F n nb0) as (cl & n' & E).
  exists cl, n'. split; [exact E|].
  apply operatorToCnf_compiles_to in E.
  pose proof (compiles_to_keeps_side _ _ _ _ E) as H.
  intros c v Hc Hvn. split; intros Hl.
  - destruct (H c v Hc Hl) as [[Hp|Hp]|(x & [Hx|Hx] & Ex)]; [exact Hp|lia| |lia].
    apply Hpn, Hv in Hx. lia.
  - destruct (H c (- v) Hc Hl) as [[Hp|Hp]|(x & [Hx|Hx] & Ex)]; [|lia| |lia].
    + apply Hpn, Hv in Hp. lia.
    + replace v with x by lia. exact Hx.
Qed.

Lemma X17_polarity_kept_witness :
  exists cl n',
    operatorToCnf (Or [1] [2] [And [3] [1] [Or [] [4] []]]) 5 0 = Some (cl, n') /\
    forall c v, In c cl -> 1 <= v < 5 ->
      (In v c -> In v (positives (Or [1] [2] [And [3] [1] [Or [] [4] []]]))) /\
      (In (- v) c -> In v (negatives (Or [1] [2] [And [3] [1] [Or [] [4] []]]))).
Proof.
  apply (X17_polarity_kept (Or [1] [2] [And [3] [1] [Or [] [4] []]]) 5 0).
  - lia.
  - simpl. intros v [<-|[<-|[<-|[<-|[<-|[]]]]]]; lia.
Defined.

(** X18. The empty clause is no false alarm: for a formula whose variables
    are numbered from 1 and below the seed [n], the output holds an empty
    clause only if no assignment satisfies the formula. *)
Theorem X18_empty_clause_means_unsatisfiable (F : Operator) (n nb0 : Z) :
  1 <= n ->
  (forall v, In v (variables F) -> 1 <= v < n) ->
  exists cl n',
    operatorToCnf F n nb0 = Some (cl, n') /\
    (In [] cl -> forall A, holds A F = false).
Proof.
  intros Hn Hv.
  destruct (operatorToCnf_total F n nb0) as (cl & n' & E).
  exists cl, n'. split; [exact E|].
  apply operatorToCnf_compiles_to in E.
  intros Hempty A. destruct (holds A F) eqn:HA; [|reflexivity].
  destruct (compiles_to_complete _ _ _ _ E Hn Hv A HA) as (B & _ & HB).
  unfold cnf_holds in HB. rewrite forallb_forall in HB.
  specialize (HB [] Hempty). discriminate.
Qed.

Lemma X18_empty_clause_means_unsatisfiable_witness :
  exists cl n',
    operatorToCnf (And [1] [] [Or [2] [] [And [] [] [Or [] [] []]]; Or [] [] []]) 3 0
    = Some (cl, n') /\
    (In [] cl ->
     forall A,
       holds A (And [1] [] [Or [2] [] [And [] [] [Or [] [] []]]; Or [] [] []]) = false).
Proof.
  apply (X18_empty_clause_means_unsatisfiable
           (And [1] [] [Or [2] [] [And [] [] [Or [] [] []]]; Or [] [] []]) 3 0).
  - lia.
  - simpl. intros v [<-|[<-|[]]]; lia.
Defined.

End FormulasExtra.

(* ===================================================================== *)
(** ** Further facts about the weighted clauses and the wait transition *)
(* ===================================================================== *)

Module ArtefactsExtra.
Import ConformanceArtefacts FormulasFacts ArtefactsFacts.

(** *** [__createWncf] in closed form *)

Lemma map_pairs {C : Type} (f : Z -> Z -> C) (ds js : list Z) :
  flat_map (fun j => map (fun d => f j d) ds) js
  = map (fun jd => f (fst jd) (snd jd))
        (flat_map (fun j => map (fun d => (j, d)) ds) js).
Proof.
  induction js as [|j r IH]; simpl; [reflexivity|].
  rewrite map_app, map_map, IH. reflexivity.
Qed.

Lemma loops_closed (lit : Z -> Z -> Z) (n m : Z) (cnf : list clause) :
  for_range 0 n
    (fun j => for_range 1 (m + 1)
       (fun d wcnf => append wcnf [lit j d] WEIGHT_ON_CLAUSES_TO_REDUCE))
    (extend WCNF_new cnf)
  = mkWCNF cnf
      (map (fun jd => [lit (fst jd) (snd jd)]) (index_pairs n m))
      (map (fun _ => WEIGHT_ON_CLAUSES_TO_REDUCE) (index_pairs n m)).
Proof.
  unfold for_range at 1. rewrite outer_loop. unfold index_pairs. simpl.
  f_equal.
  - apply (map_pairs (fun j d => [lit j d])).
  - apply (map_pairs (fun _ _ => WEIGHT_ON_CLAUSES_TO_REDUCE)).
Qed.

(** The result of [__createWncf]: the compiled conjunction as hard
    clauses, and one weighted unit clause for each index pair. *)
Lemma createWncf_closed self initialisationFormulas distanceFormula artefact nb0 :
  createWncf self initialisationFormulas distanceFormula artefact nb0
  = match operatorToCnf (And [] [] (initialisationFormulas ++ distanceFormula))
                        (iterator (variables self)) nb0 with
    | Some (cnf, nb') =>
        Some (mkWCNF cnf
                (map (fun jd => [distance_literal self artefact jd])
                     (distance_pairs self))
                (map (fun _ => WEIGHT_ON_CLAUSES_TO_REDUCE) (distance_pairs self)),
              nb')
    | None => None
    end.
Proof.
  unfold createWncf, bind, distance_pairs, distance_literal.
  destruct (operatorToCnf _ _ nb0) as [[cnf nb']|]; [|reflexivity].
  destruct (String.eqb (distance_type self) EDIT_DISTANCE).
  - unfold ret. rewrite loops_closed. reflexivity.
  - destruct (String.eqb (distance_type self) HAMMING_DISTANCE).
    + unfold ret. rewrite loops_closed. reflexivity.
    + reflexivity.
Qed.

(** X10. The hard clauses of [__createWncf] are the compilation of the
    conjunction of all the formulas, whatever the artefact and the
    distance.  With the variables of the formulas numbered from 1 and
    below the seed [iterator], an assignment satisfying the hard clauses
    satisfies every formula, and an assignment satisfying every formula
    extends over the auxiliary variables to one satisfying the hard
    clauses. *)
Theorem X10_hard_clauses (self : ConformanceArtefacts)
  (initialisationFormulas distanceFormula : list Operator)
  (artefact : string) (nb0 : Z) :
  1 <= iterator (variables self) ->
  (forall f v, In f (initialisationFormulas ++ distanceFormula) ->
               In v (Formulas.variables f) ->
               1 <= v < iterator (variables self)) ->
  exists w nb',
    createWncf self initialisationFormulas distanceFormula artefact nb0
    = Some (w, nb') /\
    operatorToCnf (And [] [] (initialisationFormulas ++ distanceFormula))
                  (iterator (variables self)) nb0 = Some (hard w, nb') /\
    (forall B, cnf_holds B (hard w) = true ->
       forall f, In f (initialisationFormulas ++ distanceFormula) ->
                 holds B f = true) /\
    (forall A,
       (forall f, In f (initialisationFormulas ++ distanceFormula) ->
                  holds A f = true) ->
       exists B, extends_over (iterator (variables self)) nb' A B /\
                 cnf_holds B (hard w) = true).
Proof.
  intros Hn Hv. rewrite createWncf_closed.
  destruct (operatorToCnf_total
              (And [] [] (initialisationFormulas ++ distanceFormula))
              (iterator (variables self)) nb0) as (cnf & nb' & E).
  rewrite E. eexists; eexists. split; [reflexivity|]. cbn [hard].
  split; [reflexivity|].
  apply operatorToCnf_compiles_to in E.
  assert (Hv' : forall v,
             In v (Formulas.variables
                     (And [] [] (initialisationFormulas ++ distanceFormula))) ->
             1 <= v < iterator (variables self)).
  { intros v Hin. simpl in Hin. apply in_flat_map in Hin.
    destruct Hin as (f & Hf & Hin). eapply Hv; eauto. }
  split.
  - intros B HB f Hf.
    assert (H : holds B (And [] [] (initialisationFormulas ++ distanceFormula)) = true).
    { apply (compiles_to_sound _ _ _ _ E); auto.
      intros v Hin. specialize (Hv' v Hin). lia. }
    simpl in H. rewrite forallb_forall in H. apply H. exact Hf.
  - intros A HA. apply (compiles_to_complete _ _ _ _ E Hn Hv').
    simpl. apply forallb_forall. exact HA.
Qed.

Lemma X10_hard_clauses_witness :
  exists w nb',
    createWncf
      (init 2 1 EDIT_DISTANCE "g4" (mkVariablesGenerator 6 (fun _ _ => 5))
            [["a"%string]])
      [And [1] [] [Or [2] [3] []]; Or [] [] [And [1] [] []; And [4] [] []]]
      [Or [5] [] []] MULTI_ALIGNMENT 0
    = Some (w, nb') /\
    operatorToCnf
      (And [] [] ([And [1] [] [Or [2] [3] []];
                   Or [] [] [And [1] [] []; And [4] [] []]] ++ [Or [5] [] []]))
      6 0 = Some (hard w, nb') /\
    (forall B, cnf_holds B (hard w) = true ->
       forall f,
         In f ([And [1] [] [Or [2] [3] []];
                Or [] [] [And [1] [] []; And [4] [] []]] ++ [Or [5] [] []]) ->
         holds B f = true) /\
    (forall A,
       (forall f,
          In f ([And [1] [] [Or [2] [3] []];
                 Or [] [] [And [1] [] []; And [4] [] []]] ++ [Or [5] [] []]) ->
          holds A f = true) ->
       exists B, extends_over 6 nb' A B /\ cnf_holds B (hard w) = true).
Proof.
  apply (X10_hard_clauses
           (init 2 1 EDIT_DISTANCE "g4" (mkVariablesGenerator 6 (fun _ _ => 5))
                 [["a"%string]])
           [And [1] [] [Or [2] [3] []]; Or [] [] [And [1] [] []; And [4] [] []]]
           [Or [5] [] []] MULTI_ALIGNMENT 0).
  - simpl. lia.
  - simpl. intros f v [<-|[<-|[<-|[]]]]; simpl;
      repeat (intros [<-|H]; [lia|revert H]); intros [].
Defined.

(** *** The soft clauses *)

Lemma length_range lo hi : length (range lo hi) = Z.to_nat (hi - lo).
Proof. unfold range. rewrite length_map, length_seq. reflexivity. Qed.

Lemma length_index_pairs n m :
  Z.of_nat (length (index_pairs n m)) = Z.max 0 n * Z.max 0 m.
Proof.
  unfold index_pairs.
  assert (H : forall js : list Z,
             length (flat_map (fun j => map (fun d => (j, d)) (range 1 (m + 1))) js)
             = (length js * Z.to_nat m)%nat).
  { induction js as [|j r IH]; simpl; [reflexivity|].
    rewrite length_app, length_map, length_range, IH. f_equal. f_equal. lia. }
  rewrite H, length_range, Nat2Z.inj_mul.
  f_equal; lia.
Qed.

(** X11. The soft part of the result of [__createWncf] holds unit clauses
    only, as many weights as clauses, every weight being [-10]; there are
    [len(traces) * max_d] of them for the edit distance,
    [len(traces) * size_of_run] for the Hamming distance (none when that
    bound is zero or negative), and none for any other distance. *)
Theorem X11_soft_clauses_count (self : ConformanceArtefacts)
  (initialisationFormulas distanceFormula : list Operator)
  (artefact : string) (nb0 : Z) :
  exists w nb',
    createWncf self initialisationFormulas distanceFormula artefact nb0
    = Some (w, nb') /\
    length (soft w) = length (wght w) /\
    Forall (fun c => length c = 1%nat) (soft w) /\
    Forall (fun weight => weight = -10) (wght w) /\
    Z.of_nat (length (soft w))
    = if String.eqb (distance_type self) EDIT_DISTANCE
      then len (traces self) * Z.max 0 (max_d self)
      else if String.eqb (distance_type self) HAMMING_DISTANCE
           then len (traces self) * Z.max 0 (size_of_run self)
           else 0.
Proof.
  rewrite createWncf_closed.
  destruct (operatorToCnf_total
              (And [] [] (initialisationFormulas ++ distanceFormula))
              (iterator (variables self)) nb0) as (cnf & nb' & E).
  rewrite E. eexists; eexists. split; [reflexivity|]. cbn [soft wght].
  rewrite !length_map. split; [reflexivity|].
  split; [apply Forall_forall; intros c Hc; apply in_map_iff in Hc;
          destruct Hc as (jd & <- & _); reflexivity|].
  split; [apply Forall_forall; intros x Hx; apply in_map_iff in Hx;
          destruct Hx as (jd & <- & _); reflexivity|].
  unfold distance_pairs. pose proof (len_nonneg (traces self)) as Hl.
  destruct (String.eqb (distance_type self) EDIT_DISTANCE).
  - rewrite length_index_pairs. f_equal. lia.
  - destruct (String.eqb (distance_type self) HAMMING_DISTANCE).
    + rewrite length_index_pairs. f_equal. lia.
    + reflexivity.
Qed.

(** X12. When the numbering service only gives out positive numbers, the
    literal of every soft clause is positive for the anti-alignment and
    negative for every other artefact. *)
Theorem X12_soft_literal_sign (self : ConformanceArtefacts)
  (initialisationFormulas distanceFormula : list Operator)
  (artefact : string) (nb0 : Z) :
  (forall name indexes, 0 < getVarNumber (variables self) name indexes) ->
  exists w nb',
    createWncf self initialisationFormulas distanceFormula artefact nb0
    = Some (w, nb') /\
    forall c l, In c (soft w) -> In l c ->
      (artefact = ANTI_ALIGNMENT -> 0 < l) /\
      (artefact <> ANTI_ALIGNMENT -> l < 0).
Proof.
  intros Hpos. rewrite createWncf_closed.
  destruct (operatorToCnf_total
              (And [] [] (initialisationFormulas ++ distanceFormula))
              (iterator (variables self)) nb0) as (cnf & nb' & E).
  rewrite E. eexists; eexists. split; [reflexivity|]. cbn [soft].
  intros c l Hc Hl. apply in_map_iff in Hc. destruct Hc as (jd & <- & _).
  destruct Hl as [<-|[]]. unfold distance_literal, weightsOnVariables.
  match goal with |- context [getVarNumber ?g ?a ?b] =>
    pose proof (Hpos a b) as Hp; set (x := getVarNumber g a b) in * end.
  destruct (String.eqb_spec artefact ANTI_ALIGNMENT) as [Heq|Hne]; cbn [negb].
  - split; [intros _; lia|intros H; contradiction].
  - split; [intros H; contradiction|intros _; lia].
Qed.

Lemma X12_soft_literal_sign_witness :
  exists w nb',
    createWncf
      (init 2 3 HAMMING_DISTANCE "g4" (mkVariablesGenerator 6 (fun _ _ => 5))
            [["a"%string]; ["b"%string]])
      [And [1] [] []] [Or [2] [] []] ANTI_ALIGNMENT 0
    = Some (w, nb') /\
    forall c l, In c (soft w) -> In l c ->
      (ANTI_ALIGNMENT = ANTI_ALIGNMENT -> 0 < l) /\
      (ANTI_ALIGNMENT <> ANTI_ALIGNMENT -> l < 0).
Proof.
  apply (X12_soft_literal_sign
           (init 2 3 HAMMING_DISTANCE "g4" (mkVariablesGenerator 6 (fun _ _ => 5))
                 [["a"%string]; ["b"%string]])
           [And [1] [] []] [Or [2] [] []] ANTI_ALIGNMENT 0).
  intros name indexes. simpl. lia.
Defined.

(** *** [__add_wait_net] in closed form *)

Lemma wait_loop_closed : forall ps seen net_arcs w,
  t_name w = WAIT_TRANSITION ->
  fold_left wait_loop_body ps (seen, net_arcs, w)
  = (seen ++ map with_wait_loop ps,
     net_arcs ++ flat_map (fun p => [loop_in p; loop_out p]) (filter dead_end ps),
     mkTransition (t_name w) (t_label w)
       (t_in_arcs w ++ map loop_in (filter dead_end ps))
       (t_out_arcs w ++ map loop_out (filter dead_end ps))).
Proof.
  induction ps as [|p ps IH]; intros seen net_arcs w Hw.
  - simpl. rewrite !app_nil_r. destruct w; reflexivity.
  - cbn [fold_left map filter].
    destruct (dead_end p) eqn:E.
    + assert (Eb : wait_loop_body (seen, net_arcs, w) p
                   = (seen ++ [with_wait_loop p],
                      net_arcs ++ [loop_in p; loop_out p],
                      mkTransition (t_name w) (t_label w)
                        (t_in_arcs w ++ [loop_in p])
                        (t_out_arcs w ++ [loop_out p]))).
      { unfold wait_loop_body, with_wait_loop. rewrite E.
        unfold dead_end in E. rewrite E. unfold loop_in, loop_out.
        rewrite Hw. reflexivity. }
      rewrite Eb, IH by exact Hw.
      cbn [t_name t_label t_in_arcs t_out_arcs flat_map map app].
      rewrite <- !app_assoc. reflexivity.
    + assert (Eb : wait_loop_body (seen, net_arcs, w) p
                   = (seen ++ [with_wait_loop p], net_arcs, w)).
      { unfold wait_loop_body, with_wait_loop. rewrite E.
        unfold dead_end in E. rewrite E. reflexivity. }
      rewrite Eb, IH by exact Hw. rewrite <- !app_assoc. reflexivity.
Qed.

Lemma add_wait_to_closed (n : PetriNet) :
  add_wait_to n
  = (mkTransition WAIT_TRANSITION WAIT_TRANSITION
       (map loop_in (filter dead_end (places n)))
       (map loop_out (filter dead_end (places n))),
     mkPetriNet
       (map with_wait_loop (places n))
       (transitions n ++
        [mkTransition WAIT_TRANSITION WAIT_TRANSITION
           (map loop_in (filter dead_end (places n)))
           (map loop_out (filter dead_end (places n)))])
       (arcs n ++
        flat_map (fun p => [loop_in p; loop_out p]) (filter dead_end (places n)))).
Proof.
  unfold add_wait_to. rewrite wait_loop_closed by reflexivity. reflexivity.
Qed.

Lemma add_wait_net_closed self h r :
  add_wait_net (set_net self r) h
  = Returned (fst (add_wait_to (h r)), store_set h r (snd (add_wait_to (h r)))).
Proof.
  unfold add_wait_net. cbn [net set_net]. destruct (add_wait_to (h r)). reflexivity.
Qed.

Lemma store_set_same h r n : store_set h r n r = n.
Proof. unfold store_set. rewrite Nat.eqb_refl. reflexivity. Qed.

Lemma store_set_other h r n r' : r' <> r -> store_set h r n r' = h r'.
Proof.
  intros H. unfold store_set. destruct (Nat.eqb_spec r' r); [contradiction|reflexivity].
Qed.

Lemma dead_end_spec p : dead_end p = true <-> p_out_arcs p = [].
Proof.
  unfold dead_end. rewrite Z.eqb_eq. split.
  - apply len_zero_nil.
  - intros ->. reflexivity.
Qed.

Lemma with_wait_loop_not_dead_end p : dead_end (with_wait_loop p) = false.
Proof.
  unfold with_wait_loop. destruct (dead_end p) eqn:E; [|exact E].
  unfold dead_end, len. cbn [p_out_arcs]. rewrite length_app. simpl.
  apply Z.eqb_neq. lia.
Qed.

(** X13. After [__add_wait_net] no place of the net is a dead end: every
    place has an outgoing arc.  The places keep their names and order, a
    place that had an outgoing arc is left as it was, the transitions and
    arcs of the net are kept, and the one transition added is named and
    labelled [w]. *)
Theorem X13_no_dead_end_left (self : ConformanceArtefacts) (h : store) (r : ref) :
  exists w h',
    add_wait_net (set_net self r) h = Returned (w, h') /\
    Forall (fun p => p_out_arcs p <> []) (places (h' r)) /\
    map p_name (places (h' r)) = map p_name (places (h r)) /\
    (forall p, In p (places (h r)) -> p_out_arcs p <> [] -> In p (places (h' r))) /\
    transitions (h' r) = transitions (h r) ++ [w] /\
    t_name w = WAIT_TRANSITION /\ t_label w = WAIT_TRANSITION /\
    (exists added, arcs (h' r) = arcs (h r) ++ added) /\
    (forall r', r' <> r -> h' r' = h r').
Proof.
  rewrite add_wait_net_closed, add_wait_to_closed. cbn [fst snd].
  eexists; eexists. split; [reflexivity|].
  rewrite store_set_same. cbn [places transitions arcs t_name t_label].
  split; [|split; [|split; [|split; [reflexivity|]]]].
  - apply Forall_forall. intros p Hp. apply in_map_iff in Hp.
    destruct Hp as (p0 & <- & _). intros H. apply dead_end_spec in H.
    rewrite with_wait_loop_not_dead_end in H. discriminate.
  - rewrite map_map. apply map_ext. intros p. unfold with_wait_loop.
    destruct (dead_end p); reflexivity.
  - intros p Hp Hout. apply in_map_iff. exists p. split; [|exact Hp].
    unfold with_wait_loop. destruct (dead_end p) eqn:E; [|reflexivity].
    apply dead_end_spec in E. contradiction.
  - split; [reflexivity|]. split; [reflexivity|]. split; [eexists; reflexivity|].
    intros r' Hr. apply store_set_other. exact Hr.
Qed.

(** X14. [__add_wait_net] adds exactly two arcs for each dead-end place,
    one from the place to the wait transition and one back, and files
    each of them three times: in the arcs of the net, with the wait
    transition, and with the place. *)
Theorem X14_wait_loops (self : ConformanceArtefacts) (h : store) (r : ref) :
  exists w h',
    add_wait_net (set_net self r) h = Returned (w, h') /\
    t_in_arcs w = map loop_in (filter dead_end (places (h r))) /\
    t_out_arcs w = map loop_out (filter dead_end (places (h r))) /\
    arcs (h' r)
    = arcs (h r) ++
      flat_map (fun p => [loop_in p; loop_out p]) (filter dead_end (places (h r))) /\
    length (arcs (h' r))
    = (length (arcs (h r)) + 2 * length (filter dead_end (places (h r))))%nat /\
    (forall p, In p (places (h r)) -> p_out_arcs p = [] ->
       In (loop_in p) (arcs (h' r)) /\ In (loop_out p) (arcs (h' r)) /\
       In (loop_in p) (t_in_arcs w) /\ In (loop_out p) (t_out_arcs w) /\
       In (mkPlace (p_name p) (p_in_arcs p ++ [loop_out p]) [loop_in p])
          (places (h' r))).
Proof.
  rewrite add_wait_net_closed, add_wait_to_closed. cbn [fst snd].
  eexists; eexists. split; [reflexivity|].
  rewrite store_set_same. cbn [places transitions arcs t_in_arcs t_out_arcs].
  split; [reflexivity|]. split; [reflexivity|]. split; [reflexivity|]. split.
  - rewrite length_app. f_equal.
    induction (filter dead_end (places (h r))) as [|p l IH]; simpl; [reflexivity|].
    rewrite IH. lia.
  - intros p Hp Hout.
    assert (Hd : In p (filter dead_end (places (h r)))).
    { apply filter_In. split; [exact Hp|]. apply dead_end_spec. exact Hout. }
    split; [|split; [|split; [|split]]].
    + apply in_app_iff. right. apply in_flat_map. exists p. simpl. auto.
    + apply in_app_iff. right. apply in_flat_map. exists p. simpl. auto.
    + apply in_map. exact Hd.
    + apply in_map. exact Hd.
    + apply in_map_iff. exists p. split; [|exact Hp].
      unfold with_wait_loop. rewrite (proj2 (dead_end_spec p) Hout), Hout. reflexivity.
Qed.

Lemma filter_dead_end_after ps : filter dead_end (map with_wait_loop ps) = [].
Proof.
  induction ps as [|p r IH]; simpl; [reflexivity|].
  rewrite with_wait_loop_not_dead_end. exact IH.
Qed.

Lemma with_wait_loop_again ps :
  map with_wait_loop (map with_wait_loop ps) = map with_wait_loop ps.
Proof.
  rewrite map_map. apply map_ext. intros p.
  pose proof (with_wait_loop_not_dead_end p) as H.
  unfold with_wait_loop at 1. rewrite H. reflexivity.
Qed.

(** X15. A second run of [__add_wait_net] on the same net finds no dead
    end: it leaves the places and the arcs as the first run made them and
    only adds one more transition [w], which has no arc at all. *)
Theorem X15_second_wait_transition (self : ConformanceArtefacts) (h : store) (r : ref) :
  exists w1 h1 w2 h2,
    add_wait_net (set_net self r) h = Returned (w1, h1) /\
    add_wait_net (set_net self r) h1 = Returned (w2, h2) /\
    places (h2 r) = places (h1 r) /\
    arcs (h2 r) = arcs (h1 r) /\
    transitions (h2 r) = transitions (h r) ++ [w1; w2] /\
    w2 = mkTransition WAIT_TRANSITION WAIT_TRANSITION [] [].
Proof.
  exists (fst (add_wait_to (h r))), (store_set h r (snd (add_wait_to (h r)))).
  exists (fst (add_wait_to (store_set h r (snd (add_wait_to (h r))) r))).
  exists (store_set (store_set h r (snd (add_wait_to (h r)))) r
            (snd (add_wait_to (store_set h r (snd (add_wait_to (h r))) r)))).
  rewrite !add_wait_net_closed.
  split; [reflexivity|]. split; [reflexivity|].
  rewrite !store_set_same, !add_wait_to_closed. cbn [fst snd places arcs transitions].
  rewrite filter_dead_end_after, with_wait_loop_again. cbn [map flat_map].
  rewrite app_nil_r, <- app_assoc. repeat split; reflexivity.
Qed.

(** X16. [multiAlignment] and [antiAlignment] make the object remember the
    net they are given, and [exactAlignment], which does not, then works
    on that remembered net whatever net it is given itself: it adds a wait
    transition there and leaves every other net, the one handed to it
    included, as it was. *)
Theorem X16_exactAlignment_remembered_net (self : ConformanceArtefacts) (h : store)
  (r r0 : ref) :
  exists w1 h1 w2 h2,
    multiAlignment self h r = Returned (set_net self r, w1, h1) /\
    antiAlignment self h r = Returned (set_net self r, w1, h1) /\
    exactAlignment (set_net self r) h1 r0 = Returned (set_net self r, w2, h2) /\
    transitions (h2 r) = transitions (h r) ++ [w1; w2] /\
    (forall r', r' <> r -> h1 r' = h r' /\ h2 r' = h r').
Proof.
  exists (fst (add_wait_to (h r))), (store_set h r (snd (add_wait_to (h r)))).
  exists (fst (add_wait_to (store_set h r (snd (add_wait_to (h r))) r))).
  exists (store_set (store_set h r (snd (add_wait_to (h r)))) r
            (snd (add_wait_to (store_set h r (snd (add_wait_to (h r))) r)))).
  unfold multiAlignment, antiAlignment, exactAlignment.
  rewrite !add_wait_net_closed.
  split; [reflexivity|]. split; [reflexivity|]. split; [reflexivity|].
  rewrite !store_set_same, !add_wait_to_closed. cbn [fst snd places arcs transitions].
  split; [rewrite <- app_assoc; reflexivity|].
  intros r' Hr. rewrite !store_set_other by exact Hr. split; reflexivity.
Qed.

End ArtefactsExtra.

(* ===================================================================== *)
(** ** Facts about [simplify] and [distributeImplication] on list objects *)
(* ===================================================================== *)

Module ObjectsFacts.
Import FormulasFacts FormulasExtra.

(** *** List objects *)

Lemma write_same s r l : Objects.write s r l r = l.
Proof. unfold Objects.write. rewrite Nat.eqb_refl. reflexivity. Qed.

Lemma write_other s r l r' : r' <> r -> Objects.write s r l r' = s r'.
Proof.
  intros H. unfold Objects.write.
  destruct (Nat.eqb r' r) eqn:E; [apply Nat.eqb_eq in E; contradiction|reflexivity].
Qed.

Lemma list_refs_eq n :
  Objects.list_refs n
  = Objects.positiveVariables n :: Objects.negativeVariables n
    :: flat_map Objects.list_refs (Objects.qbf_formulas n).
Proof. destruct n; reflexivity. Qed.

(** The value of a node depends on the list objects of its tree only. *)
Lemma value_ext s s' n :
  (forall r, In r (Objects.list_refs n) -> s' r = s r) ->
  Objects.value s' n = Objects.value s n.
Proof.
  induction n as [pos neg qbfs IH|pos neg qbfs IH] using Objects.Node_tree_ind;
    intros H; cbn [Objects.value];
    rewrite (H pos) by (simpl; auto); rewrite (H neg) by (simpl; auto);
    f_equal; apply map_ext_in; intros q Hq;
    rewrite Forall_forall in IH; apply (IH q Hq);
    intros r Hr; apply H; simpl; right; right; apply in_flat_map; eauto.
Qed.

Lemma map_value_ext s s' l :
  (forall r, In r (flat_map Objects.list_refs l) -> s' r = s r) ->
  map (Objects.value s') l = map (Objects.value s) l.
Proof.
  intros H. apply map_ext_in. intros q Hq. apply value_ext.
  intros r Hr. apply H. apply in_flat_map. eauto.
Qed.

Lemma type_value s n : type (Objects.value s n) = Objects.type n.
Proof. destruct n; reflexivity. Qed.

Lemma depth_value s n : depth (Objects.value s n) = Objects.depth n.
Proof.
  induction n as [pos neg qbfs IH|pos neg qbfs IH] using Objects.Node_tree_ind;
    cbn [Objects.value depth Objects.depth]; f_equal; rewrite map_map;
    f_equal; apply map_ext_in; intros q Hq;
    rewrite Forall_forall in IH; auto.
Qed.

Lemma Objects_depth_child self q :
  In q (Objects.qbf_formulas self) -> (Objects.depth q < Objects.depth self)%nat.
Proof.
  intros H. rewrite <- !(depth_value (fun _ => [])).
  apply depth_qbf_formulas.
  destruct self; simpl in *; apply in_map; exact H.
Qed.

Lemma NoDup_app_disjoint {A : Type} (l1 l2 : list A) x :
  NoDup (l1 ++ l2) -> In x l1 -> ~ In x l2.
Proof.
  induction l1 as [|a l1 IH]; simpl; [tauto|].
  intros H [->|Hx] H2.
  - inversion H; subst. apply H3. apply in_app_iff. auto.
  - inversion H; subst. exact (IH H4 Hx H2).
Qed.

(** *** [simplify] on unshared list objects *)

(** [flatten_collapse] on the value of a node, in terms of the node. *)
Lemma flatten_collapse_value fuel s self :
  flatten_collapse (S fuel) (Objects.value s self) =
  if len (Objects.qbf_formulas self) =? 0 then Some (Objects.value s self)
  else if (len (Objects.qbf_formulas self) =? 1)
          && (len (s (Objects.positiveVariables self)) =? 0)
          && (len (s (Objects.negativeVariables self)) =? 0)
  then flatten_collapse fuel
         (Objects.value s (hd self (Objects.qbf_formulas self)))
  else
    let '(pos, neg, newQbflist) :=
      merge_same_type (Objects.type self)
        (map (Objects.value s) (Objects.qbf_formulas self))
        (s (Objects.positiveVariables self),
         s (Objects.negativeVariables self), []) in
    match flatten_collapse_each (flatten_collapse fuel) newQbflist with
    | Some simplifiedQbflist =>
        if String.eqb (Objects.type self) "AND"
        then Some (And pos neg simplifiedQbflist)
        else Some (Or pos neg simplifiedQbflist)
    | None => None
    end.
Proof.
  destruct self as [pos neg qbfs|pos neg qbfs];
    cbn [flatten_collapse Objects.value qbf_formulas positiveVariables
         negativeVariables type Objects.qbf_formulas Objects.positiveVariables
         Objects.negativeVariables Objects.type];
    unfold len; rewrite !length_map; destruct qbfs; reflexivity.
Qed.

Lemma map_value_frame s s' l pos neg :
  (forall r, r <> pos -> r <> neg -> s' r = s r) ->
  ~ In pos (flat_map Objects.list_refs l) ->
  ~ In neg (flat_map Objects.list_refs l) ->
  map (Objects.value s') l = map (Objects.value s) l.
Proof.
  intros H Hp Hn. apply map_value_ext. intros r Hr.
  apply H; intros ->; contradiction.
Qed.

(** The first loop, when the two list objects of the parent are distinct
    and occur nowhere among the children: it computes [merge_same_type]
    and leaves every other list object alone. *)
Lemma merge_loop_spec ty pos neg : pos <> neg ->
  forall qbfs s newQ s' newQ',
    NoDup (flat_map Objects.list_refs newQ ++ flat_map Objects.list_refs qbfs) ->
    ~ In pos (flat_map Objects.list_refs newQ ++ flat_map Objects.list_refs qbfs) ->
    ~ In neg (flat_map Objects.list_refs newQ ++ flat_map Objects.list_refs qbfs) ->
    Objects.merge_loop ty pos neg qbfs s newQ = (s', newQ') ->
    (forall r, r <> pos -> r <> neg -> s' r = s r) /\
    NoDup (flat_map Objects.list_refs newQ') /\
    incl (flat_map Objects.list_refs newQ')
         (flat_map Objects.list_refs newQ ++ flat_map Objects.list_refs qbfs) /\
    merge_same_type ty (map (Objects.value s) qbfs)
      (s pos, s neg, map (Objects.value s) newQ)
    = (s' pos, s' neg, map (Objects.value s) newQ').
Proof.
  intros Hpn. induction qbfs as [|qbf rest IH]; intros s newQ s' newQ' Hnd Hp Hn H.
  - simpl in H. inversion H; subst. simpl in *. rewrite app_nil_r in *.
    repeat split; auto. apply incl_refl.
  - cbn [Objects.merge_loop] in H. cbn [map merge_same_type].
    rewrite type_value.
    cbn [flat_map] in Hnd, Hp, Hn |- *.
    rewrite (list_refs_eq qbf) in Hnd, Hp, Hn |- *.
    destruct (String.eqb (Objects.type qbf) ty) eqn:E.
    + set (s1 := Objects.write s neg (s neg ++ s (Objects.negativeVariables qbf))) in *.
      set (s2 := Objects.write s1 pos (s1 pos ++ s1 (Objects.positiveVariables qbf))) in *.
      assert (Hqp : Objects.positiveVariables qbf <> neg).
      { intros <-. apply Hn. apply in_app_iff. right. simpl. auto. }
      assert (Hqn : Objects.negativeVariables qbf <> neg).
      { intros <-. apply Hn. apply in_app_iff. right. simpl. auto. }
      assert (Hnd' : NoDup (flat_map Objects.list_refs (newQ ++ Objects.qbf_formulas qbf)
                            ++ flat_map Objects.list_refs rest)).
      { rewrite flat_map_app, <- app_assoc.
        simpl in Hnd. apply NoDup_remove_1 in Hnd. apply NoDup_remove_1 in Hnd.
        exact Hnd. }
      assert (Hincl : incl (flat_map Objects.list_refs (newQ ++ Objects.qbf_formulas qbf)
                            ++ flat_map Objects.list_refs rest)
                           (flat_map Objects.list_refs newQ ++
                            (Objects.positiveVariables qbf
                             :: Objects.negativeVariables qbf
                             :: flat_map Objects.list_refs (Objects.qbf_formulas qbf))
                            ++ flat_map Objects.list_refs rest)).
      { intros r. rewrite flat_map_app, !in_app_iff. simpl. rewrite ?in_app_iff.
        tauto. }
      assert (Hp' : ~ In pos (flat_map Objects.list_refs (newQ ++ Objects.qbf_formulas qbf)
                              ++ flat_map Objects.list_refs rest)).
      { intros Hin. apply Hp. apply Hincl. exact Hin. }
      assert (Hn' : ~ In neg (flat_map Objects.list_refs (newQ ++ Objects.qbf_formulas qbf)
                              ++ flat_map Objects.list_refs rest)).
      { intros Hin. apply Hn. apply Hincl. exact Hin. }
      destruct (IH s2 _ s' newQ' Hnd' Hp' Hn' H) as (Hfr & Hnd2 & Hin2 & Hm).
      assert (Hs2 : forall r, r <> pos -> r <> neg -> s2 r = s r).
      { intros r Hrp Hrn. unfold s2, s1. rewrite !write_other by auto. reflexivity. }
      assert (Hs2p : s2 pos = s pos ++ s (Objects.positiveVariables qbf)).
      { unfold s2. rewrite write_same. unfold s1.
        rewrite !write_other by auto. reflexivity. }
      assert (Hs2n : s2 neg = s neg ++ s (Objects.negativeVariables qbf)).
      { unfold s2. rewrite write_other by auto. unfold s1. apply write_same. }
      repeat split.
      * intros r Hrp Hrn. rewrite Hfr by auto. apply Hs2; auto.
      * exact Hnd2.
      * intros r Hr. apply Hincl. apply Hin2. exact Hr.
      * rewrite Hs2p, Hs2n in Hm.
        assert (Hrest : ~ In pos (flat_map Objects.list_refs rest) /\
                        ~ In neg (flat_map Objects.list_refs rest)).
        { split; intros Hin; [apply Hp'|apply Hn']; apply in_app_iff; auto. }
        assert (HnQ : ~ In pos (flat_map Objects.list_refs (newQ ++ Objects.qbf_formulas qbf)) /\
                      ~ In neg (flat_map Objects.list_refs (newQ ++ Objects.qbf_formulas qbf))).
        { split; intros Hin; [apply Hp'|apply Hn']; apply in_app_iff; auto. }
        assert (HnQ' : ~ In pos (flat_map Objects.list_refs newQ') /\
                       ~ In neg (flat_map Objects.list_refs newQ')).
        { split; intros Hin; [apply Hp'|apply Hn']; apply Hin2; exact Hin. }
        rewrite (map_value_frame s s2 rest pos neg) in Hm by tauto.
        rewrite (map_value_frame s s2 (newQ ++ _) pos neg) in Hm by tauto.
        rewrite (map_value_frame s s2 newQ' pos neg) in Hm by tauto.
        rewrite map_app in Hm.
        destruct qbf as [qp qn qq|qp qn qq]; exact Hm.
    + assert (Hnd' : NoDup (flat_map Objects.list_refs (newQ ++ [qbf])
                            ++ flat_map Objects.list_refs rest)).
      { rewrite flat_map_app, <- app_assoc. cbn [flat_map].
        rewrite app_nil_r, (list_refs_eq qbf). exact Hnd. }
      assert (Heq : flat_map Objects.list_refs (newQ ++ [qbf])
                    ++ flat_map Objects.list_refs rest
                    = flat_map Objects.list_refs newQ ++
                      (Objects.positiveVariables qbf
                       :: Objects.negativeVariables qbf
                       :: flat_map Objects.list_refs (Objects.qbf_formulas qbf))
                      ++ flat_map Objects.list_refs rest).
      { rewrite flat_map_app, <- app_assoc. cbn [flat_map].
        rewrite app_nil_r, (list_refs_eq qbf). reflexivity. }
      rewrite <- Heq in Hp, Hn.
      destruct (IH s _ s' newQ' Hnd' Hp Hn H) as (Hfr & Hnd2 & Hin2 & Hm).
      repeat split; auto.
      * rewrite <- Heq. exact Hin2.
      * rewrite map_app in Hm. exact Hm.
Qed.

Lemma simplify_each_refines fuel :
  (forall self s,
     NoDup (Objects.list_refs self) -> (Objects.depth self < fuel)%nat ->
     exists F' s',
       Objects.simplify fuel self s = Some (F', s') /\
       flatten_collapse fuel (Objects.value s self) = Some (Objects.value s' F') /\
       (forall r, ~ In r (Objects.list_refs self) -> s' r = s r) /\
       incl (Objects.list_refs F') (Objects.list_refs self) /\
       NoDup (Objects.list_refs F')) ->
  forall l s,
    NoDup (flat_map Objects.list_refs l) ->
    (forall q, In q l -> (Objects.depth q < fuel)%nat) ->
    exists l' s',
      Objects.simplify_each (Objects.simplify fuel) l s = Some (l', s') /\
      flatten_collapse_each (flatten_collapse fuel) (map (Objects.value s) l)
      = Some (map (Objects.value s') l') /\
      (forall r, ~ In r (flat_map Objects.list_refs l) -> s' r = s r) /\
      incl (flat_map Objects.list_refs l') (flat_map Objects.list_refs l) /\
      NoDup (flat_map Objects.list_refs l').
Proof.
  intros IH. induction l as [|q rest IHl]; intros s Hnd Hd.
  - exists [], s. simpl. repeat split; auto. apply incl_refl.
  - cbn [flat_map] in Hnd.
    destruct (IH q s (NoDup_app_remove_r _ _ Hnd) (Hd q (or_introl eq_refl)))
      as (q' & s1 & Eq & Pq & Fq & Iq & Nq).
    destruct (IHl s1 (NoDup_app_remove_l _ _ Hnd)
                  (fun x Hx => Hd x (or_intror Hx)))
      as (rest' & s2 & Er & Pr & Fr & Ir & Nr).
    exists (q' :: rest'), s2.
    cbn [Objects.simplify_each map flatten_collapse_each flat_map].
    rewrite Eq, Er, Pq.
    assert (Hrest : map (Objects.value s1) rest = map (Objects.value s) rest).
    { apply map_value_ext. intros r Hr. apply Fq. intros Hq.
      exact (NoDup_app_disjoint _ _ r Hnd Hq Hr). }
    rewrite <- Hrest, Pr.
    assert (Hq' : Objects.value s2 q' = Objects.value s1 q').
    { apply value_ext. intros r Hr. apply Fr. intros Hin.
      apply Iq in Hr.
      exact (NoDup_app_disjoint _ _ r Hnd Hr Hin). }
    rewrite Hq'. repeat split.
    + intros r Hr. rewrite in_app_iff in Hr.
      rewrite Fr by tauto. apply Fq. tauto.
    + intros r Hr. apply in_app_iff in Hr. apply in_app_iff.
      destruct Hr as [Hr|Hr]; [left; apply Iq|right; apply Ir]; exact Hr.
    + apply NoDup_app; auto. intros r Hr Hin.
      apply Iq in Hr. apply Ir in Hin.
      exact (NoDup_app_disjoint _ _ r Hnd Hr Hin).
Qed.

(** On a tree whose literal lists are all distinct objects, [simplify]
    returns, and the node it returns stands for [flatten_collapse] of the
    formula; list objects outside the tree are left alone, and the result
    refers to list objects of the tree, to each at most once. *)
Lemma simplify_refines : forall fuel self s,
  NoDup (Objects.list_refs self) -> (Objects.depth self < fuel)%nat ->
  exists F' s',
    Objects.simplify fuel self s = Some (F', s') /\
    flatten_collapse fuel (Objects.value s self) = Some (Objects.value s' F') /\
    (forall r, ~ In r (Objects.list_refs self) -> s' r = s r) /\
    incl (Objects.list_refs F') (Objects.list_refs self) /\
    NoDup (Objects.list_refs F').
Proof.
  induction fuel as [|fuel IH]; intros self s Hnd Hd; [lia|].
  rewrite flatten_collapse_value. cbn [Objects.simplify].
  destruct (len (Objects.qbf_formulas self) =? 0) eqn:E0.
  { exists self, s. repeat split; auto. apply incl_refl. }
  destruct ((len (Objects.qbf_formulas self) =? 1)
            && (len (s (Objects.positiveVariables self)) =? 0)
            && (len (s (Objects.negativeVariables self)) =? 0)) eqn:E1.
  - destruct (Objects.qbf_formulas self) as [|q r] eqn:Eq; [discriminate|].
    cbn [hd].
    assert (Hq : In q (Objects.qbf_formulas self)) by (rewrite Eq; simpl; auto).
    assert (Hsub : incl (Objects.list_refs q) (Objects.list_refs self)).
    { intros x Hx. rewrite list_refs_eq, Eq. simpl. right; right.
      apply in_app_iff. auto. }
    assert (Hndq : NoDup (Objects.list_refs q)).
    { rewrite list_refs_eq, Eq in Hnd. inversion Hnd; subst.
      inversion H2; subst. simpl in H4. apply NoDup_app_remove_r in H4. exact H4. }
    apply Objects_depth_child in Hq.
    destruct (IH q s Hndq ltac:(lia)) as (F' & s' & E & P & Fr & I & N).
    exists F', s'. repeat split; auto.
    intros x Hx. apply Hsub. apply I. exact Hx.
  - rewrite list_refs_eq in Hnd.
    inversion Hnd as [|? ? Hp Hnd1]; subst.
    inversion Hnd1 as [|? ? Hn Hnd2]; subst.
    assert (Hpn : Objects.positiveVariables self <> Objects.negativeVariables self).
    { intros Heq. apply Hp. simpl. auto. }
    assert (Hp' : ~ In (Objects.positiveVariables self)
                    (flat_map Objects.list_refs (Objects.qbf_formulas self))).
    { intros Hin. apply Hp. simpl. auto. }
    destruct (Objects.merge_loop (Objects.type self) (Objects.positiveVariables self)
                (Objects.negativeVariables self) (Objects.qbf_formulas self) s [])
      as [s1 newQbflist] eqn:Em.
    destruct (merge_loop_spec _ _ _ Hpn (Objects.qbf_formulas self) s [] s1
                newQbflist Hnd2 Hp' Hn Em)
      as (Fm & Nm & Im & Pm).
    simpl in Im. cbn [map] in Pm. rewrite Pm.
    assert (Hnp : ~ In (Objects.positiveVariables self)
                    (flat_map Objects.list_refs newQbflist)).
    { intros Hin. apply Hp'. apply Im. exact Hin. }
    assert (Hnn : ~ In (Objects.negativeVariables self)
                    (flat_map Objects.list_refs newQbflist)).
    { intros Hin. apply Hn. apply Im. exact Hin. }
    assert (Hdepth : forall q, In q newQbflist -> (Objects.depth q < fuel)%nat).
    { intros q Hq.
      assert (Hq' : In (Objects.value s q) (map (Objects.value s) newQbflist))
        by (apply in_map; exact Hq).
      destruct (merge_same_type_members _ _ _ _ _ _ _ _ _ Pm Hq')
        as [[]|(c & Hc & Hor)].
      apply in_map_iff in Hc. destruct Hc as (c0 & <- & Hc0).
      apply Objects_depth_child in Hc0.
      destruct Hor as [Heq|Hin].
      - apply (f_equal depth) in Heq. rewrite !depth_value in Heq. lia.
      - apply depth_qbf_formulas in Hin. rewrite !depth_value in Hin. lia. }
    destruct (simplify_each_refines fuel IH newQbflist s1 Nm Hdepth)
      as (l' & s2 & Es & Ps & Fs & Is & Ns).
    rewrite Es.
    rewrite <- (map_value_frame s s1 newQbflist _ _ Fm Hnp Hnn), Ps.
    assert (Hres : NoDup (Objects.positiveVariables self
                          :: Objects.negativeVariables self
                          :: flat_map Objects.list_refs l')).
    { constructor.
      - intros [Heq|Hin]; [apply Hpn; symmetry; exact Heq|]. apply Hnp. apply Is. exact Hin.
      - constructor; [|exact Ns]. intros Hin. apply Hnn. apply Is. exact Hin. }
    assert (Hinc : incl (Objects.positiveVariables self
                         :: Objects.negativeVariables self
                         :: flat_map Objects.list_refs l')
                        (Objects.positiveVariables self
                         :: Objects.negativeVariables self
                         :: flat_map Objects.list_refs (Objects.qbf_formulas self))).
    { intros x [<-|[<-|Hx]];
        [left; reflexivity|right; left; reflexivity|right; right; apply Im, Is, Hx]. }
    assert (Hfr : forall r,
               ~ In r (Objects.positiveVariables self
                       :: Objects.negativeVariables self
                       :: flat_map Objects.list_refs (Objects.qbf_formulas self)) ->
               s2 r = s r).
    { intros r Hr. simpl in Hr. rewrite Fs.
      - apply Fm; intros ->; apply Hr; auto.
      - intros Hin. apply Hr. right; right. apply Im. exact Hin. }
    rewrite <- (Fs (Objects.positiveVariables self) Hnp).
    rewrite <- (Fs (Objects.negativeVariables self) Hnn).
    rewrite (list_refs_eq self).
    destruct (String.eqb (Objects.type self) "AND");
      eexists; exists s2; (split; [reflexivity|]);
      (split; [reflexivity|]); (split; [exact Hfr|]);
      (split; [exact Hinc|exact Hres]).
Qed.

(** *** [distributeImplication] on list objects *)

Lemma value_below s s' n free :
  (forall r, In r (Objects.list_refs n) -> (r < free)%nat) ->
  (forall r, (r < free)%nat -> s' r = s r) ->
  Objects.value s' n = Objects.value s n.
Proof. intros Hr Hs. apply value_ext. intros r Hin. apply Hs, Hr, Hin. Qed.

Lemma map_value_below s s' l free :
  (forall r, In r (flat_map Objects.list_refs l) -> (r < free)%nat) ->
  (forall r, (r < free)%nat -> s' r = s r) ->
  map (Objects.value s') l = map (Objects.value s) l.
Proof. intros Hr Hs. apply map_value_ext. intros r Hin. apply Hs, Hr, Hin. Qed.

(** A comprehension building [Or] nodes takes new list objects only: the
    list objects in use are left alone, and the nodes built stand for the
    formulas written. *)
Lemma comprehension_new_Or {X : Type} (a b : X -> list Z)
  (c : X -> list Objects.Node) :
  forall l s free ns s' free',
    Objects.comprehension (fun x => Objects.new_Or (a x) (b x) (c x)) l (s, free)
    = (ns, (s', free')) ->
    (forall x r, In x l -> In r (flat_map Objects.list_refs (c x)) -> (r < free)%nat) ->
    (free <= free')%nat /\
    (forall r, (r < free)%nat -> s' r = s r) /\
    (forall r, In r (flat_map Objects.list_refs ns) -> (r < free')%nat) /\
    map (Objects.value s') ns
    = map (fun x => Or (a x) (b x) (map (Objects.value s) (c x))) l.
Proof.
  induction l as [|x rest IH]; intros s free ns s' free' H Hc.
  - simpl in H. inversion H; subst. simpl. repeat split; auto. intros r [].
  - cbn [Objects.comprehension] in H. unfold Objects.new_Or at 1 in H.
    destruct (Objects.comprehension _ rest _) as [ns0 [s0 free0]] eqn:E.
    inversion H; subst. clear H.
    apply IH in E.
    2:{ intros y r Hy Hr. specialize (Hc y r (or_intror Hy) Hr). lia. }
    destruct E as (Hle & Hs & Hns & Hv).
    assert (Hs' : forall r, (r < free)%nat -> s' r = s r).
    { intros r Hr. rewrite Hs by lia. rewrite !write_other by lia. reflexivity. }
    split; [lia|]. split; [exact Hs'|]. split.
    + cbn [flat_map Objects.list_refs]. intros r Hr.
      simpl in Hr. destruct Hr as [<-|[<-|Hr]]; [lia|lia|].
      apply in_app_iff in Hr. destruct Hr as [Hr|Hr]; [|auto].
      specialize (Hc x r (or_introl eq_refl) Hr). lia.
    + cbn [map Objects.value]. f_equal.
      * rewrite !Hs by lia.
        rewrite write_other by lia. rewrite !write_same.
        f_equal. apply (map_value_below s s' (c x) free); [|exact Hs'].
        intros r Hr. exact (Hc x r (or_introl eq_refl) Hr).
      * rewrite Hv. apply map_ext_in. intros y Hy. f_equal.
        apply (map_value_below s _ (c y) free).
        -- intros r Hr. exact (Hc y r (or_intror Hy) Hr).
        -- intros r Hr. rewrite !write_other by lia. reflexivity.
Qed.

Lemma distributeImplication_value self var s free :
  NoDup (Objects.list_refs self) ->
  (forall r, In r (Objects.list_refs self) -> (r < free)%nat) ->
  exists self' s' free',
    Objects.distributeImplication self var (s, free) = (self', (s', free')) /\
    Objects.value s' self' = distributed (Objects.value s self) var.
Proof.
  intros Hnd Hfree.
  destruct self as [pos neg qbfs|pos neg qbfs].
  - cbn [Objects.distributeImplication fst].
    destruct (Objects.comprehension _ (s pos) (s, free)) as [t1 [s1 f1]] eqn:E1.
    cbn [fst].
    destruct (Objects.comprehension _ (s1 neg) (s1, f1)) as [t2 [s2 f2]] eqn:E2.
    destruct (Objects.comprehension _ qbfs (s2, f2)) as [t3 [s3 f3]] eqn:E3.
    eexists; eexists; eexists. split; [reflexivity|].
    apply (comprehension_new_Or (fun v => [v]) (fun _ => [var]) (fun _ => []))
      in E1; [|intros x r _ []].
    destruct E1 as (L1 & S1 & R1 & V1).
    apply (comprehension_new_Or (fun _ => []) (fun v => [v; var]) (fun _ => []))
      in E2; [|intros x r _ []].
    destruct E2 as (L2 & S2 & R2 & V2).
    apply (comprehension_new_Or (fun _ => []) (fun _ => [var]) (fun f => [f]))
      in E3.
    2:{ intros x r Hx Hr. cbn [flat_map] in Hr. rewrite app_nil_r in Hr.
        assert (r < free)%nat; [|lia].
        apply Hfree. simpl. right; right. apply in_flat_map. eauto. }
    destruct E3 as (L3 & S3 & R3 & V3).
    cbn [map] in V1, V2.
    cbn [Objects.value distributed].
    rewrite write_other by lia. rewrite !write_same. f_equal.
    rewrite !map_app. f_equal; [|f_equal].
    + rewrite <- V1.
      transitivity (map (Objects.value s3) t1).
      * apply (map_value_below _ _ t1 f1); [exact R1|].
        intros r Hr. rewrite !write_other by lia. reflexivity.
      * apply (map_value_below _ _ t1 f1); [exact R1|].
        intros r Hr. rewrite S3 by lia. apply S2. exact Hr.
    + assert (Hneg : s1 neg = s neg).
      { apply S1. apply Hfree. simpl. auto. }
      rewrite <- Hneg, <- V2.
      transitivity (map (Objects.value s3) t2).
      * apply (map_value_below _ _ t2 f2); [exact R2|].
        intros r Hr. rewrite !write_other by lia. reflexivity.
      * apply (map_value_below _ _ t2 f2); [exact R2|exact S3].
    + transitivity (map (Objects.value s3) t3).
      * apply (map_value_below _ _ t3 f3); [exact R3|].
        intros r Hr. rewrite !write_other by lia. reflexivity.
      * rewrite V3, map_map. apply map_ext_in. intros q Hq. cbn [map].
        do 2 f_equal. apply (value_below _ _ q free).
        -- intros r Hr. apply Hfree. simpl. right; right.
           apply in_flat_map. eauto.
        -- intros r Hr. rewrite S2 by lia. apply S1. exact Hr.
  - cbn [Objects.distributeImplication].
    eexists; eexists; eexists. split; [reflexivity|].
    cbn [Objects.list_refs] in Hnd.
    inversion Hnd as [|? ? Hp Hnd1]; subst.
    inversion Hnd1 as [|? ? Hn Hnd2]; subst.
    cbn [Objects.value distributed]. rewrite write_same.
    rewrite write_other by (intros ->; apply Hp; simpl; auto).
    f_equal. apply map_value_ext. intros r Hr.
    apply write_other. intros ->. contradiction.
Qed.

(** With one list object as both literal lists of a node, the two in-place
    extensions of [simplify] land in the same list:
    [And(p, p, [And([1],[],[]), And([],[2],[])])] with [p = []] comes back
    as [And(p, p, [])] with [p = [1, 2]]. *)
Lemma simplify_shared_list :
  exists s',
    Objects.simplify 3 Objects.shared_node Objects.shared_lists
    = Some (Objects.AndNode 0%nat 0%nat [], s') /\
    s' 0%nat = [1; 2].
Proof. eexists. split; vm_compute; reflexivity. Qed.

(** C7 as it is worded fails: [F = And(p, p, [And([1],[],[]), And([],[2],[])])],
    where the one list object [p = []] is both literal lists of the root,
    stands for [x1 and not x2]; [F.simplify()] returns a node that stands
    for [And([1,2],[1,2],[])], false under the assignment that makes [x1]
    true and [x2] false, under which [F] is true. *)
Lemma C7_counterexample :
  exists F' s' A,
    Objects.value Objects.shared_lists Objects.shared_node
    = And [] [] [And [1] [] []; And [] [2] []] /\
    Objects.simplify 3 Objects.shared_node Objects.shared_lists = Some (F', s') /\
    Objects.value s' F' = And [1; 2] [1; 2] [] /\
    holds A (Objects.value Objects.shared_lists Objects.shared_node) = true /\
    holds A (Objects.value s' F') = false.
Proof.
  eexists. eexists. exists (fun v => v =? 1).
  split; [reflexivity|]. split; [vm_compute; reflexivity|].
  split; [reflexivity|]. split; reflexivity.
Qed.

(** C7, as amended.  For a formula [F] whose literal lists are all distinct
    list objects, [simplify], given a budget above the nesting depth of
    [F], returns a node that stands for the formula obtained from [F] by
    flattening the children that carry the operator of their parent into
    the parent and by collapsing a node with exactly one child and no
    literals into that child ([flatten_collapse]), and that formula has
    the truth value of [F] under every assignment. *)
Theorem C7_simplify_unshared (F : Objects.Node) (s : Objects.lists) (fuel : nat) :
  NoDup (Objects.list_refs F) ->
  (Objects.depth F < fuel)%nat ->
  exists F' s',
    Objects.simplify fuel F s = Some (F', s') /\
    flatten_collapse fuel (Objects.value s F) = Some (Objects.value s' F') /\
    forall A, holds A (Objects.value s' F') = holds A (Objects.value s F).
Proof.
  intros Hnd Hd.
  destruct (simplify_refines fuel F s Hnd Hd) as (F' & s' & E & P & _).
  exists F', s'. split; [exact E|]. split; [exact P|].
  intros A. exact (flatten_collapse_holds A _ _ _ P).
Qed.

Lemma C7_simplify_unshared_witness :
  exists F' s',
    Objects.simplify 4 Objects.unshared_node Objects.unshared_lists = Some (F', s') /\
    flatten_collapse 4 (Objects.value Objects.unshared_lists Objects.unshared_node)
    = Some (Objects.value s' F') /\
    forall A, holds A (Objects.value s' F')
              = holds A (Objects.value Objects.unshared_lists Objects.unshared_node).
Proof.
  apply (C7_simplify_unshared Objects.unshared_node Objects.unshared_lists 4).
  - repeat (constructor; [simpl; lia|]). constructor.
  - simpl. lia.
Defined.

(** The example at work: the inner [Or] is flattened into the root, the
    literal-free [And] with one child collapsed into that child. *)
Lemma simplify_unshared_example :
  exists F' s',
    Objects.simplify 4 Objects.unshared_node Objects.unshared_lists = Some (F', s') /\
    Objects.value s' F' = Or [1; 3] [2] [And [4] [5] []; Or [6] [] []].
Proof. eexists. eexists. split; vm_compute; reflexivity. Qed.

(** With one list object as both literal lists, [Or.distributeImplication]
    shows its appended variable in both: [Or(p, p, [])] with [p = []]
    becomes [Or([7], [7], [])]. *)
Lemma distributeImplication_shared_list :
  exists s' free',
    Objects.distributeImplication (Objects.OrNode 0%nat 0%nat []) 7 (fun _ => [], 1%nat)
    = (Objects.OrNode 0%nat 0%nat [], (s', free')) /\
    Objects.value s' (Objects.OrNode 0%nat 0%nat []) = Or [7] [7] [].
Proof. eexists. eexists. split; vm_compute; reflexivity. Qed.

(** X4. On a node whose literal lists are all distinct list objects, with
    [free] above every list object in use, [self.distributeImplication(var)]
    leaves [self] standing for a formula that is true exactly when [var] is
    false or [self] was true, and it is the formula that the loop of
    [Or.aux_operatorToCnf], which repeats the distribution in line, makes
    of a child. *)
Theorem X4_distributeImplication (A : assignment) (self : Objects.Node)
  (var : Z) (s : Objects.lists) (free : Objects.ref) :
  NoDup (Objects.list_refs self) ->
  (forall r, In r (Objects.list_refs self) -> (r < free)%nat) ->
  exists self' s' free',
    Objects.distributeImplication self var (s, free) = (self', (s', free')) /\
    holds A (Objects.value s' self') = negb (A var) || holds A (Objects.value s self) /\
    Objects.value s' self' = distribute_child (Objects.value s self) var.
Proof.
  intros Hnd Hfree.
  destruct (distributeImplication_value self var s free Hnd Hfree)
    as (self' & s' & free' & E & V).
  exists self', s', free'. split; [exact E|].
  rewrite V, <- distribute_child_distributed.
  split; [apply holds_distribute_child|reflexivity].
Qed.

Lemma X4_distributeImplication_witness :
  exists self' s' free',
    Objects.distributeImplication Objects.unshared_node 7
      (Objects.unshared_lists, 10%nat) = (self', (s', free')) /\
    holds (fun v => v =? 1) (Objects.value s' self')
    = negb (7 =? 1)
      || holds (fun v => v =? 1)
               (Objects.value Objects.unshared_lists Objects.unshared_node) /\
    Objects.value s' self'
    = distribute_child (Objects.value Objects.unshared_lists Objects.unshared_node) 7.
Proof.
  apply (X4_distributeImplication (fun v => v =? 1) Objects.unshared_node 7
           Objects.unshared_lists 10%nat).
  - repeat (constructor; [simpl; lia|]). constructor.
  - simpl. lia.
Defined.

(** X8. On a formula whose literal lists are all distinct list objects,
    [simplify] keeps the literals and adds no node: the variables of the
    result are those of the formula, each as many times, and the result
    has at most as many nodes. *)
Theorem X8_simplify_keeps_literals (F : Objects.Node) (s : Objects.lists)
  (fuel : nat) :
  NoDup (Objects.list_refs F) ->
  (Objects.depth F < fuel)%nat ->
  exists F' s',
    Objects.simplify fuel F s = Some (F', s') /\
    Permutation (variables (Objects.value s' F')) (variables (Objects.value s F)) /\
    (nodes (Objects.value s' F') <= nodes (Objects.value s F))%nat.
Proof.
  intros Hnd Hd.
  destruct (simplify_refines fuel F s Hnd Hd) as (F' & s' & E & P & _).
  exists F', s'. split; [exact E|].
  destruct (flatten_collapse_keeps _ _ _ P) as [H1 H2].
  split; [|exact H2]. apply (Permutation_count_occ Z.eq_dec). exact H1.
Qed.

Lemma X8_simplify_keeps_literals_witness :
  exists F' s',
    Objects.simplify 4 Objects.unshared_node Objects.unshared_lists = Some (F', s') /\
    Permutation (variables (Objects.value s' F'))
      (variables (Objects.value Objects.unshared_lists Objects.unshared_node)) /\
    Nat.le (nodes (Objects.value s' F'))
      (nodes (Objects.value Objects.unshared_lists Objects.unshared_node)).
Proof.
  apply (X8_simplify_keeps_literals Objects.unshared_node Objects.unshared_lists 4).
  - repeat (constructor; [simpl; lia|]). constructor.
  - simpl. lia.
Defined.

(** X9. Simplifying first and compiling the result still encodes the
    formula: for a formula [F] whose literal lists are all distinct list
    objects and whose variables are numbered from 1 and below the seed [n],
    an assignment satisfies [F] exactly when it can be extended over the
    auxiliary variables to satisfy the clauses compiled from
    [F.simplify()]. *)
Theorem X9_simplify_then_compile (F : Objects.Node) (s : Objects.lists)
  (fuel : nat) (n nb0 : Z) :
  NoDup (Objects.list_refs F) ->
  (Objects.depth F < fuel)%nat ->
  1 <= n ->
  (forall v, In v (variables (Objects.value s F)) -> 1 <= v < n) ->
  exists F' s' cl n',
    Objects.simplify fuel F s = Some (F', s') /\
    operatorToCnf (Objects.value s' F') n nb0 = Some (cl, n') /\
    forall A, holds A (Objects.value s F) = true <->
              exists B, extends_over n n' A B /\ cnf_holds B cl = true.
Proof.
  intros Hnd Hd Hn Hv.
  destruct (simplify_refines fuel F s Hnd Hd) as (F' & s' & E & P & _).
  assert (Hv' : forall v, In v (variables (Objects.value s' F')) -> 1 <= v < n).
  { intros v Hin. apply Hv. destruct (flatten_collapse_keeps _ _ _ P) as [H1 _].
    unfold occ in H1.
    apply (count_occ_In Z.eq_dec). rewrite <- H1.
    apply (count_occ_In Z.eq_dec). exact Hin. }
  destruct (operatorToCnf_total (Objects.value s' F') n nb0) as (cl & n' & Ec).
  exists F', s', cl, n'. split; [exact E|]. split; [exact Ec|].
  apply operatorToCnf_compiles_to in Ec.
  pose proof (compiles_to_sound _ _ _ _ Ec) as Hs.
  pose proof (compiles_to_complete _ _ _ _ Ec Hn Hv') as Hc.
  intros A. rewrite <- (flatten_collapse_holds A _ _ _ P). split.
  - apply Hc.
  - intros (B & Hext & HB).
    rewrite (holds_agree A B (Objects.value s' F')); [apply Hs; auto|].
    + intros v Hin. specialize (Hv' v Hin). lia.
    + intros v Hin. symmetry. apply Hext. left. apply Hv'. exact Hin.
Qed.

Lemma X9_simplify_then_compile_witness :
  exists F' s' cl n',
    Objects.simplify 4 Objects.unshared_node Objects.unshared_lists = Some (F', s') /\
    operatorToCnf (Objects.value s' F') 7 0 = Some (cl, n') /\
    forall A,
      holds A (Objects.value Objects.unshared_lists Objects.unshared_node) = true
      <-> exists B, extends_over 7 n' A B /\ cnf_holds B cl = true.
Proof.
  apply (X9_simplify_then_compile Objects.unshared_node Objects.unshared_lists 4 7 0).
  - repeat (constructor; [simpl; lia|]). constructor.
  - simpl. lia.
  - lia.
  - simpl. intros v [<-|[<-|[<-|[<-|[<-|[<-|[]]]]]]]; lia.
Defined.

End ObjectsFacts.

(* ===================================================================== *)
(** ** Facts about what the compiler checks *)
(* ===================================================================== *)

Module ClassesFacts.
Import FormulasFacts FormulasExtra.

(** *** Every literal is written *)

Lemma sides_kept_distribute_child q a v :
  (In v (positives q) -> In v (positives (distribute_child q a))) /\
  (In v (negatives q) -> In v (negatives (distribute_child q a))).
Proof.
  rewrite distribute_child_distributed.
  destruct q as [pos neg qbfs|pos neg qbfs];
    cbn [distributed positives negatives].
  - rewrite !app_nil_l, !flat_map_app, !in_app_iff, !in_flat_map. split.
    + intros [H|(x & Hx & Hv)].
      * left. exists (Or [v] [a] []). split; [|simpl; auto].
        apply in_map_iff. eauto.
      * right; right. exists (Or [] [a] [x]). split.
        -- apply in_map_iff. eauto.
        -- simpl. rewrite app_nil_r. exact Hv.
    + intros [H|(x & Hx & Hv)].
      * right; left. exists (Or [] [v; a] []). split; [|simpl; auto].
        apply in_map_iff. eauto.
      * right; right. exists (Or [] [a] [x]). split.
        -- apply in_map_iff. eauto.
        -- simpl. rewrite app_nil_r. right. exact Hv.
  - rewrite !in_app_iff. tauto.
Qed.

Lemma sides_kept_mapi_distribute (g : nat -> Z) qbfs : forall i v,
  (In v (flat_map positives qbfs) ->
   In v (flat_map positives (mapi_from (fun i q => distribute_child q (g i)) i qbfs))) /\
  (In v (flat_map negatives qbfs) ->
   In v (flat_map negatives (mapi_from (fun i q => distribute_child q (g i)) i qbfs))).
Proof.
  induction qbfs as [|q qs IH]; intros i v; simpl; [tauto|].
  rewrite !in_app_iff.
  destruct (sides_kept_distribute_child q (g i) v) as [D1 D2].
  destruct (IH (S i) v) as [I1 I2]. tauto.
Qed.

Lemma chain_copied qbfs nb cl nb' :
  chain (fun q nb cl nb' => compiles_to q nb cl nb' /\ copied q cl) qbfs nb cl nb' ->
  (forall v, In v (flat_map positives qbfs) -> exists c, In c cl /\ In v c) /\
  (forall v, In v (flat_map negatives qbfs) -> exists c, In c cl /\ In (v * -1) c).
Proof.
  induction 1 as [nb|q qs nb c1 nb1 cr nb2 [_ [Hp Hn]] _ [IHp IHn]].
  - split; intros v [].
  - split; intros v Hv; cbn [flat_map] in Hv; apply in_app_iff in Hv;
      destruct Hv as [Hv|Hv].
    + destruct (Hp v Hv) as (c & Hc & Hin). exists c. rewrite in_app_iff. auto.
    + destruct (IHp v Hv) as (c & Hc & Hin). exists c. rewrite in_app_iff. auto.
    + destruct (Hn v Hv) as (c & Hc & Hin). exists c. rewrite in_app_iff. auto.
    + destruct (IHn v Hv) as (c & Hc & Hin). exists c. rewrite in_app_iff. auto.
Qed.

(** Every entry of a literal list of the formula is written in the output,
    whatever integer it is. *)
Lemma compiles_to_copied self nb cl nb' :
  compiles_to self nb cl nb' -> copied self cl.
Proof.
  apply (compiles_to_ind (fun self nb cl nb' => copied self cl));
    clear self nb cl nb'.
  - intros pos neg qbfs nb left nb' Hch.
    apply chain_copied in Hch. destruct Hch as [Hp Hn].
    split; intros v Hv; cbn [positives negatives] in Hv; apply in_app_iff in Hv;
      destruct Hv as [Hv|Hv].
    + exists [v]. split; [|simpl; auto].
      apply in_app_iff. left. apply in_map_iff. eauto.
    + destruct (Hp v Hv) as (c & Hc & Hin). exists c. rewrite !in_app_iff. auto.
    + exists [v * -1]. split; [|simpl; auto].
      apply in_app_iff. right. apply in_app_iff. left. apply in_map_iff. eauto.
    + destruct (Hn v Hv) as (c & Hc & Hin). exists c. rewrite !in_app_iff. auto.
  - intros pos neg inner nb cl nb' [_ [Hp Hn]].
    split; intros v Hv; [apply Hp|apply Hn];
      cbn [positives negatives flat_map] in *;
      rewrite ?app_nil_l, ?app_nil_r in Hv; exact Hv.
  - intros pos neg nb.
    split; intros v Hv; cbn [positives negatives flat_map] in Hv;
      rewrite app_nil_r in Hv; eexists; (split; [left; reflexivity|]).
    + apply in_app_iff. auto.
    + apply in_app_iff. right. simpl. apply in_map_iff. eauto.
  - intros pos neg qbfs nb cl nb' _ _ [_ [Hp Hn]].
    split; intros v Hv; cbn [positives negatives] in Hv; apply in_app_iff in Hv;
      destruct Hv as [Hv|Hv].
    + eexists. split; [apply in_app_iff; right; left; reflexivity|].
      apply in_app_iff. auto.
    + destruct (Hp v) as (c & Hc & Hin).
      { cbn [positives app].
        apply (sides_kept_mapi_distribute (fun i => nb + Z.of_nat i) qbfs 0%nat v).
        exact Hv. }
      exists c. rewrite in_app_iff. auto.
    + eexists. split; [apply in_app_iff; right; left; reflexivity|].
      rewrite !in_app_iff. right; right. apply in_map_iff. eauto.
    + destruct (Hn v) as (c & Hc & Hin).
      { cbn [negatives app].
        apply (sides_kept_mapi_distribute (fun i => nb + Z.of_nat i) qbfs 0%nat v).
        exact Hv. }
      exists c. rewrite in_app_iff. auto.
Qed.

(** *** The compiler on [And] and [Or] instances *)

Lemma len_map {A B : Type} (f : A -> B) (l : list A) : len (map f l) = len l.
Proof. unfold len. rewrite length_map. reflexivity. Qed.

Lemma instance_of_distribute_child q var :
  Classes.instance_of (distribute_child q var)
  = Classes.distribute_child (Classes.instance_of q) var.
Proof.
  destruct q as [pos neg qbfs|pos neg qbfs]; [|reflexivity].
  unfold distribute_child, Classes.distribute_child.
  cbn [type Classes.instance_of Classes.type String.eqb Ascii.eqb Bool.eqb
       positiveVariables negativeVariables qbf_formulas rebind Classes.rebind
       Classes.positiveVariables Classes.negativeVariables Classes.qbf_formulas].
  rewrite !map_app, !map_map. reflexivity.
Qed.

Lemma instance_of_mapi (g : nat -> Z) qbfs : forall i,
  map Classes.instance_of (mapi_from (fun i q => distribute_child q (g i)) i qbfs)
  = mapi_from (fun i q => Classes.distribute_child q (g i)) i
              (map Classes.instance_of qbfs).
Proof.
  induction qbfs as [|q qs IH]; intros i; simpl; [reflexivity|].
  rewrite instance_of_distribute_child, IH. reflexivity.
Qed.

Lemma single_bare_or_instance_of qbfs :
  Classes.single_bare_or (map Classes.instance_of qbfs)
  = match single_bare_or qbfs with
    | Some inner => Classes.TestTrue (map Classes.instance_of inner)
    | None => Classes.TestFalse
    end.
Proof.
  destruct qbfs as [|q [|q' r]]; try reflexivity.
  destruct q as [pos neg inner|pos neg inner]; [reflexivity|].
  simpl. destruct ((len pos =? 0) && (len neg =? 0)); reflexivity.
Qed.

Lemma concat_cnf_instance_of rec rec' qbfs :
  (forall q nb, rec' (Classes.instance_of q) nb = Classes.lift (rec q nb)) ->
  forall nb,
    Classes.concat_cnf rec' (map Classes.instance_of qbfs) nb
    = match concat_cnf rec qbfs nb with
      | Some (cl, nb') => Classes.Returns cl nb'
      | None => Classes.OutOfBudget
      end.
Proof.
  intros Hrec. induction qbfs as [|q qs IH]; intros nb; [reflexivity|].
  cbn [map Classes.concat_cnf concat_cnf]. unfold bind.
  rewrite Hrec. destruct (rec q nb) as [[cnf nb1]|]; [|reflexivity].
  cbn [Classes.lift]. rewrite IH.
  destruct (concat_cnf rec qs nb1) as [[left nb2]|]; reflexivity.
Qed.

(** On a tree of [And] and [Or] instances the compiler raises nothing and
    returns what [aux_operatorToCnf] of [Formulas] returns. *)
Lemma aux_operatorToCnf_instance_of : forall fuel self nb,
  Classes.aux_operatorToCnf fuel (Classes.instance_of self) nb
  = Classes.lift (aux_operatorToCnf fuel self nb).
Proof.
  induction fuel as [|fuel IH]; intros self nb; [reflexivity|].
  destruct self as [pos neg qbfs|pos neg qbfs].
  - rewrite aux_And_eq. cbn [Classes.instance_of Classes.aux_operatorToCnf].
    rewrite (concat_cnf_instance_of (aux_operatorToCnf fuel)) by exact IH.
    unfold bind.
    destruct (concat_cnf (aux_operatorToCnf fuel) qbfs nb) as [[left nb1]|];
      reflexivity.
  - rewrite aux_Or_eq. cbn [Classes.instance_of Classes.aux_operatorToCnf].
    rewrite single_bare_or_instance_of.
    destruct (single_bare_or qbfs) as [inner|].
    + exact (IH (Or pos neg inner) nb).
    + unfold bind, get_NB_VARS, set_NB_VARS, ret.
      rewrite !len_map.
      destruct (len qbfs =? 0); [reflexivity|].
      * unfold mapi. rewrite <- instance_of_mapi.
        pose proof (IH (And [] [] (mapi_from
                      (fun i q => distribute_child q (nb + Z.of_nat i)) 0 qbfs))
                     (nb + len qbfs)) as E.
        cbn [Classes.instance_of] in E. rewrite E.
        destruct (aux_operatorToCnf fuel _ (nb + len qbfs)) as [[cl nb1]|];
          reflexivity.
Qed.

(** *** Instances of the class [Operator] itself *)

Lemma type_erase q :
  String.eqb (type (Classes.erase q)) "OR" = String.eqb (Classes.type q) "OR".
Proof.
  destruct q as [ty pos neg qbfs|pos neg qbfs|pos neg qbfs]; try reflexivity.
  cbn [Classes.erase Classes.type].
  destruct (String.eqb ty "OR"); reflexivity.
Qed.

Lemma erase_distribute_child q var :
  Classes.erase (Classes.distribute_child q var)
  = distribute_child (Classes.erase q) var.
Proof.
  unfold distribute_child, Classes.distribute_child. rewrite type_erase.
  destruct q as [ty pos neg qbfs|pos neg qbfs|pos neg qbfs];
    cbn [Classes.type Classes.positiveVariables Classes.negativeVariables
         Classes.qbf_formulas Classes.rebind].
  - cbn [Classes.erase].
    destruct (String.eqb ty "OR") eqn:E; cbn [Classes.erase]; rewrite E;
      cbn [positiveVariables negativeVariables qbf_formulas rebind];
      [reflexivity|].
    rewrite !map_app, !map_map. reflexivity.
  - cbn [String.eqb Ascii.eqb Bool.eqb Classes.erase positiveVariables
         negativeVariables qbf_formulas rebind].
    rewrite !map_app, !map_map. reflexivity.
  - reflexivity.
Qed.

Lemma erase_mapi (g : nat -> Z) qbfs : forall i,
  map Classes.erase
      (mapi_from (fun i q => Classes.distribute_child q (g i)) i qbfs)
  = mapi_from (fun i q => distribute_child q (g i)) i (map Classes.erase qbfs).
Proof.
  induction qbfs as [|q qs IH]; intros i; simpl; [reflexivity|].
  rewrite erase_distribute_child, IH. reflexivity.
Qed.

Lemma existsb_map_false {A B : Type} (p : B -> bool) (f : A -> B) (l : list A) :
  (forall x, p (f x) = false) -> existsb p (map f l) = false.
Proof.
  intros H. induction l as [|x l IH]; simpl; [reflexivity|].
  rewrite H, IH. reflexivity.
Qed.

Lemma has_base_distribute_child q var :
  Classes.has_base_instance (Classes.distribute_child q var)
  = Classes.has_base_instance q.
Proof.
  unfold Classes.distribute_child.
  destruct q as [ty pos neg qbfs|pos neg qbfs|pos neg qbfs].
  - destruct (String.eqb _ "OR"); reflexivity.
  - cbn [Classes.type String.eqb Ascii.eqb Bool.eqb Classes.positiveVariables
         Classes.negativeVariables Classes.qbf_formulas Classes.rebind
         Classes.has_base_instance].
    rewrite !existsb_app.
    rewrite !existsb_map_false by reflexivity. simpl.
    induction qbfs as [|q qs IH]; simpl; [reflexivity|].
    rewrite IH, orb_false_r. reflexivity.
  - reflexivity.
Qed.

Lemma has_base_mapi (g : nat -> Z) qbfs : forall i,
  existsb Classes.has_base_instance
          (mapi_from (fun i q => Classes.distribute_child q (g i)) i qbfs)
  = existsb Classes.has_base_instance qbfs.
Proof.
  induction qbfs as [|q qs IH]; intros i; simpl; [reflexivity|].
  rewrite has_base_distribute_child, IH. reflexivity.
Qed.

(** The loop over the children of an [And]: it gets through when no child
    holds an instance of [Operator], and raises at the first that does. *)
Lemma concat_cnf_outcome rec qbfs :
  (forall q nb, In q qbfs -> Classes.outcome q nb (rec q nb)) ->
  forall nb,
    if existsb Classes.has_base_instance qbfs
    then exists e, Classes.concat_cnf rec qbfs nb = Classes.Raises e
    else exists left nb', Classes.concat_cnf rec qbfs nb = Classes.Returns left nb'.
Proof.
  induction qbfs as [|q qs IH]; intros Hrec nb.
  - simpl. eauto.
  - cbn [existsb Classes.concat_cnf].
    pose proof (Hrec q nb (or_introl eq_refl)) as Hq.
    specialize (IH (fun x n Hx => Hrec x n (or_intror Hx))).
    destruct q as [ty pos neg qq|pos neg qq|pos neg qq].
    + cbn [Classes.outcome] in Hq. rewrite Hq. simpl. eauto.
    + cbn [Classes.outcome] in Hq.
      destruct (Classes.has_base_instance (Classes.AndInstance pos neg qq)).
      * destruct Hq as [e ->]. simpl. eauto.
      * destruct Hq as (cl & nb1 & ->). cbn [orb]. specialize (IH nb1).
        destruct (existsb Classes.has_base_instance qs).
        -- destruct IH as [e ->]. eauto.
        -- destruct IH as (left & nb2 & ->). eauto.
    + cbn [Classes.outcome] in Hq.
      destruct (Classes.has_base_instance (Classes.OrInstance pos neg qq)).
      * destruct Hq as [e ->]. simpl. eauto.
      * destruct Hq as (cl & nb1 & ->). cbn [orb]. specialize (IH nb1).
        destruct (existsb Classes.has_base_instance qs).
        -- destruct IH as [e ->]. eauto.
        -- destruct IH as (left & nb2 & ->). eauto.
Qed.

(** What [aux_operatorToCnf] does, class by class, with a budget above
    [budget]: [None] from an instance of [Operator], an exception when
    such an instance lies below an [And] or [Or], clauses otherwise. *)
Lemma aux_operatorToCnf_outcome : forall fuel self nb,
  (budget (Classes.erase self) < fuel)%nat ->
  Classes.outcome self nb (Classes.aux_operatorToCnf fuel self nb).
Proof.
  induction fuel as [|fuel IH]; intros self nb Hb; [lia|].
  destruct self as [ty pos neg qbfs|pos neg qbfs|pos neg qbfs].
  - reflexivity.
  - cbn [Classes.outcome Classes.has_base_instance Classes.aux_operatorToCnf].
    pose proof (concat_cnf_outcome (Classes.aux_operatorToCnf fuel) qbfs) as H.
    specialize (H (fun q n Hq => IH q n ltac:(
      cbn [Classes.erase budget] in Hb;
      pose proof (list_sum_In budget (map Classes.erase qbfs) (Classes.erase q)
                    (in_map Classes.erase qbfs q Hq)); lia)) nb).
    destruct (existsb Classes.has_base_instance qbfs).
    + destruct H as [e ->]. eauto.
    + destruct H as (left & nb' & ->). eauto.
  - cbn [Classes.aux_operatorToCnf].
    destruct (Classes.single_bare_or qbfs) as [inner| |e] eqn:T.
    + destruct qbfs as [|q [|q' r]]; try discriminate.
      unfold Classes.single_bare_or in T.
      destruct (String.eqb (Classes.type q) "OR"); [|discriminate].
      destruct q as [ty qp qn qq|qp qn qq|qp qn qq]; try discriminate.
      destruct ((len qp =? 0) && (len qn =? 0)); [|discriminate].
      inversion T; subst inner.
      assert (Hb' : (budget (Classes.erase (Classes.OrInstance pos neg qq)) < fuel)%nat).
      { cbn [Classes.erase budget budget_child map list_sum fold_right] in *. lia. }
      pose proof (IH (Classes.OrInstance pos neg qq) nb Hb') as H.
      cbn [Classes.outcome Classes.has_base_instance existsb] in *.
      rewrite orb_false_r. exact H.
    + destruct (len qbfs =? 0) eqn:K.
      * apply Z.eqb_eq, len_zero_nil in K. subst qbfs.
        cbn [Classes.outcome Classes.has_base_instance existsb]. eauto.
      * assert (Hb' : (budget (Classes.erase
                         (Classes.AndInstance [] []
                            (mapi (fun i q => Classes.distribute_child q (nb + Z.of_nat i))
                                  qbfs))) < fuel)%nat).
        { cbn [Classes.erase budget] in *. unfold mapi. rewrite erase_mapi.
          pose proof (budget_mapi_distribute (fun i => nb + Z.of_nat i)
                        (map Classes.erase qbfs) 0%nat). lia. }
        pose proof (IH _ (nb + len qbfs) Hb') as H.
        cbn [Classes.outcome Classes.has_base_instance] in *.
        unfold mapi in H at 1. rewrite has_base_mapi in H.
        destruct (existsb Classes.has_base_instance qbfs).
        -- destruct H as [e ->]. eauto.
        -- destruct H as (cl & nb' & ->). eauto.
    + destruct qbfs as [|q [|q' r]]; try discriminate.
      unfold Classes.single_bare_or in T.
      destruct (String.eqb (Classes.type q) "OR") eqn:Ety; [|discriminate].
      destruct q as [ty qp qn qq|qp qn qq|qp qn qq].
      * cbn [Classes.outcome Classes.has_base_instance existsb orb]. eauto.
      * discriminate.
      * destruct ((len qp =? 0) && (len qn =? 0)); discriminate.
Qed.

Lemma operatorToCnf_outcome self nbVars nb0 :
  Classes.outcome self nbVars (Classes.operatorToCnf self nbVars nb0).
Proof. apply aux_operatorToCnf_outcome. lia. Qed.

Lemma operatorToCnf_instance_of self nbVars nb0 :
  Classes.operatorToCnf (Classes.instance_of self) nbVars nb0
  = Classes.lift (operatorToCnf self nbVars nb0).
Proof.
  unfold Classes.operatorToCnf. rewrite aux_operatorToCnf_instance_of.
  f_equal. apply aux_operatorToCnf_enough.
  assert (E : Classes.erase (Classes.instance_of self) = self).
  { induction self as [pos neg qbfs IH|pos neg qbfs IH] using Operator_tree_ind;
      cbn [Classes.instance_of Classes.erase]; f_equal; rewrite map_map;
      rewrite <- (map_id qbfs) at 2; apply map_ext_in; intros q Hq;
      rewrite Forall_forall in IH; auto. }
  rewrite E. lia.
Qed.

(** A tag outside ["AND"] and ["OR"] is not checked anywhere:
    [Operator("XOR", [1], [2], []).operatorToCnf(3)] returns [None]; below
    an [And] the compiler stops with a [TypeError], and so it does below an
    [Or] with two children; and an instance of [Operator] tagged ["OR"] as
    the only child of an [Or] stops it with an [AttributeError]. *)
Lemma operatorToCnf_tags :
  Classes.operatorToCnf (Classes.OperatorInstance "XOR" [1] [2] []) 3 0
  = Classes.Returns Classes.PyNone 3 /\
  Classes.operatorToCnf
    (Classes.AndInstance [1] [] [Classes.OperatorInstance "XOR" [2] [] []]) 3 0
  = Classes.Raises Classes.TypeError /\
  Classes.operatorToCnf
    (Classes.OrInstance [] []
       [Classes.AndInstance [1] [] []; Classes.OperatorInstance "XOR" [2] [] []]) 3 0
  = Classes.Raises Classes.TypeError /\
  Classes.operatorToCnf
    (Classes.OrInstance [1] [] [Classes.OperatorInstance "OR" [2] [] []]) 3 0
  = Classes.Raises Classes.AttributeError.
Proof. repeat split; vm_compute; reflexivity. Qed.

(** C4 as it is worded fails: a literal list holding [0] or a negative
    number is compiled like any other and the clauses are returned; and an
    instance of [Operator] tagged ["XOR"] makes [operatorToCnf] return
    [None], with no error at all. *)
Lemma C4_counterexample :
  In 0 (variables (And [0] [] [])) /\
  operatorToCnf (And [0] [] []) 1 0 = Some ([[0]], 1) /\
  In (-3) (variables (Or [2] [-3] [And [] [-3] []])) /\
  operatorToCnf (Or [2] [-3] [And [] [-3] []]) 4 0
  = Some ([[3; -4]; [2; 4; 3]], 5) /\
  Classes.operatorToCnf (Classes.OperatorInstance "XOR" [1] [2] []) 3 0
  = Classes.Returns Classes.PyNone 3.
Proof.
  split; [simpl; auto|]. split; [vm_compute; reflexivity|].
  split; [simpl; auto|]. split; vm_compute; reflexivity.
Qed.

(** C4, as amended.  The compiler checks nothing and has no error of its
    own.  For every tree [F] of [And] and [Or] nodes, whatever integers
    its literal lists hold, [operatorToCnf] raises nothing and returns a
    clause list; in it every literal is an entry of a positive literal
    list as it is, an entry of a negative literal list multiplied by [-1],
    or an auxiliary variable of the run with either sign, and every entry
    of a literal list is written so.  A tag outside ["AND"] and ["OR"] can
    only be carried by an instance [o] of the class [Operator] itself, and
    the tag is read by nobody: on such an instance [operatorToCnf] returns
    [None] and leaves the counter at the seed; on a tree of [And] and [Or]
    instances with such an instance below it stops with a [TypeError] or an
    [AttributeError]; and only on a tree without one does it return
    clauses. *)
Theorem C4_nothing_validated (F : Operator) (o : Classes.instance) (n nb0 : Z) :
  (exists cl n',
     operatorToCnf F n nb0 = Some (cl, n') /\
     Classes.operatorToCnf (Classes.instance_of F) n nb0
     = Classes.Returns (Classes.Clauses cl) n' /\
     keeps_side F n cl n' /\
     copied F cl) /\
  match o with
  | Classes.OperatorInstance _ _ _ _ =>
      Classes.operatorToCnf o n nb0 = Classes.Returns Classes.PyNone n
  | _ =>
      if Classes.has_base_instance o
      then exists e, Classes.operatorToCnf o n nb0 = Classes.Raises e
      else exists cl n',
             Classes.operatorToCnf o n nb0 = Classes.Returns (Classes.Clauses cl) n'
  end.
Proof.
  split.
  - destruct (operatorToCnf_total F n nb0) as (cl & n' & E).
    exists cl, n'. split; [exact E|].
    split; [rewrite operatorToCnf_instance_of, E; reflexivity|].
    apply operatorToCnf_compiles_to in E.
    split; [exact (compiles_to_keeps_side _ _ _ _ E)
           |exact (compiles_to_copied _ _ _ _ E)].
  - exact (operatorToCnf_outcome o n nb0).
Qed.

End ClassesFacts.
